(** * QuestionAir: the keyword extraction and alignment engine

    A shallow embedding of [src/QuestionGenerator/keyword_extractor.py]
    (class [KeywordExtractor]) and the properties of its specification,
    followed by its caller, the question generator of
    [src/QuestionGenerator/qcm_generator.py].

    Conventions of the embedding.
    - A Python [str] is a sequence of Unicode code points: [list N].
      [len] is [length], and the character class of the candidate filter
      is a predicate on code points.
    - A Python [float] that is the result of a similarity computation is a
      finite number; finite floats are (dyadic) rationals and compare as
      rationals do, so scores and thresholds are in [Q].
    - A [dict] is a [gmap], a [set] is a [gset]; iterating over a set
      follows [elements], an order fixed by the set and not by insertion,
      as Python's hash order is.  A [Counter] keeps insertion order, which
      [max] observes, so it is an association list.
    - The two caches are fields of the extractor instance.  Methods run in
      a state-and-exception monad: an exception leaves the state as it was
      when it was raised.
    - The collaborators the module imports (the ollama embedding service,
      sklearn's [cosine_similarity], the spaCy pipeline, [str.lower],
      sklearn's [TfidfVectorizer]) are variables of the section.  The
      embedding service, the spaCy pipeline, [cosine_similarity] and the
      TF-IDF step can raise: they return an [option], and [None] stands
      for the exception.  Only that of the TF-IDF step is caught by the
      code. *)

From Stdlib Require Import QArith.
From Stdlib Require Import Ascii String.
From stdpp Require Import gmap list sorting.

#[local] Open Scope nat_scope.
#[local] Open Scope list_scope.

(** ** Strings *)

Abbreviation str := (list N).
Abbreviation vec := (list Q).

(** An ASCII literal as a Python string. *)
Definition py (s : string) : str :=
  List.map N_of_ascii (list_ascii_of_string s).

(** ** The candidate filter (lines 72-74)

    [len(k) > 2 and re.match(r'^[a-zA-ZÀ-ÿ\s-]+$', k)] *)

Module Filter.

Definition in_range (lo hi c : N) : bool := ((lo <=? c) && (c <=? hi))%N.

(** [\s] of a Python 3 [str] pattern: the code points for which
    [str.isspace] holds. *)
Definition re_space (c : N) : bool :=
  in_range 9 13 c || in_range 28 32 c || (c =? 133)%N || (c =? 160)%N
  || (c =? 5760)%N || in_range 8192 8202 c || (c =? 8232)%N
  || (c =? 8233)%N || (c =? 8239)%N || (c =? 8287)%N || (c =? 12288)%N.

Definition hyphen : N := 45.

(** The class [[a-zA-ZÀ-ÿ\s-]]: [À] is U+00C0 and [ÿ] is U+00FF. *)
Definition re_class (c : N) : bool :=
  in_range 97 122 c || in_range 65 90 c || in_range 192 255 c
  || re_space c || (c =? hyphen)%N.

(** [re.match(r'^[...]+$', k)]: one or more characters of the class up to
    the end of the string.  ([$] also matches before a final newline, but
    a newline is in the class, so nothing more is accepted that way.) *)
Definition re_match (k : str) : bool :=
  match k with
  | [] => false
  | _ :: _ => forallb re_class k
  end.

Definition keep (k : str) : bool := (2 <? length k) && re_match k.

(** The words of the specification for what the filter lets through. *)
Definition is_ascii_letter (c : N) : bool :=
  in_range 97 122 c || in_range 65 90 c.

(** Letters of the Latin-1 block from U+00C0 on: all of U+00C0..U+00FF
    but the multiplication sign U+00D7 and the division sign U+00F7. *)
Definition is_accented_latin_letter (c : N) : bool :=
  in_range 192 255 c && negb (c =? 215)%N && negb (c =? 247)%N.

Definition is_letter (c : N) : bool :=
  is_ascii_letter c || is_accented_latin_letter c.

Definition is_digit (c : N) : bool := in_range 48 57 c.

(** ASCII punctuation and symbols, and the two signs of Latin-1 that sit
    inside [À-ÿ]. *)
Definition is_ascii_punctuation (c : N) : bool :=
  in_range 33 47 c || in_range 58 64 c || in_range 91 96 c
  || in_range 123 126 c.

Definition allowed_by_spec (c : N) : bool :=
  is_letter c || re_space c || (c =? hyphen)%N.

End Filter.

(** ** The extractor instance and its monad *)

Inductive exn : Type :=
| ProviderError   (* [ollama.embeddings] failed or answered without a vector *)
| ValueError      (* [max] of an empty sequence *)
| KeyError.       (* [d[k]] for an absent key *)

Inductive result (A : Type) : Type :=
| Ok (a : A)
| Raise (e : exn).
Arguments Ok {A} a.
Arguments Raise {A} e.

(** [embedding_cache] and [keyword_alignment_cache] are the two attributes
    set by [__init__].  The two other fields are ghost history: the prompts
    sent to the embedding service, and the assignments made to the
    alignment cache, both oldest first. *)
Record extractor : Type := Extractor {
  embedding_cache : gmap str vec;
  keyword_alignment_cache : gmap str str;
  provider_calls : list str;
  alignment_writes : list (str * str)
}.

(** The state [__init__] leaves. *)
Definition init : extractor :=
  {| embedding_cache := ∅; keyword_alignment_cache := ∅;
     provider_calls := []; alignment_writes := [] |}.

Definition M (A : Type) : Type := extractor -> result A * extractor.

Definition ret {A} (a : A) : M A := fun st => (Ok a, st).

Definition raise {A} (e : exn) : M A := fun st => (Raise e, st).

Definition bind {A B} (m : M A) (f : A -> M B) : M B :=
  fun st =>
    match m st with
    | (Ok a, st') => f a st'
    | (Raise e, st') => (Raise e, st')
    end.

Declare Scope py_scope.
Delimit Scope py_scope with py.
Notation "'let*' x ':=' c1 'in' c2" := (bind c1 (fun x => c2))
  (at level 10, x name, c1 at level 100, c2 at level 200) : py_scope.
#[local] Open Scope py_scope.

(** [for x in xs: acc = body x acc] *)
Fixpoint for_each {A B} (xs : list A) (body : A -> B -> M B) (acc : B) : M B :=
  match xs with
  | [] => ret acc
  | x :: xs' => let* acc' := body x acc in for_each xs' body acc'
  end.

(** [[f(x) for x in xs]] *)
Fixpoint comprehension {A B} (f : A -> M B) (xs : list A) : M (list B) :=
  match xs with
  | [] => ret []
  | x :: xs' =>
      let* y := f x in
      let* ys := comprehension f xs' in
      ret (y :: ys)
  end.

(** Attribute access and assignment. *)
Definition set_embedding (text : str) (e : vec) : M unit :=
  fun st =>
    (Ok tt,
     {| embedding_cache := <[text := e]> (embedding_cache st);
        keyword_alignment_cache := keyword_alignment_cache st;
        provider_calls := provider_calls st;
        alignment_writes := alignment_writes st |}).

Definition set_alignment (k representative : str) : M unit :=
  fun st =>
    (Ok tt,
     {| embedding_cache := embedding_cache st;
        keyword_alignment_cache :=
          <[k := representative]> (keyword_alignment_cache st);
        provider_calls := provider_calls st;
        alignment_writes := alignment_writes st ++ [(k, representative)] |}).

Definition get_alignment (k : str) : M str :=
  fun st =>
    match keyword_alignment_cache st !! k with
    | Some r => (Ok r, st)
    | None => (Raise KeyError, st)
    end.

(** ** Helpers standing for Python built-ins *)

(** [l[:k]]: a negative [k] counts from the end. *)
Definition slice_to {A} (k : Z) (l : list A) : list A :=
  if (0 <=? k)%Z then take (Z.to_nat k) l
  else take (Z.to_nat (Z.of_nat (length l) + k)) l.

(** [sorted(items, key = lambda x: x[1], reverse = True)]: a stable sort,
    so items of equal score keep their order. *)
Fixpoint insert_by_score (x : str * Q) (l : list (str * Q)) : list (str * Q) :=
  match l with
  | [] => [x]
  | y :: l' =>
      if Qle_bool (snd y) (snd x) then x :: y :: l'
      else y :: insert_by_score x l'
  end.

Definition sorted_reverse (items : list (str * Q)) : list (str * Q) :=
  foldr insert_by_score [] items.

(** [Counter(iterable)]: counts, keys in order of first occurrence. *)
Fixpoint counter_add (k : str) (counts : list (str * nat)) : list (str * nat) :=
  match counts with
  | [] => [(k, 1)]
  | (k', c) :: counts' =>
      if decide (k' = k) then (k', S c) :: counts'
      else (k', c) :: counter_add k counts'
  end.

Definition Counter (ks : list str) : list (str * nat) :=
  foldl (fun counts k => counter_add k counts) [] ks.

(** [max(items, key = lambda x: x[1])]: the first item of greatest count;
    [None] stands for the [ValueError] on an empty sequence. *)
Fixpoint max_from (best : str * nat) (items : list (str * nat)) : str * nat :=
  match items with
  | [] => best
  | x :: items' =>
      if snd best <? snd x then max_from x items' else max_from best items'
  end.

Definition max_by_count (items : list (str * nat)) : option (str * nat) :=
  match items with
  | [] => None
  | x :: items' => Some (max_from x items')
  end.

(** ** The similarity matrix (lines 104-114) *)

(** [np.zeros((n, n))] *)
Definition zeros (n : nat) : list (list Q) := replicate n (replicate n 0%Q).

(** [m[i][j] = x] *)
Definition matrix_set (m : list (list Q)) (i j : nat) (x : Q) : list (list Q) :=
  alter (fun row => <[j := x]> row) i m.

(** [m[i][j]], for indices within the matrix. *)
Definition matrix_get (m : list (list Q)) (i j : nat) : Q :=
  default 0%Q (m !! i ≫= fun row => row !! j).

(** ** The spaCy document *)

Record Token : Type := { token_text : str; pos_ : str }.

Record Doc : Type := {
  ents : list str;          (* [ent.text] for [ent] in [doc.ents] *)
  noun_chunks : list str;   (* [chunk.text] for [chunk] in [doc.noun_chunks] *)
  tokens : list Token
}.

Definition important_pos : gset str := {[ py "NOUN"; py "PROPN"; py "ADJ" ]}.

Section KeywordExtractor.

(** The collaborators. *)

(** [np.array(ollama.embeddings(model, prompt)['embedding'])]; [None]
    when the call or the access raises. *)
Variable ollama_embeddings : str -> option vec.

(** [sklearn.metrics.pairwise.cosine_similarity(a, b)[0][0]] on two
    vectors reshaped to one row each; [None] when it raises, as it does
    with [ValueError] on a vector without a coordinate and on two vectors
    of different dimensions. *)
Variable cosine_similarity : vec -> vec -> option Q.

(** The spaCy pipeline [self.nlp]; [None] when it raises, as it does with
    [ValueError] on a text longer than its [max_length]. *)
Variable nlp : str -> option Doc.

(** [str.lower]. *)
Variable lower : str -> str.

(** [TfidfVectorizer(max_features = 10)] fitted on the one text, then
    [get_feature_names_out()] (the keys of [word_scores]); [None] when
    anything in the [try] block raises. *)
Variable tfidf_feature_names : str -> option (list str).

(** *** [get_embedding] (lines 28-39) *)

Definition call_provider (text : str) : M vec :=
  fun st =>
    let st' :=
      {| embedding_cache := embedding_cache st;
         keyword_alignment_cache := keyword_alignment_cache st;
         provider_calls := provider_calls st ++ [text];
         alignment_writes := alignment_writes st |} in
    match ollama_embeddings text with
    | Some e => (Ok e, st')
    | None => (Raise ProviderError, st')
    end.

Definition get_embedding (text : str) : M vec :=
  fun st =>
    match embedding_cache st !! text with
    | Some e => (Ok e, st)
    | None =>
        (let* embedding := call_provider text in
         let* _ := set_embedding text embedding in
         ret embedding) st
    end.

(** *** The calls that can raise [ValueError] *)

(** [self.nlp(text)] (line 44). *)
Definition call_nlp (text : str) : M Doc :=
  match nlp text with
  | Some doc => ret doc
  | None => raise ValueError
  end.

(** [cosine_similarity(a.reshape(1, -1), b.reshape(1, -1))[0][0]] (lines
    83-84 and 109-112). *)
Definition call_cosine (a b : vec) : M Q :=
  match cosine_similarity a b with
  | Some sim => ret sim
  | None => raise ValueError
  end.

(** *** Candidate generation (lines 46-74), from the document that
    [self.nlp(text)] returned *)

Definition add_all (new : list str) (candidates : gset str) : gset str :=
  foldl (fun acc k => {[ k ]} ∪ acc) candidates new.

Definition candidate_generator (doc : Doc) (text : str) : gset str :=
  let candidates : gset str := ∅ in
  (* Method 1: spaCy NER *)
  let candidates := add_all (List.map lower (ents doc)) candidates in
  (* Method 2: noun phrases *)
  let candidates := add_all (List.map lower (noun_chunks doc)) candidates in
  (* Method 3: important POS tags *)
  let candidates :=
    add_all
      (List.map (fun t => lower (token_text t))
         (List.filter (fun t => bool_decide (pos_ t ∈ important_pos))
            (tokens doc)))
      candidates in
  (* Method 4: TF-IDF for single words *)
  let candidates :=
    match tfidf_feature_names text with
    | Some names => add_all names candidates
    | None => candidates
    end in
  (* Filter out very short keywords and those with special characters *)
  filter (fun k => Filter.keep k = true) candidates.

(** *** [extract_keywords] (lines 41-89) *)

Definition extract_keywords (text : str) (num_keywords : Z) : M (list str) :=
  let* doc := call_nlp text in
  let candidates := candidate_generator doc text in
  let* candidate_embeddings :=
    comprehension
      (fun k => let* e := get_embedding k in ret (k, e))
      (elements candidates) in
  let* text_embedding := get_embedding text in
  let* scores :=
    comprehension
      (fun kv : str * vec =>
         let* score := call_cosine (snd kv) text_embedding in
         ret (fst kv, score))
      candidate_embeddings in
  let top_keywords := sorted_reverse scores in
  ret (List.map fst (slice_to num_keywords top_keywords)).

(** *** [align_keywords] (lines 91-147) *)

Section Align.

Variable keywords : list str.
Variable threshold : Q.

(** [keywords[i]], for [i] in [range(n)]. *)
Definition keyword_at (i : nat) : str := default [] (keywords !! i).

Section WithEmbeddings.

(** The dict built at line 101 has every keyword as a key. *)
Variable embeddings : gmap str vec.

Definition embedding_at (i : nat) : vec :=
  default [] (embeddings !! keyword_at i).

(** Lines 108-114, for one [i]. *)
Definition fill_row (n i : nat) (m : list (list Q)) : M (list (list Q)) :=
  for_each (seq (i + 1) (n - (i + 1)))
    (fun j m =>
       let* sim := call_cosine (embedding_at i) (embedding_at j) in
       let m := matrix_set m i j sim in
       ret (matrix_set m j i sim))
    m.

(** Lines 104-114. *)
Definition similarity_matrix : M (list (list Q)) :=
  let n := length keywords in
  for_each (seq 0 n) (fun i m => fill_row n i m) (zeros n).

End WithEmbeddings.

Section WithMatrix.

Variable similarity_matrix : list (list Q).

(** Lines 127-130, for one seed [i]. *)
Definition grow_cluster (n i : nat) (start : gset str * gset str)
  : gset str * gset str :=
  foldl
    (fun (acc : gset str * gset str) j =>
       let '(cluster, used) := acc in
       if negb (i =? j)
          && Qle_bool threshold (matrix_get similarity_matrix i j)
       then ({[ keyword_at j ]} ∪ cluster, {[ keyword_at j ]} ∪ used)
       else (cluster, used))
    start (seq 0 n).

(** Lines 120-132, one iteration. *)
Definition cluster_step (n : nat) (acc : list (gset str) * gset str)
  (i : nat) : list (gset str) * gset str :=
  let '(clusters, used) := acc in
  if bool_decide (keyword_at i ∈ used) then (clusters, used)
  else
    let cluster : gset str := {[ keyword_at i ]} in
    let used := {[ keyword_at i ]} ∪ used in
    let '(cluster, used) := grow_cluster n i (cluster, used) in
    (clusters ++ [cluster], used).

(** Lines 116-132. *)
Definition cluster_keywords : list (gset str) :=
  let n := length keywords in
  fst (foldl (cluster_step n) ([], ∅) (seq 0 n)).

End WithMatrix.

(** Lines 138-139. *)
Definition representative (cluster : gset str) : option str :=
  let counts :=
    Counter (List.filter (fun k => bool_decide (k ∈ cluster)) keywords) in
  fst <$> max_by_count counts.

(** Lines 136-145, one iteration. *)
Definition align_cluster (cluster : gset str) (aligned_keywords : list str)
  : M (list str) :=
  match representative cluster with
  | None => raise ValueError
  | Some rep =>
      let* _ :=
        for_each (elements cluster)
          (fun k (_ : unit) => set_alignment k rep) tt in
      ret (aligned_keywords ++ [rep])
  end.

Definition align_keywords : M (list str) :=
  match keywords with
  | [] => ret []
  | _ :: _ =>
      fun st =>
        (* Check cache first *)
        if forallb
             (fun k => bool_decide (is_Some (keyword_alignment_cache st !! k)))
             keywords
        then comprehension get_alignment keywords st
        else
          (let* embeddings :=
             for_each keywords
               (fun k (d : gmap str vec) =>
                  let* e := get_embedding k in ret (<[k := e]> d))
               ∅ in
           let* similarity_matrix := similarity_matrix embeddings in
           let clusters := cluster_keywords similarity_matrix in
           for_each clusters align_cluster []) st
  end.

End Align.

End KeywordExtractor.

(** ** Concrete collaborators, for evaluating the methods

    Embeddings of norm one with rational coordinates, for which the cosine
    similarity is the dot product. *)

Module Demo.

Definition inner (u v : vec) : Q :=
  foldr Qplus 0%Q (zip_with Qmult u v).

(** The cosine similarity of two vectors of norm one; as sklearn's, it
    raises on a vector without a coordinate and on two vectors of different
    dimensions. *)
Definition dot (u v : vec) : option Q :=
  if bool_decide (0 < length u /\ length u = length v)
  then Some (inner u v)
  else None.

Definition chat : str := py "chat".
Definition chats : str := py "chats".
Definition chien : str := py "chien".
Definition loup : str := py "loup".
Definition loups : str := py "loups".
Definition louve : str := py "louve".

(** [une matrice n × m]: the sign [×] is U+00D7. *)
Definition matrice_n_m : str :=
  py "une matrice n " ++ [215%N] ++ py " m".

Definition module1 : str := py "module1".

Definition document : str := py "Le chat et les chats du module1.".

(** A document in which no method finds a candidate. *)
Definition numbers : str := py "12 34 56".

(** An embedding service that knows a few words and two documents. *)
Definition embeddings : str -> option vec :=
  fun text =>
    if decide (text = chat) then Some [1; 0]%Q
    else if decide (text = chats) then Some [24 # 25; 7 # 25]%Q
    else if decide (text = chien) then Some [3 # 5; 4 # 5]%Q
    else if decide (text = loup) then Some [1; 0]%Q
    else if decide (text = loups) then Some [4 # 5; 3 # 5]%Q
    else if decide (text = louve) then Some [7 # 25; 24 # 25]%Q
    else if decide (text = py "le chat") then Some [0; 1]%Q
    else if decide (text = document) then Some [4 # 5; 3 # 5]%Q
    else if decide (text = numbers) then Some [0; 1]%Q
    else None.

(** An embedding service that is down. *)
Definition unreachable : str -> option vec := fun _ => None.

(** ASCII lower-casing. *)
Definition lower : str -> str :=
  List.map (fun c => if Filter.in_range 65 90 c then (c + 32)%N else c).

Definition noun (s : string) : Token :=
  {| token_text := py s; pos_ := py "NOUN" |}.
Definition det (s : string) : Token :=
  {| token_text := py s; pos_ := py "DET" |}.

(** [On note A une matrice n × m.] *)
Definition cours : str :=
  py "On note A " ++ matrice_n_m ++ py ".".

(** An annotator that finds two nouns and one noun chunk in [document],
    one noun chunk in [cours], and nothing anywhere else. *)
Definition document_doc : Doc :=
  {| ents := [];
     noun_chunks := [py "Le chat"];
     tokens := [det "Le"; noun "chat"; det "les"; noun "chats";
                noun "module1"] |}.

Definition cours_doc : Doc :=
  {| ents := []; noun_chunks := [matrice_n_m]; tokens := [] |}.

Definition empty_doc : Doc :=
  {| ents := []; noun_chunks := []; tokens := [] |}.

Definition nlp : str -> option Doc :=
  fun text =>
    if decide (text = document) then Some document_doc
    else if decide (text = cours) then Some cours_doc
    else Some empty_doc.

(** An annotator that refuses every text. *)
Definition nlp_fails : str -> option Doc := fun _ => None.

(** An embedding service that answers [chat] with a vector of three
    coordinates and [chien] with one of two. *)
Definition uneven : str -> option vec :=
  fun text =>
    if decide (text = chat) then Some [1; 0; 0]%Q
    else if decide (text = chien) then Some [3 # 5; 4 # 5]%Q
    else None.

(** A term weighting that fails, and one that finds four terms. *)
Definition tfidf_fails : str -> option (list str) := fun _ => None.
Definition tfidf_words : str -> option (list str) :=
  fun _ => Some [chat; chats; chien; module1].

(** The extractor with these collaborators. *)
Definition extract (tfidf : str -> option (list str))
  : str -> Z -> M (list str) :=
  extract_keywords embeddings dot nlp lower tfidf.

Definition align : list str -> Q -> M (list str) :=
  align_keywords embeddings dot.

(** Two inputs of [align_keywords], with their thresholds: [chats] is close
    to [chat] and [chien] to neither; [loups] is close to [loup] and to
    [louve], which are not close to each other. *)
Definition felines : list str := [chat; chats; chien].
Definition wolves : list str := [loup; loups; louve].

(** The extractor after one call of [align_keywords] on a cold cache. *)
Definition after_felines : extractor := snd (align felines (85 # 100) init).
Definition after_wolves : extractor := snd (align wolves (3 # 4) init).

End Demo.

(** * The vocabulary of the properties *)

(** A relation between the state before and the state after that every
    step of a computation respects is respected by the computation, whether
    it returns or raises. *)
Definition preserves (R : extractor -> extractor -> Prop) {A} (m : M A)
  : Prop :=
  forall st, R st (snd (m st)).

(** Every entry of the cache before is an entry of the cache after. *)
Definition cache_grows (st st' : extractor) : Prop :=
  embedding_cache st ⊆ embedding_cache st'.

(** Every vector of the cache after was in the cache before or is the
    answer of the embedding service for its key. *)
Definition cache_from_service (ollama_embeddings : str -> option vec)
    (st st' : extractor) : Prop :=
  forall k e,
    embedding_cache st' !! k = Some e ->
    embedding_cache st !! k = Some e \/ ollama_embeddings k = Some e.

(** The alignment cache, and the history of its assignments, are as before. *)
Definition alignment_untouched (st st' : extractor) : Prop :=
  keyword_alignment_cache st' = keyword_alignment_cache st /\
  alignment_writes st' = alignment_writes st.

(** [a] may stand before [b] in a list ordered by non-increasing score. *)
Definition score_ge (a b : str * Q) : Prop := (snd b <= snd a)%Q.

(** The value of the cosine similarity of two vectors on which it is
    defined. *)
Definition cosine_value (cosine_similarity : vec -> vec -> option Q)
    (a b : vec) : Q :=
  default 0%Q (cosine_similarity a b).

(** The similarity of a candidate to the document, from the embeddings
    the cache holds. *)
Definition document_score (cosine_similarity : vec -> vec -> option Q)
    (st : extractor) (text k : str) : Q :=
  cosine_value cosine_similarity (default [] (embedding_cache st !! k))
    (default [] (embedding_cache st !! text)).

(** One call of a method of the extractor, from the state before to the
    state after, whether the call returns or raises. *)
Inductive method_call
    (ollama_embeddings : str -> option vec)
    (cosine_similarity : vec -> vec -> option Q)
    (nlp : str -> option Doc) (lower : str -> str)
    (tfidf_feature_names : str -> option (list str))
  : extractor -> extractor -> Prop :=
| call_get_embedding text st :
    method_call ollama_embeddings cosine_similarity nlp lower
      tfidf_feature_names st
      (snd (get_embedding ollama_embeddings text st))
| call_extract_keywords text num_keywords st :
    method_call ollama_embeddings cosine_similarity nlp lower
      tfidf_feature_names st
      (snd (extract_keywords ollama_embeddings cosine_similarity nlp lower
              tfidf_feature_names text num_keywords st))
| call_align_keywords keywords threshold st :
    method_call ollama_embeddings cosine_similarity nlp lower
      tfidf_feature_names st
      (snd (align_keywords ollama_embeddings cosine_similarity keywords
              threshold st)).

(** *** Clustering, as the loops of [align_keywords] compute it *)

Section ClusterVocabulary.

Variable keywords : list str.
Variable threshold : Q.
Variable similarity_matrix : list (list Q).

(** The test of line 128. *)
Definition close_enough (i j : nat) : bool :=
  negb (i =? j) && Qle_bool threshold (matrix_get similarity_matrix i j).

(** The keywords that the inner loop adds to the cluster seeded at [i]. *)
Definition similar_to (i : nat) : gset str :=
  list_to_set
    (List.map (keyword_at keywords)
       (List.filter (close_enough i) (seq 0 (length keywords)))).

Definition cluster_of_seed (i : nat) : gset str :=
  {[ keyword_at keywords i ]} ∪ similar_to i.

(** The indices at which the outer loop starts a cluster. *)
Fixpoint seeds_from (used : gset str) (indices : list nat) : list nat :=
  match indices with
  | [] => []
  | i :: indices' =>
      if bool_decide (keyword_at keywords i ∈ used)
      then seeds_from used indices'
      else i :: seeds_from (cluster_of_seed i ∪ used) indices'
  end.

Definition seeds : list nat := seeds_from ∅ (seq 0 (length keywords)).

End ClusterVocabulary.

(** The matrix that lines 104-114 build when every call of
    [cosine_similarity] returns: [similarity_matrix] returns it, or
    raises. *)
Definition fill_row_values (cosine_similarity : vec -> vec -> option Q)
    (keywords : list str) (embeddings : gmap str vec) (n i : nat)
    (m : list (list Q)) : list (list Q) :=
  foldl
    (fun m j =>
       let sim :=
         cosine_value cosine_similarity (embedding_at keywords embeddings i)
           (embedding_at keywords embeddings j) in
       let m := matrix_set m i j sim in
       matrix_set m j i sim)
    m (seq (i + 1) (n - (i + 1))).

Definition similarity_values (cosine_similarity : vec -> vec -> option Q)
    (keywords : list str) (embeddings : gmap str vec) : list (list Q) :=
  let n := length keywords in
  foldl (fun m i => fill_row_values cosine_similarity keywords embeddings n i m)
    (zeros n) (seq 0 n).

(** Every call of [cosine_similarity] of lines 109-112 returns. *)
Definition similarities_defined (cosine_similarity : vec -> vec -> option Q)
    (keywords : list str) (embeddings : gmap str vec) : bool :=
  let n := length keywords in
  forallb
    (fun i =>
       forallb
         (fun j =>
            bool_decide
              (is_Some
                 (cosine_similarity (embedding_at keywords embeddings i)
                    (embedding_at keywords embeddings j))))
         (seq (i + 1) (n - (i + 1))))
    (seq 0 n).

(** The clusters of a call that returns, from the embeddings the cache
    holds. *)
Definition clusters_formed (cosine_similarity : vec -> vec -> option Q)
    (keywords : list str) (threshold : Q) (st : extractor) : list (gset str) :=
  cluster_keywords keywords threshold
    (similarity_values cosine_similarity keywords (embedding_cache st)).

(** Line 97: every keyword has a cached alignment. *)
Definition all_aligned (st : extractor) (keywords : list str) : bool :=
  forallb (fun k => bool_decide (is_Some (keyword_alignment_cache st !! k)))
    keywords.

(** The assignments to the alignment cache that lines 136-143 make for a
    list of clusters, oldest first. *)
Definition writes_of (keywords : list str) (clusters : list (gset str))
  : list (str * str) :=
  flat_map
    (fun cluster =>
       match representative keywords cluster with
       | Some rep => List.map (fun k => (k, rep)) (elements cluster)
       | None => []
       end)
    clusters.

Definition apply_writes (writes : list (str * str)) (cache : gmap str str)
  : gmap str str :=
  foldl (fun m kv => <[fst kv := snd kv]> m) cache writes.



(** An [n] by [n] matrix. *)
Definition square (n : nat) (m : list (list Q)) : Prop :=
  length m = n /\ Forall (fun row => length row = n) m.

(** The exceptions a computation can raise all satisfy [P]. *)
Definition raises_only (P : exn -> Prop) {A} (m : M A) : Prop :=
  forall st e st', m st = (Raise e, st') -> P e.

(** *** Further vocabulary *)

(** The number of occurrences of [k] in [l]. *)
Definition occurrences (k : str) (l : list str) : nat :=
  length (List.filter (fun x => bool_decide (x = k)) l).

(** No entry of the alignment cache is removed (its value may change). *)
Definition alignment_grows (st st' : extractor) : Prop :=
  forall k, is_Some (keyword_alignment_cache st !! k) ->
            is_Some (keyword_alignment_cache st' !! k).

(** A computation is frugal with the embedding service when, from any
    state and whether it returns or raises, the prompts it sends are texts
    of [S], none of them cached before, none sent twice; the embedding
    cache keeps its entries and gains keys among the prompts only; and when
    the computation returns, every prompt sent is cached. *)
Definition frugal (S : str -> Prop) {A} (m : M A) : Prop :=
  forall st,
  exists new,
    provider_calls (snd (m st)) = provider_calls st ++ new /\
    NoDup new /\
    (forall k, k ∈ new -> S k /\ embedding_cache st !! k = None) /\
    cache_grows st (snd (m st)) /\
    (forall k, is_Some (embedding_cache (snd (m st)) !! k) ->
               is_Some (embedding_cache st !! k) \/ k ∈ new) /\
    (forall a, fst (m st) = Ok a ->
       forall k, k ∈ new -> is_Some (embedding_cache (snd (m st)) !! k)).

(** The similarity that lines 107-114 store at [i][j]: the cosine of the
    two embeddings, taken with the smaller index first; the diagonal keeps
    the zero of [np.zeros]. *)
Definition pair_similarity (cosine_similarity : vec -> vec -> option Q)
    (keywords : list str) (embeddings : gmap str vec) (i j : nat) : Q :=
  if decide (i < j < length keywords)
  then cosine_value cosine_similarity (embedding_at keywords embeddings i)
         (embedding_at keywords embeddings j)
  else if decide (j < i < length keywords)
  then cosine_value cosine_similarity (embedding_at keywords embeddings j)
         (embedding_at keywords embeddings i)
  else 0%Q.

(** * The question generator

    [src/QuestionGenerator/qcm_generator.py] (class [QCMGenerator]) is the
    caller of [extract_keywords]; it uses the helpers of
    [src/QuestionGenerator/utils/utilities.py] and the dataclass of
    [src/QuestionGenerator/utils/qtype.py].

    Conventions.
    - The files, [str.format], [ollama.chat], [re.finditer], [os.walk] and
      [pathlib] are variables of the section.  A call that can fail returns
      an [option]; [None] stands for any exception it raises.  The files do
      not change during a call.
    - Logging is not modelled: the logger formats strings and swallows the
      errors of its handlers.
    - The prompts sent to [ollama.chat] and the questions handed to
      [insert_question] are ghost history of the generator, oldest
      first. *)

(** ** Built-ins of [str] *)

Module PyStr.

(** [s.split(sep)] for a separator [sep] of one character. *)
Fixpoint split (sep : N) (s : str) : list str :=
  match s with
  | [] => [[]]
  | c :: s' =>
      if (c =? sep)%N then [] :: split sep s'
      else match split sep s' with
           | line :: lines => (c :: line) :: lines
           | [] => [[c]]
           end
  end.

(** [sep.join(l)] *)
Fixpoint join (sep : str) (l : list str) : str :=
  match l with
  | [] => []
  | x :: l' =>
      match l' with
      | [] => x
      | _ :: _ => x ++ sep ++ join sep l'
      end
  end.

(** [s.lstrip()], [s.rstrip()] and [s.strip()]: the characters removed are
    those of [str.isspace]. *)
Fixpoint lstrip (s : str) : str :=
  match s with
  | [] => []
  | c :: s' => if Filter.re_space c then lstrip s' else s
  end.

Definition rstrip (s : str) : str := reverse (lstrip (reverse s)).

Definition strip (s : str) : str := lstrip (rstrip s).

(** [s.startswith(prefix)] *)
Fixpoint startswith (prefix s : str) : bool :=
  match prefix, s with
  | [], _ => true
  | _ :: _, [] => false
  | p :: prefix', c :: s' => (p =? c)%N && startswith prefix' s'
  end.

(** [s.endswith(suffix)] *)
Definition endswith (suffix s : str) : bool :=
  startswith (reverse suffix) (reverse s).

End PyStr.

(** ** The dataclass [Question] ([utils/qtype.py]) *)

Module Qtype.

Record Question : Type := {
  subject : str;
  keywords : list str;
  question_id : str;
  question_text : str;
  question_type : str;
  choices : gmap str str;
  answers : list str;
  source_file : str;
  created_at : str
}.

End Qtype.

(** ** The generator instance and its monad *)

Module Generator.

Inductive error : Type :=
| ExtractorError (e : exn)   (* raised by a method of the keyword extractor *)
| FileError                  (* [open] or [read] failed *)
| FormatError                (* [str.format] failed *)
| ChatError                  (* [ollama.chat] failed, or its answer has no
                                message content *)
| AttributeError.            (* the object has no attribute of that name *)

Inductive outcome (A : Type) : Type :=
| Returned (a : A)
| Raised (e : error).
Arguments Returned {A} a.
Arguments Raised {A} e.

(** [keyword_extractor] is the attribute set by [__init__].  The two other
    fields are ghost history: the (system, user) prompts sent to
    [ollama.chat], and the questions passed to
    [db_manager.insert_question]. *)
Record generator : Type := {
  keyword_extractor : extractor;
  chat_calls : list (str * str);
  inserted : list Qtype.Question
}.

(** The state [__init__] leaves. *)
Definition fresh : generator :=
  {| keyword_extractor := init; chat_calls := []; inserted := [] |}.

Definition G (A : Type) : Type := generator -> outcome A * generator.

Definition pure {A} (a : A) : G A := fun g => (Returned a, g).

Definition throw {A} (e : error) : G A := fun g => (Raised e, g).

Definition and_then {A B} (m : G A) (f : A -> G B) : G B :=
  fun g =>
    match m g with
    | (Returned a, g') => f a g'
    | (Raised e, g') => (Raised e, g')
    end.

Declare Scope gen_scope.
Delimit Scope gen_scope with gen.
Notation "'let*' x ':=' c1 'in' c2" := (and_then c1 (fun x => c2))
  (at level 10, x name, c1 at level 100, c2 at level 200) : gen_scope.
#[local] Open Scope gen_scope.

(** [try: body except Exception: handler] *)
Definition try_except {A} (body : G A) (handler : error -> G A) : G A :=
  fun g =>
    match body g with
    | (Returned a, g') => (Returned a, g')
    | (Raised e, g') => handler e g'
    end.

(** The result of a collaborator: [None] raises [e]. *)
Definition or_raise {A} (e : error) (o : option A) : G A :=
  match o with
  | Some a => pure a
  | None => throw e
  end.

(** [self.keyword_extractor.method(...)] *)
Definition on_extractor {A} (m : M A) : G A :=
  fun g =>
    let g' st := {| keyword_extractor := st; chat_calls := chat_calls g;
                    inserted := inserted g |} in
    match m (keyword_extractor g) with
    | (Ok a, st) => (Returned a, g' st)
    | (Raise e, st) => (Raised (ExtractorError e), g' st)
    end.

(** [for x in xs: acc = body x acc] *)
Fixpoint for_loop {A B} (xs : list A) (body : A -> B -> G B) (acc : B) : G B :=
  match xs with
  | [] => pure acc
  | x :: xs' => let* acc' := body x acc in for_loop xs' body acc'
  end.

(** The attributes of an instance of [QCMGenerator], those of [object]
    apart: the ones that [__init__] sets and the methods of the class,
    which has no base class and no [__getattr__]. *)
Definition attributes : list string :=
  ["model"; "db_manager"; "keyword_extractor"; "response_pattern"; "logger";
   "__init__"; "clean_json_string"; "parse_choices"; "analyze_md";
   "parse_response"; "process_folder"]%string.

(** [self.name]: the lookup of an attribute. *)
Definition getattr (name : string) : outcome unit :=
  if bool_decide (name ∈ attributes) then Returned tt
  else Raised AttributeError.

(** The values that [process_folder] logs in its summary. *)
Record summary : Type := {
  total_questions : nat;
  processed_files : nat;
  failed_files : list str
}.

Section QCMGenerator.

(** The collaborators of the extractor. *)
Variable ollama_embeddings : str -> option vec.
Variable cosine_similarity : vec -> vec -> option Q.
Variable nlp : str -> option Doc.
Variable lower : str -> str.
Variable tfidf_feature_names : str -> option (list str).

(** [open(path, 'r', encoding = encoding).read()]; the encoding [None] is
    that of the locale. *)
Variable read_text : option str -> str -> option str.
(** [template.format(content = c, suggested_keywords = s)] *)
Variable str_format : str -> str -> str -> option str.
(** [ollama.chat(model, [system, user])['message']['content']]: the answer
    may depend on the requests made before. *)
Variable ollama_chat : list (str * str) -> str -> str -> option str.
(** [os.walk(path)]: the directories under [path] with the names of their
    files; and [os.path.join]. *)
Variable os_walk : str -> list (str * list str).
Variable os_path_join : str -> str -> str.
(** [Path(p).name] *)
Variable path_name : str -> str.

(** *** [utils/utilities.py] *)

(** [scan_folder] (lines 5-14) *)
Definition scan_folder (path : str) : list str :=
  foldl
    (fun md_files '(root, files) =>
       md_files
       ++ (os_path_join root
             <$> List.filter (PyStr.endswith (py ".md")) files))
    [] (os_walk path).

(** [read_markdown] (lines 17-24): any exception gives [None]. *)
Definition read_markdown (file_path : str) : option str :=
  match read_text (Some (py "utf-8")) file_path with
  | Some content => Some content
  | None => None
  end.

(** [format_system_prompt] and [format_user_prompt] (lines 26-36), with
    their default arguments: the exception of the file is not caught. *)
Definition format_system_prompt : G str :=
  or_raise FileError (read_text None (py "./prompt/system_prompt")).

Definition format_user_prompt : G str :=
  or_raise FileError (read_text None (py "./prompt/user_prompt")).

(** *** [analyze_md] (lines 85-123) *)

(** [ollama.chat] and the content of its answer (lines 106-118). *)
Definition send_chat (system prompt : str) : G str :=
  fun g =>
    let g' := {| keyword_extractor := keyword_extractor g;
                 chat_calls := chat_calls g ++ [(system, prompt)];
                 inserted := inserted g |} in
    match ollama_chat (chat_calls g) system prompt with
    | Some content => (Returned content, g')
    | None => (Raised ChatError, g')
    end.

Section AnalyzeMd.

(** [self.parse_response]: what it returns, or what it raises. *)
Variable parse_response : str -> str -> outcome (list Qtype.Question).

Definition analyze_md (file_path : str) : G (option (list Qtype.Question)) :=
  match read_markdown file_path with
  | None => pure None
  | Some content =>
      (* [not content or len(content) < 200] *)
      if bool_decide (content = []) || (length content <? 200)
      then pure None
      else
        let* extracted_keywords :=
          on_extractor
            (extract_keywords ollama_embeddings cosine_similarity nlp lower
               tfidf_feature_names content 5) in
        let* template := format_user_prompt in
        let* prompt :=
          or_raise FormatError
            (str_format template content
               (PyStr.join (py ", ") extracted_keywords)) in
        try_except
          (let* system := format_system_prompt in
           let* response := send_chat system prompt in
           let* questions :=
             (fun g => (parse_response response file_path, g)) in
           pure (Some questions))
          (fun _ => pure None)
  end.

(** *** [process_folder] (lines 216-254) *)

(** [self.db_manager.insert_question(question)] in its [try]: an exception
    of the database is caught and the loop goes on. *)
Definition insert_question (question : Qtype.Question) : G unit :=
  fun g =>
    (Returned tt,
     {| keyword_extractor := keyword_extractor g;
        chat_calls := chat_calls g;
        inserted := inserted g ++ [question] |}).

(** The body of the loop over the files (lines 227-246). *)
Definition process_file (file_path : str) (s : summary) : G summary :=
  let file_name := path_name file_path in
  let* questions := analyze_md file_path in
  match questions with
  | Some (q :: qs) =>
      let* _ := for_loop (q :: qs) (fun question _ => insert_question question)
                  tt in
      pure {| total_questions := total_questions s + length (q :: qs);
             processed_files := processed_files s + 1;
             failed_files := failed_files s |}
  | Some [] | None =>
      pure {| total_questions := total_questions s;
             processed_files := processed_files s;
             failed_files := failed_files s ++ [file_name] |}
  end.

(** [process_folder] returns nothing; its model returns the summary that it
    logs. *)
Definition process_folder (folder_path : str) : G summary :=
  let md_files := scan_folder folder_path in
  for_loop md_files process_file
    {| total_questions := 0; processed_files := 0; failed_files := [] |}.

End AnalyzeMd.

(** *** [parse_response] (lines 125-214) *)

(** [line for line in response.split('\n')
     if line.strip() and not line.strip().startswith('|-')] *)
Definition kept_line (line : str) : bool :=
  negb (bool_decide (PyStr.strip line = []))
  && negb (PyStr.startswith (py "|-") (PyStr.strip line)).

(** Lines 132-133. *)
Definition clean_response (response : str) : str :=
  PyStr.join [10%N] (List.filter kept_line (PyStr.split 10 response)).

(** A match of [response_pattern]: [match.group(i)]. *)
Definition Match : Type := nat -> str.

(** [self.response_pattern.finditer] *)
Variable finditer : str -> list Match.

(** Lines 151-200, from [question_id = ...] to [questions.append]: they give
    a question, or [None] where they [continue], or raise. *)
Variable parse_rest :
  Match -> str -> str -> outcome (option Qtype.Question).

(** The body of the [try] of the loop (lines 145-200).  Line 150 calls
    [self.parse_keywords]. *)
Definition parse_match (match_ : Match) (source_file : str)
  : outcome (option Qtype.Question) :=
  let subject := PyStr.strip (match_ 1) in
  match getattr "parse_keywords" with
  | Raised e => Raised e
  | Returned _ => parse_rest match_ subject source_file
  end.

Definition parse_response (response source_file : str)
  : list Qtype.Question :=
  let cleaned_response := clean_response response in
  let matches := finditer cleaned_response in
  foldl
    (fun questions match_ =>
       match parse_match match_ source_file with
       | Returned (Some question) => questions ++ [question]
       | Returned None => questions
       | Raised _ => questions     (* [except Exception: ... continue] *)
       end)
    [] matches.

(** [process_folder] with the [parse_response] of the class. *)
Definition QCMGenerator_process_folder : str -> G summary :=
  process_folder (fun response source_file =>
                    Returned (parse_response response source_file)).

End QCMGenerator.

End Generator.

(** ** A folder with two markdown files

    [short.md] holds the document of the runs above, [long.md] holds it
    eight times over, and the prompts are missing.  The annotator finds
    nothing in the long document and the embedding service does not know
    it. *)

Module DemoFolder.

Definition short_md : str := py "short.md".
Definition long_md : str := py "long.md".

Definition long_document : str := concat (replicate 8 Demo.document).

Definition read_text : option str -> str -> option str :=
  fun _ path =>
    if decide (path = short_md) then Some Demo.document
    else if decide (path = long_md) then Some long_document
    else None.

Definition str_format : str -> str -> str -> option str :=
  fun template content suggested_keywords =>
    Some (template ++ content ++ suggested_keywords).

Definition ollama_chat : list (str * str) -> str -> str -> option str :=
  fun _ _ _ => None.

Definition os_walk : str -> list (str * list str) :=
  fun _ => [([], [short_md; py "notes.txt"; long_md])].

Definition os_path_join (root file : str) : str := root ++ file.

Definition path_name (path : str) : str := path.

Definition no_question
  : str -> str -> Generator.outcome (list Qtype.Question) :=
  fun _ _ => Generator.Returned [].

Definition analyze
  : str -> Generator.G (option (list Qtype.Question)) :=
  Generator.analyze_md Demo.embeddings Demo.dot Demo.nlp Demo.lower
    Demo.tfidf_words read_text str_format ollama_chat no_question.

Definition process : str -> Generator.G Generator.summary :=
  Generator.process_folder Demo.embeddings Demo.dot Demo.nlp Demo.lower
    Demo.tfidf_words read_text str_format ollama_chat os_walk os_path_join
    path_name no_question.

(** The generator after [analyze_md] has failed on [long.md]. *)
Definition after_long : Generator.generator :=
  snd (analyze long_md Generator.fresh).

End DemoFolder.

(** * Tactics *)

(** Membership in the ranges of code points as arithmetic. *)
Ltac to_arith :=
  unfold Filter.re_class, Filter.allowed_by_spec, Filter.is_letter,
    Filter.is_ascii_letter, Filter.is_accented_latin_letter, Filter.is_digit,
    Filter.is_ascii_punctuation, Filter.re_space, Filter.hyphen,
    Filter.in_range in *;
  rewrite ?orb_true_iff, ?orb_false_iff, ?andb_true_iff, ?andb_false_iff,
    ?negb_true_iff, ?negb_false_iff, ?N.leb_le, ?N.eqb_eq, ?N.eqb_neq in *.

(** A decidable proposition without variables is settled by evaluating its
    decision procedure. *)
Ltac decide_by_computation :=
  match goal with
  | |- ?P => apply (bool_decide_eq_true_1 P); vm_compute; reflexivity
  end.

(** * Reasoning about the monad *)

Lemma bind_Ok {A B} (m : M A) (f : A -> M B) st b st2 :
  bind m f st = (Ok b, st2) <->
  exists a st1, m st = (Ok a, st1) /\ f a st1 = (Ok b, st2).
Proof.
  unfold bind. destruct (m st) as [[a|e] st1]; split.
  - intros H. by exists a, st1.
  - intros (a' & st1' & [= -> ->] & H). done.
  - intros [=].
  - intros (a' & st1' & [=] & _).
Qed.

Lemma bind_run {A B} (m : M A) (f : A -> M B) st a st1 :
  m st = (Ok a, st1) -> bind m f st = f a st1.
Proof. unfold bind. by intros ->. Qed.

Lemma bind_Raise {A B} (m : M A) (f : A -> M B) st e st2 :
  bind m f st = (Raise e, st2) <->
  m st = (Raise e, st2) \/
  exists a st1, m st = (Ok a, st1) /\ f a st1 = (Raise e, st2).
Proof.
  unfold bind. destruct (m st) as [[a|e'] st1]; split.
  - intros H. right. by exists a, st1.
  - intros [[=] | (a' & st1' & [= -> ->] & H)]. done.
  - intros [= -> ->]. by left.
  - intros [[= -> ->] | (a' & st1' & [=] & _)]. done.
Qed.

Lemma bind_unfold {A B} (m : M A) (f : A -> M B) st :
  bind m f st
  = match m st with
    | (Ok a, st') => f a st'
    | (Raise e, st') => (Raise e, st')
    end.
Proof. reflexivity. Qed.

Section Preserves.

Variable R : extractor -> extractor -> Prop.
Context `{!PreOrder R}.

#[local] Abbreviation preserves := (preserves R).

Lemma preserves_ret {A} (a : A) : preserves (ret a).
Proof. intros st. simpl. reflexivity. Qed.

Lemma preserves_raise {A} e : preserves (@raise A e).
Proof. intros st. simpl. reflexivity. Qed.

Lemma preserves_bind {A B} (m : M A) (f : A -> M B) :
  preserves m -> (forall a, preserves (f a)) -> preserves (bind m f).
Proof.
  intros Hm Hf st. unfold bind.
  specialize (Hm st). destruct (m st) as [[a|e] st1]; simpl in *.
  - etrans; [exact Hm | apply Hf].
  - exact Hm.
Qed.

Lemma preserves_for_each {A B} (xs : list A) (body : A -> B -> M B) acc :
  (forall x b, preserves (body x b)) -> preserves (for_each xs body acc).
Proof.
  intros Hbody. revert acc.
  induction xs as [|x xs IH]; intros acc; simpl.
  - apply preserves_ret.
  - apply preserves_bind; [apply Hbody | intros b; apply IH].
Qed.

Lemma preserves_comprehension {A B} (f : A -> M B) (xs : list A) :
  (forall x, preserves (f x)) -> preserves (comprehension f xs).
Proof.
  intros Hf. induction xs as [|x xs IH]; simpl.
  - apply preserves_ret.
  - apply preserves_bind; [apply Hf | intros y].
    apply preserves_bind; [apply IH | intros ys; apply preserves_ret].
Qed.

End Preserves.

(** The loop rule for a [for] loop that runs to its end. *)
(** The calls that can raise [ValueError] leave the state as it is. *)
Lemma call_nlp_run nlp text st :
  call_nlp nlp text st
  = (match nlp text with
     | Some doc => Ok doc
     | None => Raise ValueError
     end, st).
Proof. unfold call_nlp. by destruct (nlp text). Qed.

Lemma call_cosine_run cosine_similarity a b st :
  call_cosine cosine_similarity a b st
  = (match cosine_similarity a b with
     | Some sim => Ok sim
     | None => Raise ValueError
     end, st).
Proof. unfold call_cosine. by destruct (cosine_similarity a b). Qed.

Lemma preserves_call_nlp (R : extractor -> extractor -> Prop) `{!PreOrder R}
    nlp text :
  preserves R (call_nlp nlp text).
Proof. intros st. rewrite call_nlp_run. reflexivity. Qed.

Lemma preserves_call_cosine (R : extractor -> extractor -> Prop)
    `{!PreOrder R} cosine_similarity a b :
  preserves R (call_cosine cosine_similarity a b).
Proof. intros st. rewrite call_cosine_run. reflexivity. Qed.

Lemma preserves_similarity_matrix (R : extractor -> extractor -> Prop)
    `{!PreOrder R} cosine_similarity keywords embeddings :
  preserves R (similarity_matrix cosine_similarity keywords embeddings).
Proof.
  unfold similarity_matrix. apply preserves_for_each; [tc_solve|].
  intros i m. unfold fill_row. apply preserves_for_each; [tc_solve|].
  intros j m'. apply preserves_bind; [tc_solve| |].
  - by apply preserves_call_cosine.
  - intros sim. by apply preserves_ret.
Qed.

Lemma for_each_Ok {A B} (P : list A -> B -> extractor -> Prop)
    (body : A -> B -> M B) (xs : list A) acc st r st' :
  P [] acc st ->
  (forall seen x b s b' s',
      P seen b s -> body x b s = (Ok b', s') -> P (seen ++ [x]) b' s') ->
  for_each xs body acc st = (Ok r, st') ->
  P xs r st'.
Proof.
  intros H0 Hstep.
  assert (forall seen, P seen acc st ->
            for_each xs body acc st = (Ok r, st') -> P (seen ++ xs) r st') as G.
  { clear H0. revert acc st.
    induction xs as [|x xs IH]; intros acc st seen Hseen Hrun; simpl in Hrun.
    - injection Hrun as <- <-. by rewrite app_nil_r.
    - apply bind_Ok in Hrun as (b & s & Hb & Hrun).
      replace (seen ++ x :: xs) with ((seen ++ [x]) ++ xs)
        by (by rewrite <- app_assoc).
      eapply IH; [|exact Hrun]. eapply Hstep; eauto. }
  intros Hrun. exact (G [] H0 Hrun).
Qed.

(** * The embedding cache *)

#[local] Instance cache_grows_preorder : PreOrder cache_grows.
Proof.
  split.
  - intros st. unfold cache_grows. reflexivity.
  - intros s1 s2 s3 H12 H23. unfold cache_grows in *. by etrans.
Qed.

#[local] Instance cache_from_service_preorder ollama_embeddings :
  PreOrder (cache_from_service ollama_embeddings).
Proof.
  split.
  - intros st k e H. by left.
  - intros s1 s2 s3 H12 H23 k e H.
    destruct (H23 k e H) as [H2|H2]; [by apply H12|by right].
Qed.

#[local] Instance alignment_untouched_preorder : PreOrder alignment_untouched.
Proof.
  split.
  - by intros st.
  - intros s1 s2 s3 [H1 H2] [H3 H4]. split; congruence.
Qed.

Section GetEmbedding.

Variable ollama_embeddings : str -> option vec.

Lemma get_embedding_cached text e st :
  embedding_cache st !! text = Some e ->
  get_embedding ollama_embeddings text st = (Ok e, st).
Proof. intros H. unfold get_embedding. by rewrite H. Qed.

Lemma get_embedding_miss text st :
  embedding_cache st !! text = None ->
  get_embedding ollama_embeddings text st =
    match ollama_embeddings text with
    | Some e =>
        (Ok e,
         {| embedding_cache := <[text := e]> (embedding_cache st);
            keyword_alignment_cache := keyword_alignment_cache st;
            provider_calls := provider_calls st ++ [text];
            alignment_writes := alignment_writes st |})
    | None =>
        (Raise ProviderError,
         {| embedding_cache := embedding_cache st;
            keyword_alignment_cache := keyword_alignment_cache st;
            provider_calls := provider_calls st ++ [text];
            alignment_writes := alignment_writes st |})
    end.
Proof.
  intros H. unfold get_embedding. rewrite H.
  unfold bind, call_provider. by destruct (ollama_embeddings text).
Qed.

Lemma get_embedding_grows text :
  preserves cache_grows (get_embedding ollama_embeddings text).
Proof.
  intros st. destruct (embedding_cache st !! text) as [e|] eqn:Hc.
  - rewrite (get_embedding_cached _ _ _ Hc). simpl. reflexivity.
  - rewrite (get_embedding_miss _ _ Hc).
    destruct (ollama_embeddings text); unfold cache_grows; simpl.
    + by apply insert_subseteq.
    + reflexivity.
Qed.

Lemma get_embedding_from_service text :
  preserves (cache_from_service ollama_embeddings)
    (get_embedding ollama_embeddings text).
Proof.
  intros st. destruct (embedding_cache st !! text) as [e|] eqn:Hc.
  - rewrite (get_embedding_cached _ _ _ Hc). simpl. reflexivity.
  - rewrite (get_embedding_miss _ _ Hc).
    destruct (ollama_embeddings text) as [e|] eqn:Ho; simpl;
      [|intros k v Hk; by left].
    intros k v. simpl. destruct (decide (k = text)) as [->|Hne].
    + rewrite lookup_insert_eq. intros [= <-]. by right.
    + rewrite lookup_insert_ne by done. by left.
Qed.

Lemma get_embedding_alignment text :
  preserves alignment_untouched (get_embedding ollama_embeddings text).
Proof.
  intros st. destruct (embedding_cache st !! text) as [e|] eqn:Hc.
  - by rewrite (get_embedding_cached _ _ _ Hc).
  - rewrite (get_embedding_miss _ _ Hc).
    by destruct (ollama_embeddings text).
Qed.

(** What a successful lookup leaves in the cache. *)
Lemma get_embedding_Ok text st e st' :
  get_embedding ollama_embeddings text st = (Ok e, st') ->
  embedding_cache st' !! text = Some e /\
  (embedding_cache st !! text = Some e \/ ollama_embeddings text = Some e).
Proof.
  destruct (embedding_cache st !! text) as [e0|] eqn:Hc.
  - rewrite (get_embedding_cached _ _ _ Hc). intros [= <- <-]. auto.
  - rewrite (get_embedding_miss _ _ Hc).
    destruct (ollama_embeddings text) as [e1|]; [|done].
    intros [= <- <-]. simpl. rewrite lookup_insert_eq. auto.
Qed.

(** The lookup succeeds when the text is cached or the service answers. *)
Lemma get_embedding_returns text st :
  is_Some (embedding_cache st !! text) \/ is_Some (ollama_embeddings text) ->
  exists e st', get_embedding ollama_embeddings text st = (Ok e, st').
Proof.
  intros H. destruct (embedding_cache st !! text) as [e0|] eqn:Hc.
  - rewrite (get_embedding_cached _ _ _ Hc). eauto.
  - rewrite (get_embedding_miss _ _ Hc).
    destruct H as [[? [=]]|[e He]]. rewrite He. eauto.
Qed.

(** A miss adds the one key asked for. *)
Lemma get_embedding_other text st k :
  k <> text ->
  embedding_cache (snd (get_embedding ollama_embeddings text st)) !! k
  = embedding_cache st !! k.
Proof.
  intros Hne. destruct (embedding_cache st !! text) as [e0|] eqn:Hc.
  - by rewrite (get_embedding_cached _ _ _ Hc).
  - rewrite (get_embedding_miss _ _ Hc).
    destruct (ollama_embeddings text); simpl; [|done].
    by rewrite lookup_insert_ne.
Qed.

End GetEmbedding.

Lemma set_alignment_grows k r : preserves cache_grows (set_alignment k r).
Proof. intros st. unfold cache_grows. simpl. reflexivity. Qed.

Lemma get_alignment_same k st : snd (get_alignment k st) = st.
Proof. unfold get_alignment. by destruct (keyword_alignment_cache st !! k). Qed.

Lemma comprehension_get_alignment_same ks st :
  snd (comprehension get_alignment ks st) = st.
Proof.
  revert st. induction ks as [|k ks IH]; intros st; simpl; [done|].
  unfold bind at 1. pose proof (get_alignment_same k st) as Hk.
  destruct (get_alignment k st) as [[r|e] s1]; simpl in Hk; subst s1; [|done].
  unfold bind. specialize (IH st).
  by destruct (comprehension get_alignment ks st) as [[rs|e] s2].
Qed.

Section Frames.

Variable ollama_embeddings : str -> option vec.
Variable cosine_similarity : vec -> vec -> option Q.
Variable nlp : str -> option Doc.
Variable lower : str -> str.
Variable tfidf_feature_names : str -> option (list str).

#[local] Abbreviation extract_keywords_ :=
  (extract_keywords ollama_embeddings cosine_similarity nlp lower
     tfidf_feature_names).
#[local] Abbreviation align_keywords_ :=
  (align_keywords ollama_embeddings cosine_similarity).

Lemma extract_keywords_preserves (R : extractor -> extractor -> Prop)
    `{!PreOrder R} :
  (forall k, preserves R (get_embedding ollama_embeddings k)) ->
  forall text num_keywords, preserves R (extract_keywords_ text num_keywords).
Proof.
  intros Hget text num_keywords. unfold extract_keywords.
  apply preserves_bind; [tc_solve|by apply preserves_call_nlp|].
  intros doc. apply preserves_bind; [tc_solve| |].
  - apply preserves_comprehension; [tc_solve|]. intros k.
    apply preserves_bind; [tc_solve|apply Hget|].
    intros e. by apply preserves_ret.
  - intros ces. apply preserves_bind; [tc_solve|apply Hget|].
    intros te. apply preserves_bind; [tc_solve| |].
    + apply preserves_comprehension; [tc_solve|]. intros kv.
      apply preserves_bind; [tc_solve|by apply preserves_call_cosine|].
      intros score. by apply preserves_ret.
    + intros scores. by apply preserves_ret.
Qed.

Lemma extract_keywords_grows text num_keywords :
  preserves cache_grows (extract_keywords_ text num_keywords).
Proof.
  apply extract_keywords_preserves; [tc_solve|].
  apply get_embedding_grows.
Qed.

Lemma extract_keywords_alignment text num_keywords :
  preserves alignment_untouched (extract_keywords_ text num_keywords).
Proof.
  apply extract_keywords_preserves; [tc_solve|].
  apply get_embedding_alignment.
Qed.

Lemma align_cluster_preserves (R : extractor -> extractor -> Prop)
    `{!PreOrder R} keywords cluster aligned :
  (forall k r, preserves R (set_alignment k r)) ->
  preserves R (align_cluster keywords cluster aligned).
Proof.
  intros Hset. unfold align_cluster.
  destruct (representative keywords cluster) as [rep|].
  - apply preserves_bind; [tc_solve| |].
    + apply preserves_for_each; [tc_solve|]. intros k []. apply Hset.
    + intros _. by apply preserves_ret.
  - by apply preserves_raise.
Qed.

Lemma align_keywords_grows keywords threshold :
  preserves cache_grows (align_keywords_ keywords threshold).
Proof.
  unfold align_keywords. destruct keywords as [|k0 ks].
  - apply preserves_ret. tc_solve.
  - intros st. destruct (forallb _ _).
    + rewrite comprehension_get_alignment_same. reflexivity.
    + revert st. apply preserves_bind; [tc_solve| |].
      * apply preserves_for_each; [tc_solve|]. intros k d.
        apply preserves_bind; [tc_solve|apply get_embedding_grows|].
        intros e. apply preserves_ret. tc_solve.
      * intros d. apply preserves_bind; [tc_solve| |].
        { apply preserves_similarity_matrix. tc_solve. }
        intros matrix. apply preserves_for_each; [tc_solve|].
        intros c aligned. apply align_cluster_preserves; [tc_solve|].
        apply set_alignment_grows.
Qed.

(** Over any sequence of calls, the embedding cache only grows. *)
Lemma method_calls_grow st st' :
  rtc (method_call ollama_embeddings cosine_similarity nlp lower
         tfidf_feature_names) st st' ->
  cache_grows st st'.
Proof.
  induction 1 as [st|st st1 st' Hcall _ IH]; [reflexivity|].
  etrans; [|exact IH]. destruct Hcall.
  - apply get_embedding_grows.
  - apply extract_keywords_grows.
  - apply align_keywords_grows.
Qed.

End Frames.

(** * The candidate filter *)

Module FilterFacts.
Import Filter.

(** Every character of the class is a letter, white space or the hyphen,
    or else one of the two signs inside [À-ÿ]. *)
Lemma re_class_chars c :
  re_class c = true ->
  allowed_by_spec c = true \/ c = 215%N \/ c = 247%N.
Proof.
  intros H.
  destruct (decide (c = 215%N)) as [->|H1]; [auto|].
  destruct (decide (c = 247%N)) as [->|H2]; [auto|].
  left. to_arith. lia.
Qed.

Lemma keep_spec k :
  keep k = true <-> 2 < length k /\ forall c, c ∈ k -> re_class c = true.
Proof.
  unfold keep. rewrite andb_true_iff, Nat.ltb_lt.
  destruct k as [|c0 k].
  - simpl. split; intros [H _]; lia.
  - unfold re_match. rewrite forallb_forall.
    setoid_rewrite list_elem_of_In. done.
Qed.

Lemma digit_not_in_class c : is_digit c = true -> re_class c = false.
Proof.
  intros H. destruct (re_class c) eqn:Hc; [|done].
  exfalso. to_arith. lia.
Qed.

Lemma punctuation_not_in_class c :
  is_ascii_punctuation c = true -> c <> hyphen -> re_class c = false.
Proof.
  intros H Hne. destruct (re_class c) eqn:Hc; [|done].
  exfalso. to_arith. lia.
Qed.

(** A candidate with a digit, or with an ASCII punctuation mark other than
    the hyphen, does not pass. *)
Lemma keep_rejects k c :
  c ∈ k ->
  is_digit c = true \/ (is_ascii_punctuation c = true /\ c <> hyphen) ->
  keep k = false.
Proof.
  intros Hin Hc. destruct (keep k) eqn:Hk; [|done].
  apply keep_spec in Hk as [_ Hk]. specialize (Hk c Hin).
  destruct Hc as [Hd|[Hp Hne]].
  - by rewrite (digit_not_in_class c Hd) in Hk.
  - by rewrite (punctuation_not_in_class c Hp Hne) in Hk.
Qed.

End FilterFacts.

Lemma elem_of_add_all (new : list str) (candidates : gset str) (k : str) :
  k ∈ add_all new candidates <-> k ∈ new \/ k ∈ candidates.
Proof.
  unfold add_all. revert candidates.
  induction new as [|x new IH]; intros candidates; simpl.
  - rewrite elem_of_nil. tauto.
  - rewrite IH, elem_of_union, elem_of_singleton, elem_of_cons. tauto.
Qed.

Section CandidateFacts.

Variable lower : str -> str.
Variable tfidf_feature_names : str -> option (list str).

(** What the generator returns passed the filter. *)
Lemma candidate_generator_keep doc text k :
  k ∈ candidate_generator lower tfidf_feature_names doc text ->
  Filter.keep k = true.
Proof. unfold candidate_generator. rewrite elem_of_filter. tauto. Qed.

End CandidateFacts.

(** * Sorting by score and slicing *)

Lemma insert_by_score_perm x l : insert_by_score x l ≡ₚ x :: l.
Proof.
  induction l as [|y l IH]; simpl; [done|].
  destruct (Qle_bool (snd y) (snd x)); [done|].
  rewrite IH. apply perm_swap.
Qed.

Lemma sorted_reverse_perm items : sorted_reverse items ≡ₚ items.
Proof.
  unfold sorted_reverse. induction items as [|x items IH]; simpl; [done|].
  by rewrite insert_by_score_perm, IH.
Qed.

Lemma insert_by_score_sorted x l :
  StronglySorted score_ge l -> StronglySorted score_ge (insert_by_score x l).
Proof.
  induction 1 as [|y l Hl IH Hy]; simpl.
  - repeat constructor.
  - destruct (Qle_bool (snd y) (snd x)) eqn:Hle.
    + apply Qle_bool_iff in Hle.
      constructor; [by constructor|].
      constructor; [exact Hle|].
      eapply Forall_impl; [exact Hy|].
      intros z Hz. unfold score_ge in *. by apply Qle_trans with (snd y).
    + assert (snd x <= snd y)%Q as Hxy.
      { destruct (Qlt_le_dec (snd x) (snd y)) as [Hlt|Hge].
        - by apply Qlt_le_weak.
        - apply Qle_bool_iff in Hge. congruence. }
      constructor; [exact IH|].
      rewrite insert_by_score_perm. by constructor.
Qed.

Lemma sorted_reverse_sorted items :
  StronglySorted score_ge (sorted_reverse items).
Proof.
  unfold sorted_reverse. induction items as [|x items IH]; simpl.
  - constructor.
  - by apply insert_by_score_sorted.
Qed.

Lemma StronglySorted_take {A} (R : relation A) n (l : list A) :
  StronglySorted R l -> StronglySorted R (take n l).
Proof.
  intros H. rewrite <- (take_drop n l) in H.
  by apply StronglySorted_app_1_l in H.
Qed.

Lemma slice_to_take {A} (k : Z) (l : list A) :
  exists n, slice_to k l = take n l /\ ((0 <= k)%Z -> n = Z.to_nat k).
Proof.
  unfold slice_to. destruct (0 <=? k)%Z eqn:Hk.
  - eexists. split; [reflexivity|done].
  - eexists. split; [reflexivity|]. apply Z.leb_gt in Hk. lia.
Qed.

Lemma slice_to_length {A} (k : Z) (l : list A) :
  (0 <= k)%Z -> (Z.of_nat (length (slice_to k l)) <= k)%Z.
Proof.
  intros Hk. destruct (slice_to_take k l) as (n & -> & Hn).
  rewrite length_take, (Hn Hk). lia.
Qed.

Lemma StronglySorted_fmap_fst (score : str -> Q) (l : list (str * Q)) :
  (forall x, x ∈ l -> snd x = score (fst x)) ->
  StronglySorted score_ge l ->
  StronglySorted (fun a b => (score b <= score a)%Q) (List.map fst l).
Proof.
  intros Hscore Hl. induction Hl as [|x l Hl IH Hx]; simpl; constructor.
  - apply IH. intros y Hy. apply Hscore. by right.
  - rewrite Forall_forall in Hx. apply Forall_forall.
    intros k Hk.
    apply list_elem_of_fmap in Hk as (y & -> & Hy).
    rewrite <- (Hscore x), <- (Hscore y); [by apply Hx|by right|by left].
Qed.

(** * [extract_keywords] *)

Section ExtractFacts.

Variable ollama_embeddings : str -> option vec.
Variable cosine_similarity : vec -> vec -> option Q.
Variable nlp : str -> option Doc.
Variable lower : str -> str.
Variable tfidf_feature_names : str -> option (list str).

#[local] Abbreviation get_embedding_ := (get_embedding ollama_embeddings).
#[local] Abbreviation embed_pair :=
  (fun k : str => let* e := get_embedding_ k in ret (k, e)).

Lemma embed_pair_grows k : preserves cache_grows (embed_pair k).
Proof.
  apply preserves_bind; [tc_solve|apply get_embedding_grows|].
  intros e. apply preserves_ret. tc_solve.
Qed.

(** The dict of line 77: a key per candidate, in the order of iteration,
    with the vector the cache holds from then on. *)
Lemma candidate_embeddings_Ok ks st ces st1 :
  comprehension embed_pair ks st = (Ok ces, st1) ->
  List.map fst ces = ks /\
  cache_grows st st1 /\
  forall x, x ∈ ces -> embedding_cache st1 !! fst x = Some (snd x).
Proof.
  revert st ces. induction ks as [|k ks IH]; intros st ces H; simpl in H.
  - injection H as <- <-. split; [done|]. split; [reflexivity|].
    intros x Hx. by apply elem_of_nil in Hx.
  - apply bind_Ok in H as ([k' e] & s1 & Hk & H).
    apply bind_Ok in H as (ces' & s2 & Hces & [= <- <-]).
    apply bind_Ok in Hk as (e' & s1' & Hget & [= <- <- <-]).
    pose proof (get_embedding_grows ollama_embeddings k st) as Hg1.
    rewrite Hget in Hg1. simpl in Hg1.
    apply get_embedding_Ok in Hget as [Hget _].
    destruct (IH _ _ Hces) as (Hfst & Hg2 & Hall).
    split; [simpl; by f_equal|]. split; [by etrans|].
    intros x Hx. apply elem_of_cons in Hx as [->|Hx]; [|by apply Hall].
    simpl. eapply lookup_weaken; [exact Hget|exact Hg2].
Qed.

Lemma candidate_embeddings_returns ks st :
  (forall k, k ∈ ks ->
     is_Some (embedding_cache st !! k) \/ is_Some (ollama_embeddings k)) ->
  exists ces st1, comprehension embed_pair ks st = (Ok ces, st1).
Proof.
  revert st. induction ks as [|k ks IH]; intros st Hks; simpl.
  - by eexists _, _.
  - destruct (get_embedding_returns ollama_embeddings k st) as (e & s1 & Hget).
    { apply Hks. by left. }
    pose proof (get_embedding_grows ollama_embeddings k st) as Hg1.
    rewrite Hget in Hg1. simpl in Hg1.
    destruct (IH s1) as (ces & s2 & Hces).
    { intros k' Hk'. destruct (Hks k') as [[e' He']|Hp]; [by right| |by right].
      left. exists e'. eapply lookup_weaken; [exact He'|exact Hg1]. }
    exists ((k, e) :: ces), s2.
    erewrite bind_run; [|by erewrite bind_run].
    by erewrite bind_run.
Qed.

#[local] Abbreviation score_pair :=
  (fun (te : vec) (kv : str * vec) =>
     let* score := call_cosine cosine_similarity (snd kv) te in
     ret (fst kv, score)).

(** The scores of lines 83-85: one for every candidate, or [ValueError]
    at the first pair of vectors that [cosine_similarity] refuses. *)
Lemma scores_run (te : vec) (ces : list (str * vec)) st :
  comprehension (score_pair te) ces st
  = (if forallb
          (fun kv => bool_decide (is_Some (cosine_similarity (snd kv) te)))
          ces
     then Ok (List.map
                (fun kv => (fst kv, cosine_value cosine_similarity (snd kv) te))
                ces)
     else Raise ValueError,
     st).
Proof.
  induction ces as [|kv ces IH]; [done|].
  cbn [comprehension forallb List.map].
  rewrite bind_unfold, bind_unfold, call_cosine_run. unfold cosine_value.
  destruct (cosine_similarity (snd kv) te) as [sim|]; simpl; [|done].
  rewrite bind_unfold, IH.
  by destruct (forallb _ ces).
Qed.

(** What a call that returns has computed. *)
Lemma extract_keywords_Ok text num_keywords st r st' :
  extract_keywords ollama_embeddings cosine_similarity nlp lower
    tfidf_feature_names text num_keywords st = (Ok r, st') ->
  exists doc scores,
    nlp text = Some doc /\
    List.map fst scores
      = elements (candidate_generator lower tfidf_feature_names doc text) /\
    (forall x, x ∈ scores ->
       snd x = document_score cosine_similarity st' text (fst x)) /\
    r = List.map fst (slice_to num_keywords (sorted_reverse scores)).
Proof.
  unfold extract_keywords. intros H.
  apply bind_Ok in H as (doc & s0 & Hdoc & H).
  rewrite call_nlp_run in Hdoc.
  destruct (nlp text) as [doc'|] eqn:Hnlp; [|done].
  injection Hdoc as -> <-.
  apply bind_Ok in H as (ces & s1 & Hces & H).
  apply bind_Ok in H as (te & s2 & Hte & H).
  apply bind_Ok in H as (scores & s3 & Hscores & [= <- <-]).
  rewrite scores_run in Hscores.
  destruct (forallb _ ces); [|done]. injection Hscores as <- <-.
  apply candidate_embeddings_Ok in Hces as (Hfst & _ & Hall).
  pose proof (get_embedding_grows ollama_embeddings text s1) as Hg.
  rewrite Hte in Hg. simpl in Hg.
  apply get_embedding_Ok in Hte as [Hte _].
  exists doc. eexists. split; [done|]. split; [|split; [|reflexivity]].
  - rewrite <- Hfst. rewrite List.map_map. done.
  - intros x Hx. apply list_elem_of_fmap in Hx as (y & -> & Hy). simpl.
    unfold document_score. rewrite Hte.
    rewrite (lookup_weaken _ _ _ _ (Hall y Hy) Hg). done.
Qed.

End ExtractFacts.

(** * Clustering *)

Section ClusterFacts.

Variable keywords : list str.
Variable threshold : Q.
Variable matrix : list (list Q).

#[local] Abbreviation kw := (keyword_at keywords).
#[local] Abbreviation similar := (similar_to keywords threshold matrix).
#[local] Abbreviation cluster_of := (cluster_of_seed keywords threshold matrix).
#[local] Abbreviation seeds_of := (seeds_from keywords threshold matrix).
#[local] Abbreviation close := (close_enough threshold matrix).

Lemma union_move_singleton (x : str) (X Y : gset str) :
  X ∪ ({[ x ]} ∪ Y) = ({[ x ]} ∪ X) ∪ Y.
Proof.
  rewrite (assoc_L (∪)). by rewrite (comm_L (∪) X {[ x ]}).
Qed.

Lemma keyword_at_elem i : i < length keywords -> kw i ∈ keywords.
Proof.
  intros Hi. unfold keyword_at.
  destruct (lookup_lt_is_Some_2 keywords i Hi) as [k Hk].
  rewrite Hk. simpl. by eapply list_elem_of_lookup_2.
Qed.

Lemma seed_in_cluster i : kw i ∈ cluster_of i.
Proof.
  unfold cluster_of_seed. apply elem_of_union. left. by apply elem_of_singleton.
Qed.

Lemma elem_of_similar_to i k :
  k ∈ similar i <->
  exists j, j < length keywords /\ close i j = true /\ k = kw j.
Proof.
  unfold similar_to. rewrite elem_of_list_to_set, list_elem_of_In, in_map_iff.
  split.
  - intros (j & <- & Hj). apply filter_In in Hj as [Hj Hc].
    apply in_seq in Hj. exists j. split; [lia|done].
  - intros (j & Hj & Hc & ->). exists j. split; [done|].
    apply filter_In. split; [apply in_seq; lia|done].
Qed.

(** The inner loop adds to the cluster and to [used] the keywords close
    enough to the seed, whatever [used] holds. *)
Lemma grow_cluster_eq i cluster used :
  grow_cluster keywords threshold matrix (length keywords) i (cluster, used)
  = (similar i ∪ cluster, similar i ∪ used).
Proof.
  unfold grow_cluster, similar_to.
  generalize (seq 0 (length keywords)) as js. intros js.
  revert cluster used. induction js as [|j js IH]; intros cluster used.
  - simpl. f_equal; by rewrite (left_id_L ∅ (∪)).
  - simpl.
    change (negb (i =? j) && Qle_bool threshold (matrix_get matrix i j))
      with (close i j).
    destruct (close i j).
    + rewrite IH. cbn [List.map list_to_set].
      by rewrite !union_move_singleton.
    + by rewrite IH.
Qed.

Lemma cluster_step_eq clusters used i :
  cluster_step keywords threshold matrix (length keywords) (clusters, used) i
  = if bool_decide (kw i ∈ used) then (clusters, used)
    else (clusters ++ [cluster_of i], cluster_of i ∪ used).
Proof.
  unfold cluster_step. destruct (bool_decide (kw i ∈ used)); [done|].
  rewrite grow_cluster_eq. unfold cluster_of_seed.
  rewrite union_move_singleton, (comm_L (∪) (similar i) {[ kw i ]}).
  done.
Qed.

Lemma cluster_fold_eq clusters used indices :
  fst (foldl (cluster_step keywords threshold matrix (length keywords))
         (clusters, used) indices)
  = clusters ++ List.map cluster_of (seeds_of used indices).
Proof.
  revert clusters used.
  induction indices as [|i indices IH]; intros clusters used.
  - simpl. by rewrite app_nil_r.
  - cbn [foldl seeds_from]. rewrite cluster_step_eq.
    destruct (bool_decide (kw i ∈ used)).
    + apply IH.
    + rewrite IH. simpl. by rewrite <- app_assoc.
Qed.

(** The clusters are the clusters of the seeds, in the order of the seeds. *)
Lemma cluster_keywords_seeds :
  cluster_keywords keywords threshold matrix
  = List.map cluster_of (seeds keywords threshold matrix).
Proof. unfold cluster_keywords, seeds. by rewrite cluster_fold_eq. Qed.

Lemma seeds_from_sublist used indices :
  sublist (seeds_of used indices) indices.
Proof.
  revert used. induction indices as [|i indices IH]; intros used; simpl.
  - constructor.
  - destruct (bool_decide (kw i ∈ used)).
    + by apply sublist_cons.
    + by apply sublist_skip.
Qed.

(** A seed is not in [used] when it is met, and no index met before it
    carries the same keyword. *)
Lemma seeds_from_first used indices i :
  i ∈ seeds_of used indices ->
  (kw i ∉ used) /\
  exists l1 l2, indices = l1 ++ i :: l2 /\ forall i', i' ∈ l1 -> kw i' <> kw i.
Proof.
  revert used. induction indices as [|i0 indices IH]; intros used; simpl.
  - intros H. by apply elem_of_nil in H.
  - destruct (bool_decide (kw i0 ∈ used)) eqn:Hused.
    + apply bool_decide_eq_true in Hused.
      intros H. destruct (IH _ H) as (Hi & l1 & l2 & -> & Hl1).
      split; [done|]. exists (i0 :: l1), l2. split; [done|].
      intros i' Hi'. apply elem_of_cons in Hi' as [->|Hi']; [|by apply Hl1].
      intros Heq. by rewrite Heq in Hused.
    + apply bool_decide_eq_false in Hused.
      intros H. apply elem_of_cons in H as [->|H].
      * split; [done|]. exists [], indices. split; [done|].
        intros i' Hi'. by apply elem_of_nil in Hi'.
      * destruct (IH _ H) as (Hi & l1 & l2 & -> & Hl1).
        split; [intros Hu; apply Hi; apply elem_of_union; by right|].
        exists (i0 :: l1), l2. split; [done|].
        intros i' Hi'. apply elem_of_cons in Hi' as [->|Hi']; [|by apply Hl1].
        intros Heq. apply Hi. rewrite <- Heq.
        apply elem_of_union. left. apply seed_in_cluster.
Qed.

(** Every index met has its keyword in [used] or in the cluster of a seed. *)
Lemma seeds_from_cover used indices i :
  i ∈ indices ->
  kw i ∈ used \/
  exists s, s ∈ seeds_of used indices /\ kw i ∈ cluster_of s.
Proof.
  revert used. induction indices as [|i0 indices IH]; intros used Hi; simpl.
  - by apply elem_of_nil in Hi.
  - destruct (bool_decide (kw i0 ∈ used)) eqn:Hused.
    + apply bool_decide_eq_true in Hused.
      apply elem_of_cons in Hi as [->|Hi]; [by left|]. by apply IH.
    + apply elem_of_cons in Hi as [->|Hi].
      * right. exists i0. split; [by left|apply seed_in_cluster].
      * destruct (IH (cluster_of i0 ∪ used) Hi) as [Hu|(s & Hs & Hin)].
        -- apply elem_of_union in Hu as [Hu|Hu]; [|by left].
           right. exists i0. split; [by left|done].
        -- right. exists s. split; [by right|done].
Qed.

End ClusterFacts.

(** * Representatives *)

Lemma counter_add_keys k counts x :
  x ∈ List.map fst (counter_add k counts) <->
  x = k \/ x ∈ List.map fst counts.
Proof.
  induction counts as [|[k' c] counts IH]; simpl.
  - rewrite list_elem_of_singleton, elem_of_nil. tauto.
  - destruct (decide (k' = k)) as [->|Hne]; simpl.
    + rewrite !elem_of_cons. tauto.
    + rewrite !elem_of_cons, IH. tauto.
Qed.

Lemma Counter_keys ks x : x ∈ List.map fst (Counter ks) <-> x ∈ ks.
Proof.
  unfold Counter.
  assert (forall acc,
            x ∈ List.map fst (foldl (fun counts k => counter_add k counts) acc ks)
            <-> x ∈ List.map fst acc \/ x ∈ ks) as G.
  { induction ks as [|k ks IH]; intros acc; simpl.
    - rewrite elem_of_nil. tauto.
    - rewrite IH, counter_add_keys, elem_of_cons. tauto. }
  rewrite G. simpl. rewrite elem_of_nil. tauto.
Qed.

Lemma max_from_elem best items : max_from best items ∈ best :: items.
Proof.
  revert best. induction items as [|x items IH]; intros best; simpl.
  - by left.
  - destruct (snd best <? snd x).
    + right. apply IH.
    + specialize (IH best). apply elem_of_cons in IH as [->|IH].
      * by left.
      * right. by right.
Qed.

Lemma max_by_count_elem items x : max_by_count items = Some x -> x ∈ items.
Proof.
  destruct items as [|y items]; simpl; [done|].
  intros [= <-]. apply max_from_elem.
Qed.

Section RepresentativeFacts.

Variable keywords : list str.

(** The representative of a cluster is a keyword of the input that the
    cluster holds. *)
Lemma representative_Some cluster rep :
  representative keywords cluster = Some rep ->
  rep ∈ keywords /\ rep ∈ cluster.
Proof.
  unfold representative. intros H.
  apply fmap_Some in H as (x & Hx & ->).
  apply max_by_count_elem in Hx.
  apply (list_elem_of_fmap_2 fst) in Hx.
  apply (proj1 (Counter_keys _ _)) in Hx.
  apply list_elem_of_In, filter_In in Hx as [Hin Hc].
  apply bool_decide_eq_true in Hc. by rewrite list_elem_of_In.
Qed.

(** [max] does not fail on a cluster that holds a keyword of the input. *)
Lemma representative_is_Some cluster k :
  k ∈ keywords -> k ∈ cluster ->
  is_Some (representative keywords cluster).
Proof.
  intros Hk Hc. unfold representative.
  assert (k ∈ List.map fst
            (Counter (List.filter (fun k => bool_decide (k ∈ cluster)) keywords)))
    as Hin.
  { apply Counter_keys, list_elem_of_In, filter_In.
    split; [by apply list_elem_of_In|by apply bool_decide_eq_true]. }
  destruct (Counter _) as [|x counts]; [by apply elem_of_nil in Hin|].
  simpl. eauto.
Qed.

Lemma representative_singleton k :
  k ∈ keywords -> representative keywords {[ k ]} = Some k.
Proof.
  intros Hk.
  destruct (representative_is_Some {[ k ]} k Hk) as [rep Hrep].
  { by apply elem_of_singleton. }
  rewrite Hrep. apply representative_Some in Hrep as [_ Hrep].
  apply elem_of_singleton in Hrep. by subst.
Qed.

(** ** The assignments of lines 141-143 *)

Lemma write_cluster_eq ks rep st :
  for_each ks (fun k (_ : unit) => set_alignment k rep) tt st
  = (Ok tt,
     {| embedding_cache := embedding_cache st;
        keyword_alignment_cache :=
          apply_writes (List.map (fun k => (k, rep)) ks)
            (keyword_alignment_cache st);
        provider_calls := provider_calls st;
        alignment_writes :=
          alignment_writes st ++ List.map (fun k => (k, rep)) ks |}).
Proof.
  revert st. induction ks as [|k ks IH]; intros st.
  - simpl. rewrite app_nil_r. by destruct st.
  - cbn [for_each]. erewrite bind_run; [|reflexivity].
    rewrite IH. simpl. by rewrite <- app_assoc.
Qed.

Lemma align_cluster_eq cluster aligned st :
  align_cluster keywords cluster aligned st
  = match representative keywords cluster with
    | None => (Raise ValueError, st)
    | Some rep =>
        (Ok (aligned ++ [rep]),
         {| embedding_cache := embedding_cache st;
            keyword_alignment_cache :=
              apply_writes (writes_of keywords [cluster])
                (keyword_alignment_cache st);
            provider_calls := provider_calls st;
            alignment_writes :=
              alignment_writes st ++ writes_of keywords [cluster] |})
    end.
Proof.
  unfold align_cluster, writes_of. simpl.
  destruct (representative keywords cluster) as [rep|]; [|done].
  erewrite bind_run; [|apply write_cluster_eq].
  by rewrite app_nil_r.
Qed.

Lemma writes_of_app l1 l2 :
  writes_of keywords (l1 ++ l2) = writes_of keywords l1 ++ writes_of keywords l2.
Proof. unfold writes_of. by rewrite flat_map_app. Qed.

Lemma apply_writes_app w1 w2 m :
  apply_writes (w1 ++ w2) m = apply_writes w2 (apply_writes w1 m).
Proof. unfold apply_writes. by rewrite foldl_app. Qed.

(** The loop of lines 135-145, when it runs to its end. *)
Lemma align_clusters_Ok clusters aligned st r st' :
  for_each clusters (align_cluster keywords) aligned st = (Ok r, st') ->
  exists reps,
    Forall2 (fun c rep => representative keywords c = Some rep) clusters reps /\
    r = aligned ++ reps /\
    embedding_cache st' = embedding_cache st /\
    provider_calls st' = provider_calls st /\
    keyword_alignment_cache st'
      = apply_writes (writes_of keywords clusters) (keyword_alignment_cache st) /\
    alignment_writes st' = alignment_writes st ++ writes_of keywords clusters.
Proof.
  revert aligned st. induction clusters as [|c clusters IH]; intros aligned st H.
  - simpl in H. injection H as <- <-. exists [].
    rewrite !app_nil_r. by repeat split.
  - cbn [for_each] in H. apply bind_Ok in H as (aligned1 & s1 & Hc & H).
    rewrite align_cluster_eq in Hc.
    destruct (representative keywords c) as [rep|] eqn:Hrep; [|done].
    injection Hc as <- <-.
    destruct (IH _ _ H) as (reps & Hreps & -> & He & Hp & Ha & Hw).
    simpl in He, Hp, Ha, Hw.
    exists (rep :: reps). split; [by constructor|].
    split; [by rewrite <- app_assoc|]. split; [done|]. split; [done|].
    change (c :: clusters) with ([c] ++ clusters).
    rewrite writes_of_app, apply_writes_app, app_assoc. done.
Qed.

Lemma align_clusters_returns clusters aligned st :
  Forall (fun c => is_Some (representative keywords c)) clusters ->
  exists r st',
    for_each clusters (align_cluster keywords) aligned st = (Ok r, st').
Proof.
  intros Hall. revert aligned st.
  induction Hall as [|c clusters [rep Hrep] _ IH]; intros aligned st.
  - by eexists _, _.
  - cbn [for_each]. erewrite bind_run.
    2:{ rewrite align_cluster_eq, Hrep. reflexivity. }
    apply IH.
Qed.

End RepresentativeFacts.

(** * [align_keywords] *)

Lemma foldl_ext_elem {A B} (f g : A -> B -> A) (l : list B) (a : A) :
  (forall a x, x ∈ l -> f a x = g a x) -> foldl f a l = foldl g a l.
Proof.
  revert a. induction l as [|x l IH]; intros a H; simpl; [done|].
  rewrite (H a x) by (by left). apply IH. intros a' y Hy. apply H. by right.
Qed.

Section AlignFacts.

Variable ollama_embeddings : str -> option vec.
Variable cosine_similarity : vec -> vec -> option Q.
Variable keywords : list str.
Variable threshold : Q.

#[local] Abbreviation embed_into :=
  (fun (k : str) (d : gmap str vec) =>
     let* e := get_embedding ollama_embeddings k in ret (<[k := e]> d)).
#[local] Abbreviation align_keywords_ :=
  (align_keywords ollama_embeddings cosine_similarity keywords threshold).

Lemma embed_into_preserves (R : extractor -> extractor -> Prop) `{!PreOrder R} :
  (forall k, preserves R (get_embedding ollama_embeddings k)) ->
  forall ks d, preserves R (for_each ks embed_into d).
Proof.
  intros Hget ks d. apply preserves_for_each; [tc_solve|].
  intros k d'. apply preserves_bind; [tc_solve|apply Hget|].
  intros e. by apply preserves_ret.
Qed.

(** The dict of line 101 has, for every keyword, the vector the cache holds
    from then on. *)
Lemma embeddings_Ok ks st d st1 :
  for_each ks embed_into ∅ st = (Ok d, st1) ->
  forall k, k ∈ ks ->
    exists e, d !! k = Some e /\ embedding_cache st1 !! k = Some e.
Proof.
  apply (for_each_Ok
           (fun seen (d : gmap str vec) s =>
              forall k, k ∈ seen ->
                exists e, d !! k = Some e /\ embedding_cache s !! k = Some e)).
  - intros k Hk. by apply elem_of_nil in Hk.
  - intros seen x b s b' s' IH Hbody k Hk.
    apply bind_Ok in Hbody as (e & s2 & Hget & [= <- <-]).
    pose proof (get_embedding_grows ollama_embeddings x s) as Hg.
    rewrite Hget in Hg. simpl in Hg.
    apply get_embedding_Ok in Hget as [Hget _].
    destruct (decide (k = x)) as [->|Hne].
    + exists e. by rewrite lookup_insert_eq.
    + apply elem_of_app in Hk as [Hk|Hk].
      * destruct (IH k Hk) as (e' & Hd & Hc). exists e'.
        rewrite lookup_insert_ne by done. split; [done|].
        eapply lookup_weaken; [exact Hc|exact Hg].
      * apply list_elem_of_singleton in Hk. done.
Qed.

Lemma embeddings_returns ks d st :
  (forall k, k ∈ ks ->
     is_Some (embedding_cache st !! k) \/ is_Some (ollama_embeddings k)) ->
  exists d' st1, for_each ks embed_into d st = (Ok d', st1).
Proof.
  revert d st. induction ks as [|k ks IH]; intros d st Hks.
  - by eexists _, _.
  - destruct (get_embedding_returns ollama_embeddings k st) as (e & s1 & Hget).
    { apply Hks. by left. }
    pose proof (get_embedding_grows ollama_embeddings k st) as Hg1.
    rewrite Hget in Hg1. simpl in Hg1.
    cbn [for_each]. erewrite bind_run; [|by erewrite bind_run].
    apply IH. intros k' Hk'.
    destruct (Hks k') as [[e' He']|Hp]; [by right| |by right].
    left. exists e'. eapply lookup_weaken; [exact He'|exact Hg1].
Qed.

(** The matrix depends on the embeddings of the keywords alone. *)
Lemma similarity_values_ext (d d' : gmap str vec) :
  (forall k, k ∈ keywords -> d !! k = d' !! k) ->
  similarity_values cosine_similarity keywords d
  = similarity_values cosine_similarity keywords d'.
Proof.
  intros Hd.
  assert (forall i, i < length keywords ->
            embedding_at keywords d i = embedding_at keywords d' i) as He.
  { intros i Hi. unfold embedding_at.
    by rewrite (Hd _ (keyword_at_elem keywords i Hi)). }
  unfold similarity_values. apply foldl_ext_elem.
  intros m i Hi. apply elem_of_seq in Hi.
  unfold fill_row_values. apply foldl_ext_elem.
  intros m' j Hj. apply elem_of_seq in Hj.
  rewrite (He i), (He j) by lia. done.
Qed.

Lemma similarities_defined_spec (d : gmap str vec) :
  similarities_defined cosine_similarity keywords d = true <->
  forall i j, i < j < length keywords ->
    is_Some (cosine_similarity (embedding_at keywords d i)
               (embedding_at keywords d j)).
Proof.
  unfold similarities_defined. rewrite forallb_forall. split.
  - intros H i j Hij.
    assert (In i (seq 0 (length keywords))) as Hi by (apply in_seq; lia).
    specialize (H i Hi). rewrite forallb_forall in H.
    assert (In j (seq (i + 1) (length keywords - (i + 1)))) as Hj
      by (apply in_seq; lia).
    specialize (H j Hj). by apply bool_decide_eq_true in H.
  - intros H i Hi. apply in_seq in Hi. apply forallb_forall.
    intros j Hj. apply in_seq in Hj. apply bool_decide_eq_true, H. lia.
Qed.

(** Whether the calls of [cosine_similarity] return depends on the
    embeddings of the keywords alone. *)
Lemma similarities_defined_ext (d d' : gmap str vec) :
  (forall k, k ∈ keywords -> d !! k = d' !! k) ->
  similarities_defined cosine_similarity keywords d
  = similarities_defined cosine_similarity keywords d'.
Proof.
  intros Hd.
  assert (forall i, i < length keywords ->
            embedding_at keywords d i = embedding_at keywords d' i) as He.
  { intros i Hi. unfold embedding_at.
    by rewrite (Hd _ (keyword_at_elem keywords i Hi)). }
  apply Bool.eq_iff_eq_true. rewrite !similarities_defined_spec.
  split; intros H i j Hij; specialize (H i j Hij).
  - by rewrite <- (He i), <- (He j) by lia.
  - by rewrite (He i), (He j) by lia.
Qed.

(** Lines 108-114 for one [i]: the row is filled, or [ValueError] is
    raised at the first pair of vectors that [cosine_similarity] refuses;
    the state is as it was. *)
Lemma fill_row_run (d : gmap str vec) n i m st :
  fill_row cosine_similarity keywords d n i m st
  = (if forallb
          (fun j =>
             bool_decide
               (is_Some
                  (cosine_similarity (embedding_at keywords d i)
                     (embedding_at keywords d j))))
          (seq (i + 1) (n - (i + 1)))
     then Ok (fill_row_values cosine_similarity keywords d n i m)
     else Raise ValueError,
     st).
Proof.
  unfold fill_row, fill_row_values.
  generalize (seq (i + 1) (n - (i + 1))) as js. intros js. revert m.
  induction js as [|j js IH]; intros m; [done|].
  cbn [for_each forallb foldl].
  rewrite bind_unfold, bind_unfold, call_cosine_run.
  destruct (cosine_similarity (embedding_at keywords d i)
              (embedding_at keywords d j)) as [sim|] eqn:Hsim; simpl; [|done].
  rewrite IH.
  assert (cosine_value cosine_similarity (embedding_at keywords d i)
            (embedding_at keywords d j) = sim) as ->; [|done].
  unfold cosine_value. by rewrite Hsim.
Qed.

(** Lines 104-114. *)
Lemma similarity_matrix_run (d : gmap str vec) st :
  similarity_matrix cosine_similarity keywords d st
  = (if similarities_defined cosine_similarity keywords d
     then Ok (similarity_values cosine_similarity keywords d)
     else Raise ValueError,
     st).
Proof.
  unfold similarity_matrix, similarity_values, similarities_defined.
  generalize (zeros (length keywords)) as m.
  generalize (seq 0 (length keywords)) as indices. intros indices.
  induction indices as [|i indices IH]; intros m; [done|].
  cbn [for_each forallb foldl]. rewrite bind_unfold, fill_row_run.
  destruct (forallb _ (seq (i + 1) _)); simpl; [|done].
  apply IH.
Qed.

End AlignFacts.

(** ** The alignment cache after a batch of assignments *)

Lemma apply_writes_keeps (writes : list (str * str)) (m : gmap str str) (k : str) :
  is_Some (m !! k) -> is_Some (apply_writes writes m !! k).
Proof.
  unfold apply_writes. revert m.
  induction writes as [|[k' v'] writes IH]; intros m Hm; simpl; [done|].
  apply IH. destruct (decide (k' = k)) as [->|Hne].
  - rewrite lookup_insert_eq. eauto.
  - by rewrite lookup_insert_ne.
Qed.

Lemma apply_writes_written (writes : list (str * str)) (m : gmap str str) (k : str) v :
  (k, v) ∈ writes -> is_Some (apply_writes writes m !! k).
Proof.
  revert m. induction writes as [|[k' v'] writes IH]; intros m Hin.
  - by apply elem_of_nil in Hin.
  - apply elem_of_cons in Hin as [[= <- <-]|Hin].
    + apply (apply_writes_keeps writes (<[k := v]> m)).
      rewrite lookup_insert_eq. eauto.
    + apply (IH (<[k' := v']> m) Hin).
Qed.

Lemma apply_writes_untouched (writes : list (str * str)) (m : gmap str str) (k : str) :
  (forall v, (k, v) ∉ writes) -> apply_writes writes m !! k = m !! k.
Proof.
  revert m. induction writes as [|[k' v'] writes IH]; intros m Hnot; [done|].
  change (apply_writes ((k', v') :: writes) m)
    with (apply_writes writes (<[k' := v']> m)).
  rewrite IH.
  - apply lookup_insert_ne. intros ->. apply (Hnot v'). by left.
  - intros v Hv. apply (Hnot v). by right.
Qed.

Lemma apply_writes_cluster (ks : list str) (rep : str) (m : gmap str str)
    (k : str) :
  k ∈ ks ->
  apply_writes (List.map (fun k => (k, rep)) ks) m !! k = Some rep.
Proof.
  revert m. induction ks as [|k0 ks IH]; intros m Hk.
  - by apply elem_of_nil in Hk.
  - change (apply_writes (List.map (fun k => (k, rep)) (k0 :: ks)) m)
      with (apply_writes (List.map (fun k => (k, rep)) ks) (<[k0 := rep]> m)).
    destruct (decide (k ∈ ks)) as [Hin|Hnot]; [by apply IH|].
    apply elem_of_cons in Hk as [->|Hk]; [|done].
    rewrite apply_writes_untouched; [apply lookup_insert_eq|].
    intros v Hv. apply list_elem_of_fmap in Hv as (k' & [= <- _] & Hk').
    done.
Qed.

Section WriteFacts.

Variable keywords : list str.

(** An assignment of the batch is of a keyword of a cluster to the
    representative of that cluster. *)
Lemma elem_of_writes_of clusters k v :
  (k, v) ∈ writes_of keywords clusters <->
  exists c, c ∈ clusters /\ k ∈ c /\ representative keywords c = Some v.
Proof.
  unfold writes_of. rewrite list_elem_of_In, in_flat_map.
  setoid_rewrite <- list_elem_of_In.
  split.
  - intros (c & Hc & Hin). exists c. split; [done|].
    destruct (representative keywords c) as [rep|];
      [|by apply elem_of_nil in Hin].
    apply list_elem_of_fmap in Hin as (k' & [= <- <-] & Hk').
    by apply elem_of_elements in Hk'.
  - intros (c & Hc & Hk & Hrep). exists c. split; [done|].
    rewrite Hrep. apply list_elem_of_fmap. exists k.
    split; [done|by apply elem_of_elements].
Qed.

(** The entry of a keyword after the batch is the representative of the
    last cluster that holds it. *)
Lemma apply_writes_last (l1 : list (gset str)) (c : gset str)
    (l2 : list (gset str)) (rep : str) (m : gmap str str) (k : str) :
  k ∈ c ->
  representative keywords c = Some rep ->
  (forall c', c' ∈ l2 -> k ∉ c') ->
  apply_writes (writes_of keywords (l1 ++ c :: l2)) m !! k = Some rep.
Proof.
  intros Hk Hrep Hl2.
  change (c :: l2) with ([c] ++ l2).
  rewrite !writes_of_app, !apply_writes_app.
  rewrite apply_writes_untouched.
  - unfold writes_of. simpl. rewrite Hrep, app_nil_r.
    apply apply_writes_cluster. by apply elem_of_elements.
  - intros v Hv. apply elem_of_writes_of in Hv as (c' & Hc' & Hk' & _).
    by apply (Hl2 c').
Qed.




End WriteFacts.

(** ** The two paths of [align_keywords] *)

Section AlignRuns.

Variable ollama_embeddings : str -> option vec.
Variable cosine_similarity : vec -> vec -> option Q.
Variable keywords : list str.
Variable threshold : Q.

#[local] Abbreviation align_keywords_ :=
  (align_keywords ollama_embeddings cosine_similarity keywords threshold).
#[local] Abbreviation clusters_of :=
  (clusters_formed cosine_similarity keywords threshold).

(** Every cluster holds the keyword of its seed, a keyword of the input. *)
Lemma clusters_have_seeds (matrix : list (list Q)) c :
  c ∈ cluster_keywords keywords threshold matrix ->
  exists i, i < length keywords /\ keyword_at keywords i ∈ c.
Proof.
  rewrite cluster_keywords_seeds. intros Hc.
  apply list_elem_of_fmap in Hc as (i & -> & Hi).
  exists i. split; [|apply seed_in_cluster].
  unfold seeds in Hi.
  eapply elem_of_sublist in Hi; [|apply seeds_from_sublist].
  apply elem_of_seq in Hi. lia.
Qed.

Lemma clusters_have_representatives (matrix : list (list Q)) :
  Forall (fun c => is_Some (representative keywords c))
    (cluster_keywords keywords threshold matrix).
Proof.
  apply Forall_forall. intros c Hc.
  apply clusters_have_seeds in Hc as (i & Hi & Hc).
  eapply representative_is_Some; [|exact Hc]. by apply keyword_at_elem.
Qed.

(** Every keyword of the input is in a cluster. *)
Lemma clusters_cover (matrix : list (list Q)) k :
  k ∈ keywords ->
  exists c, c ∈ cluster_keywords keywords threshold matrix /\ k ∈ c.
Proof.
  intros Hk. apply list_elem_of_lookup in Hk as [i Hi].
  assert (keyword_at keywords i = k) as <- by (unfold keyword_at; by rewrite Hi).
  apply lookup_lt_Some in Hi.
  destruct (seeds_from_cover keywords threshold matrix ∅
              (seq 0 (length keywords)) i) as [Hu|(s & Hs & Hin)].
  - apply elem_of_seq. lia.
  - by apply not_elem_of_empty in Hu.
  - exists (cluster_of_seed keywords threshold matrix s). split; [|done].
    rewrite cluster_keywords_seeds. by apply list_elem_of_fmap_2.
Qed.

Lemma comprehension_get_alignment_Ok ks st :
  all_aligned st ks = true ->
  exists r,
    comprehension get_alignment ks st = (Ok r, st) /\
    Forall2 (fun k rep => keyword_alignment_cache st !! k = Some rep) ks r.
Proof.
  unfold all_aligned. induction ks as [|k ks IH]; simpl.
  - intros _. by exists [].
  - rewrite andb_true_iff, bool_decide_eq_true. intros [[rep Hk] Hks].
    destruct (IH Hks) as (r & Hr & Hall).
    exists (rep :: r). split; [|by constructor].
    erewrite bind_run; [|unfold get_alignment; by rewrite Hk].
    by erewrite bind_run.
Qed.

(** The fast path: the cached representative of every keyword, in the order
    of the input, and nothing changed. *)
Lemma align_keywords_fast st :
  all_aligned st keywords = true ->
  exists r,
    align_keywords_ st = (Ok r, st) /\
    Forall2 (fun k rep => keyword_alignment_cache st !! k = Some rep)
      keywords r.
Proof.
  intros Hall. unfold align_keywords.
  destruct keywords as [|k0 ks] eqn:Hks.
  - by exists [].
  - fold (all_aligned st (k0 :: ks)). rewrite Hall.
    by apply comprehension_get_alignment_Ok.
Qed.

(** The clustering path, when it returns. *)
Lemma align_keywords_slow_Ok st r st' :
  all_aligned st keywords = false ->
  align_keywords_ st = (Ok r, st') ->
  Forall2 (fun c rep => representative keywords c = Some rep)
    (clusters_of st') r /\
  keyword_alignment_cache st'
    = apply_writes (writes_of keywords (clusters_of st'))
        (keyword_alignment_cache st) /\
  alignment_writes st'
    = alignment_writes st ++ writes_of keywords (clusters_of st') /\
  similarities_defined cosine_similarity keywords (embedding_cache st')
  = true.
Proof.
  intros Hall. unfold align_keywords.
  destruct keywords as [|k0 ks] eqn:Hks; [done|].
  fold (all_aligned st (k0 :: ks)). rewrite Hall. rewrite <- Hks. intros H.
  apply bind_Ok in H as (d & s1 & Hd & H).
  pose proof (embed_into_preserves ollama_embeddings alignment_untouched
                (get_embedding_alignment ollama_embeddings) keywords ∅ st)
    as [Hkac Hwr].
  rewrite Hd in Hkac, Hwr. simpl in Hkac, Hwr.
  pose proof (embeddings_Ok ollama_embeddings _ _ _ _ Hd) as Hemb.
  apply bind_Ok in H as (matrix & s2 & Hmatrix & H).
  rewrite similarity_matrix_run in Hmatrix.
  destruct (similarities_defined cosine_similarity keywords d) eqn:Hdef;
    [|done].
  injection Hmatrix as <- <-.
  apply align_clusters_Ok in H as (reps & Hreps & -> & He & Hp & Ha & Hw).
  assert (forall k, k ∈ keywords -> d !! k = embedding_cache st' !! k) as Hd'.
  { intros k Hk. destruct (Hemb k Hk) as (e & -> & Hc). by rewrite He, Hc. }
  rewrite <- (similarities_defined_ext cosine_similarity keywords d _ Hd').
  unfold clusters_formed.
  rewrite <- (similarity_values_ext cosine_similarity keywords d _ Hd').
  rewrite <- Hkac, <- Hwr. done.
Qed.

Lemma align_keywords_slow st :
  all_aligned st keywords = false ->
  align_keywords_ st
  = (let* embeddings :=
       for_each keywords
         (fun k (d : gmap str vec) =>
            let* e := get_embedding ollama_embeddings k in
            ret (<[k := e]> d)) ∅ in
     let* similarity_matrix :=
       similarity_matrix cosine_similarity keywords embeddings in
     for_each (cluster_keywords keywords threshold similarity_matrix)
       (align_cluster keywords) []) st.
Proof.
  intros Hall. unfold align_keywords.
  destruct keywords as [|k0 ks]; [done|].
  fold (all_aligned st (k0 :: ks)). by rewrite Hall.
Qed.

(** The clustering path returns when every keyword is cached or served
    and [cosine_similarity] is defined on the vectors of every two of
    them. *)
Lemma align_keywords_slow_returns st :
  all_aligned st keywords = false ->
  (forall k, k ∈ keywords ->
     is_Some (embedding_cache st !! k) \/ is_Some (ollama_embeddings k)) ->
  (forall k1 k2 a b,
     k1 ∈ keywords -> k2 ∈ keywords ->
     embedding_cache st !! k1 = Some a \/ ollama_embeddings k1 = Some a ->
     embedding_cache st !! k2 = Some b \/ ollama_embeddings k2 = Some b ->
     is_Some (cosine_similarity a b)) ->
  exists r st', align_keywords_ st = (Ok r, st').
Proof.
  intros Hall Hserved Hcos. rewrite align_keywords_slow by done.
  destruct (embeddings_returns ollama_embeddings keywords ∅ st Hserved)
    as (d & s1 & Hd).
  pose proof (embeddings_Ok ollama_embeddings _ _ _ _ Hd) as Hemb.
  pose proof (embed_into_preserves ollama_embeddings
                (cache_from_service ollama_embeddings)
                (get_embedding_from_service ollama_embeddings) keywords ∅ st)
    as Hfrom.
  rewrite Hd in Hfrom. simpl in Hfrom.
  erewrite bind_run; [|exact Hd].
  rewrite bind_unfold, similarity_matrix_run.
  assert (similarities_defined cosine_similarity keywords d = true) as ->.
  { apply similarities_defined_spec. intros i j Hij.
    assert (keyword_at keywords i ∈ keywords) as Hi
      by (apply keyword_at_elem; lia).
    assert (keyword_at keywords j ∈ keywords) as Hj
      by (apply keyword_at_elem; lia).
    destruct (Hemb _ Hi) as (a & Hda & Hca).
    destruct (Hemb _ Hj) as (b & Hdb & Hcb).
    unfold embedding_at. rewrite Hda, Hdb. simpl.
    apply (Hcos _ _ a b Hi Hj); by apply Hfrom. }
  apply align_clusters_returns, clusters_have_representatives.
Qed.

(** After a call that returned, every keyword of the input has a cached
    alignment. *)
Lemma align_keywords_aligns st r st' :
  align_keywords_ st = (Ok r, st') ->
  all_aligned st' keywords = true.
Proof.
  intros H. destruct (all_aligned st keywords) eqn:Hall.
  - destruct (align_keywords_fast st Hall) as (r' & Hr & _).
    rewrite Hr in H. by injection H as <- <-.
  - destruct (align_keywords_slow_Ok st r st' Hall H) as (Hreps & Hkac & _).
    unfold all_aligned. apply forallb_forall. intros k Hk.
    apply list_elem_of_In in Hk. apply bool_decide_eq_true.
    destruct (clusters_cover
                (similarity_values cosine_similarity keywords
                   (embedding_cache st')) k Hk) as (c & Hc & Hkc).
    fold (clusters_of st') in Hc.
    destruct (proj1 (Forall_forall _ _)
                (clusters_have_representatives
                   (similarity_values cosine_similarity keywords
                      (embedding_cache st'))) c Hc) as [rep Hrep].
    rewrite Hkac. apply (apply_writes_written _ _ k rep).
    apply elem_of_writes_of. by exists c.
Qed.

End AlignRuns.

(** * The similarity matrix is symmetric *)

Lemma foldl_invariant {A B} (P : A -> Prop) (f : A -> B -> A) (l : list B) a :
  P a -> (forall a x, x ∈ l -> P a -> P (f a x)) -> P (foldl f a l).
Proof.
  revert a. induction l as [|x l IH]; intros a Ha Hstep; simpl; [done|].
  apply IH.
  - apply Hstep; [by left|done].
  - intros a' y Hy. apply Hstep. by right.
Qed.

Lemma zeros_square n : square n (zeros n).
Proof.
  unfold square, zeros. split; [apply length_replicate|].
  apply Forall_forall. intros row Hrow.
  apply elem_of_replicate in Hrow as [-> _]. apply length_replicate.
Qed.

Lemma matrix_get_zeros n a b : matrix_get (zeros n) a b = 0%Q.
Proof.
  unfold matrix_get, zeros.
  destruct (replicate n (replicate n 0%Q) !! a) as [row|] eqn:Hrow;
    cbv [mbind option_bind]; [|reflexivity].
  apply lookup_replicate in Hrow as [-> _].
  destruct (replicate n 0%Q !! b) as [x|] eqn:Hx; [|reflexivity].
  by apply lookup_replicate in Hx as [-> _].
Qed.

Lemma matrix_set_square n m i j x :
  square n m -> square n (matrix_set m i j x).
Proof.
  unfold square, matrix_set. intros [Hlen Hrows].
  split; [by rewrite length_alter|].
  apply Forall_alter; [done|]. intros row _ Hrow.
  by rewrite length_insert.
Qed.

Lemma matrix_get_set n m i j x a b :
  square n m -> i < n -> j < n ->
  matrix_get (matrix_set m i j x) a b
  = if decide (a = i /\ b = j) then x else matrix_get m a b.
Proof.
  unfold square, matrix_get, matrix_set. intros [Hlen Hrows] Hi Hj.
  destruct (decide (a = i)) as [->|Hai].
  - rewrite list_lookup_alter_eq.
    destruct (lookup_lt_is_Some_2 m i) as [row Hrow]; [lia|].
    rewrite Hrow. cbv [mbind option_bind fmap option_fmap option_map].
    assert (length row = n) as Hrowlen.
    { eapply (proj1 (Forall_forall _ _) Hrows).
      by eapply list_elem_of_lookup_2. }
    destruct (decide (b = j)) as [->|Hbj].
    + rewrite decide_True by done.
      rewrite list_lookup_insert_eq by lia. reflexivity.
    + rewrite decide_False by tauto.
      rewrite list_lookup_insert_ne by done. reflexivity.
  - rewrite decide_False by tauto.
    rewrite list_lookup_alter_ne by done. reflexivity.
Qed.

Section MatrixFacts.

Variable cosine_similarity : vec -> vec -> option Q.
Variable keywords : list str.
Variable embeddings : gmap str vec.

(** Line 113 and line 114 write the same similarity at [i][j] and at
    [j][i]: the matrix is symmetric. *)
Lemma similarity_values_symmetric a b :
  matrix_get (similarity_values cosine_similarity keywords embeddings) a b
  = matrix_get (similarity_values cosine_similarity keywords embeddings) b a.
Proof.
  set (n := length keywords).
  set (P := fun m : list (list Q) =>
              square n m /\ forall a b, matrix_get m a b = matrix_get m b a).
  assert (P (similarity_values cosine_similarity keywords embeddings)) as [_ H].
  { unfold similarity_values. fold n. apply foldl_invariant.
    - split; [apply zeros_square|]. intros a' b'.
      by rewrite !matrix_get_zeros.
    - intros m i Hi Hm. apply elem_of_seq in Hi.
      unfold fill_row_values. apply foldl_invariant; [done|].
      intros m' j Hj [Hsq Hsym]. apply elem_of_seq in Hj.
      split; [by do 2 apply matrix_set_square|].
      intros a' b'.
      rewrite !(matrix_get_set n) by (try apply matrix_set_square; done || lia).
      repeat case_decide; try done; try lia; apply Hsym. }
  apply H.
Qed.

End MatrixFacts.

(** * When no two keywords are merged *)

Lemma sublist_full {A} (l1 l2 : list A) :
  sublist l1 l2 -> length l2 <= length l1 -> l1 = l2.
Proof.
  induction 1 as [|x l1 l2 Hsub IH|x l1 l2 Hsub IH]; simpl; intros Hlen.
  - done.
  - f_equal. apply IH. lia.
  - apply sublist_length in Hsub. lia.
Qed.

Lemma seq_split_at n j :
  j < n -> seq 0 n = seq 0 j ++ j :: seq (S j) (n - S j).
Proof.
  intros Hj. replace n with (j + S (n - S j)) at 1 by lia.
  by rewrite seq_app.
Qed.

Lemma map_keyword_at_seq (keywords : list str) :
  List.map (keyword_at keywords) (seq 0 (length keywords)) = keywords.
Proof.
  apply list_eq. intros i.
  change (List.map (keyword_at keywords) (seq 0 (length keywords)))
    with (keyword_at keywords <$> seq 0 (length keywords)).
  rewrite list_lookup_fmap.
  destruct (decide (i < length keywords)) as [Hi|Hi].
  - rewrite lookup_seq_lt by done. simpl. unfold keyword_at.
    destruct (lookup_lt_is_Some_2 keywords i Hi) as [k Hk]. by rewrite Hk.
  - rewrite lookup_seq_ge by lia. simpl. symmetry.
    apply lookup_ge_None. lia.
Qed.

Lemma apply_writes_lookup_Some (writes : list (str * str))
    (m : gmap str str) (k v : str) :
  apply_writes writes m !! k = Some v ->
  (k, v) ∈ writes \/ m !! k = Some v.
Proof.
  revert m. induction writes as [|[k' v'] writes IH]; intros m H; [by right|].
  change (apply_writes ((k', v') :: writes) m)
    with (apply_writes writes (<[k' := v']> m)) in H.
  destruct (IH _ H) as [Hin|Hm]; [left; by right|].
  destruct (decide (k' = k)) as [->|Hne].
  - rewrite lookup_insert_eq in Hm. injection Hm as ->. left. by left.
  - rewrite lookup_insert_ne in Hm by done. by right.
Qed.

Section NoMerge.

Variable keywords : list str.
Variable threshold : Q.
Variable matrix : list (list Q).

Hypothesis matrix_symmetric :
  forall a b, matrix_get matrix a b = matrix_get matrix b a.

#[local] Abbreviation kw := (keyword_at keywords).
#[local] Abbreviation cluster_of := (cluster_of_seed keywords threshold matrix).
#[local] Abbreviation seeds_of := (seeds_from keywords threshold matrix).

(** The keyword of a seed is in no cluster started before it. *)
Lemma seeds_from_apart used indices l1 i l2 :
  seeds_of used indices = l1 ++ i :: l2 ->
  forall s, s ∈ l1 -> kw i ∉ cluster_of s.
Proof.
  revert used l1. induction indices as [|i0 indices IH]; intros used l1; simpl.
  - intros H. by destruct l1.
  - destruct (bool_decide (kw i0 ∈ used)); [apply IH|].
    destruct l1 as [|s0 l1]; simpl.
    + intros _ s Hs. by apply elem_of_nil in Hs.
    + intros [= <- Hrest] s Hs.
      apply elem_of_cons in Hs as [->|Hs]; [|by eapply IH].
      assert (i ∈ seeds_of (cluster_of i0 ∪ used) indices) as Hi.
      { rewrite Hrest. apply elem_of_app. right. by left. }
      apply seeds_from_first in Hi as [Hi _].
      intros Hin. apply Hi. apply elem_of_union. by left.
Qed.

Hypothesis all_seeds :
  seeds keywords threshold matrix = seq 0 (length keywords).

Lemma all_seeds_apart i j :
  i < j -> j < length keywords -> kw j ∉ cluster_of i.
Proof.
  intros Hij Hj.
  apply (seeds_from_apart ∅ (seq 0 (length keywords)) (seq 0 j) j
           (seq (S j) (length keywords - S j))).
  - fold (seeds keywords threshold matrix). rewrite all_seeds.
    by apply seq_split_at.
  - apply elem_of_seq. lia.
Qed.

Lemma all_seeds_distinct i j :
  i < length keywords -> j < length keywords -> i <> j -> kw i <> kw j.
Proof.
  intros Hi Hj Hne Heq.
  destruct (decide (i < j)).
  - apply (all_seeds_apart i j); [lia|done|].
    rewrite <- Heq. apply seed_in_cluster.
  - apply (all_seeds_apart j i); [lia|done|].
    rewrite Heq. apply seed_in_cluster.
Qed.

(** Every cluster is the singleton of its seed. *)
Lemma all_seeds_singleton i :
  i < length keywords -> cluster_of i = {[ kw i ]}.
Proof.
  intros Hi. apply set_eq. intros k. rewrite elem_of_singleton.
  split; [|intros ->; apply seed_in_cluster].
  unfold cluster_of_seed. rewrite elem_of_union, elem_of_singleton.
  intros [Hk|Hk]; [done|]. exfalso.
  apply elem_of_similar_to in Hk as (j & Hj & Hclose & ->).
  unfold close_enough in Hclose.
  apply andb_true_iff in Hclose as [Hne Hle].
  apply negb_true_iff, Nat.eqb_neq in Hne.
  destruct (decide (i < j)).
  - apply (all_seeds_apart i j); [done|done|].
    unfold cluster_of_seed. apply elem_of_union. right.
    apply elem_of_similar_to. exists j. split; [done|]. split; [|done].
    unfold close_enough. rewrite Hle.
    by rewrite (proj2 (Nat.eqb_neq i j)) by done.
  - apply (all_seeds_apart j i); [lia|done|].
    unfold cluster_of_seed. apply elem_of_union. right.
    apply elem_of_similar_to. exists i. split; [done|]. split; [|done].
    unfold close_enough. rewrite matrix_symmetric, Hle.
    by rewrite (proj2 (Nat.eqb_neq j i)) by lia.
Qed.

Lemma all_seeds_clusters :
  cluster_keywords keywords threshold matrix
  = List.map (fun k => {[ k ]}) keywords.
Proof.
  rewrite cluster_keywords_seeds, all_seeds.
  transitivity (List.map (fun k : str => ({[ k ]} : gset str))
                  (List.map kw (seq 0 (length keywords))));
    [|by rewrite map_keyword_at_seq].
  rewrite List.map_map. apply map_ext_in.
  intros i Hi. apply in_seq in Hi. apply all_seeds_singleton. lia.
Qed.

Lemma all_seeds_NoDup : NoDup keywords.
Proof.
  apply NoDup_alt. intros i j k Hi Hj.
  destruct (decide (i = j)) as [|Hne]; [done|]. exfalso.
  apply (all_seeds_distinct i j); [by eapply lookup_lt_Some..|done|].
  unfold keyword_at. by rewrite Hi, Hj.
Qed.

End NoMerge.

(** * Exceptions *)

Section RaisesOnly.

Variable P : exn -> Prop.

Lemma raises_only_ret {A} (a : A) : raises_only P (ret a).
Proof. by intros st e st'. Qed.

Lemma raises_only_bind {A B} (m : M A) (f : A -> M B) :
  raises_only P m -> (forall a, raises_only P (f a)) ->
  raises_only P (bind m f).
Proof.
  intros Hm Hf st e st' H.
  apply bind_Raise in H as [H|(a & s1 & _ & H)].
  - by eapply Hm.
  - by eapply Hf.
Qed.

Lemma raises_only_comprehension {A B} (f : A -> M B) (xs : list A) :
  (forall x, raises_only P (f x)) -> raises_only P (comprehension f xs).
Proof.
  intros Hf. induction xs as [|x xs IH]; simpl.
  - apply raises_only_ret.
  - apply raises_only_bind; [apply Hf|]. intros y.
    apply raises_only_bind; [apply IH|]. intros ys. apply raises_only_ret.
Qed.

End RaisesOnly.

Lemma get_embedding_raises ollama_embeddings text :
  raises_only (fun e => e = ProviderError)
    (get_embedding ollama_embeddings text).
Proof.
  intros st e st'. destruct (embedding_cache st !! text) as [e0|] eqn:Hc.
  - by rewrite (get_embedding_cached _ _ _ _ Hc).
  - rewrite (get_embedding_miss _ _ _ Hc).
    destruct (ollama_embeddings text); [done|]. by intros [= <- _].
Qed.

Lemma raises_only_weaken (P P' : exn -> Prop) {A} (m : M A) :
  (forall e, P e -> P' e) -> raises_only P m -> raises_only P' m.
Proof. intros HP Hm st e st' H. eapply HP, Hm, H. Qed.

Lemma call_nlp_raises nlp text :
  raises_only (fun e => e = ValueError) (call_nlp nlp text).
Proof.
  intros st e st'. rewrite call_nlp_run.
  destruct (nlp text); [done|]. by intros [= <- _].
Qed.

Lemma call_cosine_raises cosine_similarity a b :
  raises_only (fun e => e = ValueError) (call_cosine cosine_similarity a b).
Proof.
  intros st e st'. rewrite call_cosine_run.
  destruct (cosine_similarity a b); [done|]. by intros [= <- _].
Qed.

(** The exceptions [extract_keywords] can raise are the failure of the
    embedding service and the [ValueError] of the annotator and of the
    cosine similarity. *)
Lemma extract_keywords_raises ollama_embeddings cosine_similarity nlp lower
    tfidf_feature_names text num_keywords :
  raises_only (fun e => e = ProviderError \/ e = ValueError)
    (extract_keywords ollama_embeddings cosine_similarity nlp lower
       tfidf_feature_names text num_keywords).
Proof.
  unfold extract_keywords. apply raises_only_bind.
  { eapply raises_only_weaken; [|apply call_nlp_raises]. auto. }
  intros doc. apply raises_only_bind.
  - apply raises_only_comprehension. intros k.
    apply raises_only_bind.
    + eapply raises_only_weaken; [|apply get_embedding_raises]. auto.
    + intros e. apply raises_only_ret.
  - intros ces. apply raises_only_bind.
    { eapply raises_only_weaken; [|apply get_embedding_raises]. auto. }
    intros te. apply raises_only_bind.
    + apply raises_only_comprehension. intros kv.
      apply raises_only_bind.
      * eapply raises_only_weaken; [|apply call_cosine_raises]. auto.
      * intros score. apply raises_only_ret.
    + intros scores. apply raises_only_ret.
Qed.

Lemma forallb_false_elem {A} (f : A -> bool) (l : list A) :
  forallb f l = false -> exists x, x ∈ l /\ f x = false.
Proof.
  induction l as [|x l IH]; simpl; [done|].
  destruct (f x) eqn:Hx.
  - intros H. destruct (IH H) as (y & Hy & Hfy).
    exists y. split; [by right|done].
  - intros _. exists x. split; [by left|done].
Qed.

Section ExtractRaises.

Variable ollama_embeddings : str -> option vec.
Variable cosine_similarity : vec -> vec -> option Q.
Variable nlp : str -> option Doc.
Variable lower : str -> str.
Variable tfidf_feature_names : str -> option (list str).

(** Where an exception of [extract_keywords] comes from: the annotator,
    before anything is asked of the embedding service; the embedding
    service; or the cosine similarity of a candidate and the document,
    once their embeddings are cached. *)
Lemma extract_keywords_Raise text num_keywords st e st' :
  extract_keywords ollama_embeddings cosine_similarity nlp lower
    tfidf_feature_names text num_keywords st = (Raise e, st') ->
  (e = ValueError /\ nlp text = None /\ st' = st) \/
  exists doc,
    nlp text = Some doc /\
    (e = ProviderError \/
     e = ValueError /\
     exists k a b,
       k ∈ candidate_generator lower tfidf_feature_names doc text /\
       embedding_cache st' !! k = Some a /\
       embedding_cache st' !! text = Some b /\
       cosine_similarity a b = None).
Proof.
  unfold extract_keywords. intros H.
  apply bind_Raise in H as [H|(doc & s0 & Hdoc & H)].
  { rewrite call_nlp_run in H. destruct (nlp text); [done|].
    injection H as <- <-. by left. }
  rewrite call_nlp_run in Hdoc.
  destruct (nlp text) as [doc'|]; [|done]. injection Hdoc as -> <-.
  right. exists doc. split; [done|].
  apply bind_Raise in H as [H|(ces & s1 & Hces & H)].
  { left.
    refine (raises_only_comprehension (fun e => e = ProviderError)
              _ _ _ _ _ _ H).
    intros k. apply raises_only_bind; [apply get_embedding_raises|].
    intros v. apply raises_only_ret. }
  apply bind_Raise in H as [H|(te & s2 & Hte & H)].
  { left. by eapply get_embedding_raises. }
  apply bind_Raise in H as [H|(scores & s3 & _ & H)]; [|done].
  rewrite scores_run in H.
  destruct (forallb _ ces) eqn:Hdef; [done|]. injection H as <- <-.
  right. split; [done|].
  apply forallb_false_elem in Hdef as (kv & Hkv & Hnone).
  apply bool_decide_eq_false in Hnone.
  apply candidate_embeddings_Ok in Hces as (Hfst & _ & Hall).
  pose proof (get_embedding_grows ollama_embeddings text s1) as Hg.
  rewrite Hte in Hg. simpl in Hg.
  apply get_embedding_Ok in Hte as [Hte _].
  exists (fst kv), (snd kv), te. split; [|split; [|split]].
  - apply elem_of_elements. rewrite <- Hfst. by apply list_elem_of_fmap_2.
  - eapply lookup_weaken; [by apply Hall|exact Hg].
  - exact Hte.
  - destruct (cosine_similarity (snd kv) te); [|done].
    exfalso. apply Hnone. by eexists.
Qed.

End ExtractRaises.

(** * The order of the seeds *)

Lemma seq_sorted j n : StronglySorted lt (seq j n).
Proof.
  revert j. induction n as [|n IH]; intros j; simpl; constructor.
  - apply IH.
  - apply Forall_forall. intros x Hx. apply elem_of_seq in Hx. lia.
Qed.

Lemma sublist_sorted {A} (R : relation A) (l1 l2 : list A) :
  sublist l1 l2 -> StronglySorted R l2 -> StronglySorted R l1.
Proof.
  induction 1 as [|x l1 l2 Hsub IH|x l1 l2 Hsub IH]; intros Hs.
  - constructor.
  - apply StronglySorted_inv in Hs as [Hs Hx]. constructor; [by apply IH|].
    apply Forall_forall. intros y Hy.
    apply (proj1 (Forall_forall _ _) Hx). by eapply elem_of_sublist.
  - apply StronglySorted_inv in Hs as [Hs _]. by apply IH.
Qed.

Lemma seq_before n l1 i l2 i' :
  seq 0 n = l1 ++ i :: l2 -> i' < i -> i' ∈ l1.
Proof.
  intros Hsplit Hlt.
  assert (i ∈ seq 0 n) as Hi.
  { rewrite Hsplit. apply elem_of_app. right. by left. }
  apply elem_of_seq in Hi.
  assert (i' ∈ seq 0 n) as Hi' by (apply elem_of_seq; lia).
  rewrite Hsplit in Hi'. apply elem_of_app in Hi' as [Hi'|Hi']; [done|].
  apply elem_of_cons in Hi' as [->|Hi']; [lia|].
  pose proof (seq_sorted 0 n) as Hs. rewrite Hsplit in Hs.
  apply StronglySorted_app_1_r, StronglySorted_inv in Hs as [_ Hs].
  apply (proj1 (Forall_forall _ _) Hs) in Hi'. lia.
Qed.

Section SeedOrder.

Variable keywords : list str.
Variable threshold : Q.
Variable matrix : list (list Q).

(** The seeds come in increasing order of index, and the keyword of a seed
    occurs at no earlier index of the input. *)
Lemma seeds_increasing : StronglySorted lt (seeds keywords threshold matrix).
Proof.
  eapply sublist_sorted; [apply seeds_from_sublist|apply seq_sorted].
Qed.

Lemma seeds_first_occurrence i :
  i ∈ seeds keywords threshold matrix ->
  i < length keywords /\
  forall i', i' < i -> keyword_at keywords i' <> keyword_at keywords i.
Proof.
  intros Hi. split.
  - eapply elem_of_sublist in Hi; [|apply seeds_from_sublist].
    apply elem_of_seq in Hi. lia.
  - apply seeds_from_first in Hi as (_ & l1 & l2 & Hsplit & Hl1).
    intros i' Hlt. apply Hl1. by eapply seq_before.
Qed.

End SeedOrder.

(** * A call on a cold cache that merges nothing *)

Section NoMergeRun.

Variable keywords : list str.

Lemma singleton_representatives ks r :
  (forall k, k ∈ ks -> k ∈ keywords) ->
  Forall2 (fun c rep => representative keywords c = Some rep)
    (List.map (fun k : str => ({[ k ]} : gset str)) ks) r ->
  r = ks.
Proof.
  revert r. induction ks as [|k ks IH]; intros r Hin H; simpl in H.
  - by apply Forall2_nil_inv_l in H.
  - apply Forall2_cons_inv_l in H as (rep & r' & Hrep & H & ->).
    rewrite representative_singleton in Hrep by (apply Hin; by left).
    injection Hrep as <-. f_equal. apply IH; [|done].
    intros k' Hk'. apply Hin. by right.
Qed.

Lemma singleton_writes (m : gmap str str) k :
  NoDup keywords -> k ∈ keywords ->
  apply_writes
    (writes_of keywords (List.map (fun k : str => ({[ k ]} : gset str)) keywords))
    m !! k = Some k.
Proof.
  intros Hnodup Hk.
  pose proof Hk as Hsplit.
  apply list_elem_of_split in Hsplit as (l1 & l2 & Hsplit).
  rewrite Hsplit at 2. rewrite List.map_app. simpl.
  apply apply_writes_last.
  - by apply elem_of_singleton.
  - by apply representative_singleton.
  - intros c' Hc' Hkc'.
    apply list_elem_of_fmap in Hc' as (k' & -> & Hk').
    apply elem_of_singleton in Hkc'. subst k'.
    rewrite Hsplit in Hnodup.
    apply NoDup_app in Hnodup as (_ & _ & Hnodup).
    by apply NoDup_cons in Hnodup as [Hnot _].
Qed.

End NoMergeRun.

Lemma Forall2_Some_eq (ks r : list str) (m : gmap str str) :
  (forall k, k ∈ ks -> m !! k = Some k) ->
  Forall2 (fun k rep => m !! k = Some rep) ks r ->
  r = ks.
Proof.
  intros Hm H. induction H as [|k rep ks r Hk H IH]; [done|].
  rewrite (Hm k) in Hk by (by left). injection Hk as <-.
  f_equal. apply IH. intros k' Hk'. apply Hm. by right.
Qed.

Lemma all_aligned_cold (st : extractor) (keywords : list str) :
  keywords <> [] ->
  keyword_alignment_cache st = ∅ ->
  all_aligned st keywords = false.
Proof.
  intros Hne Hcold. destruct keywords as [|k ks]; [done|].
  unfold all_aligned. simpl. rewrite Hcold, lookup_empty.
  rewrite bool_decide_eq_false_2; [done|]. by intros [? [=]].
Qed.

(** * The properties of the specification *)

(** ** Frame properties of the two caches *)

(** C6.  [align_keywords] applied to the empty list returns the empty list
    and leaves the extractor as it was, for every state of the extractor
    and every embedding service: no prompt is sent to the service, no entry
    of either cache is written, and the result does not depend on what the
    caches hold. *)
Theorem align_keywords_empty
    (ollama_embeddings : str -> option vec)
    (cosine_similarity : vec -> vec -> option Q)
    (threshold : Q) (st : extractor) :
  align_keywords ollama_embeddings cosine_similarity [] threshold st
  = (Ok [], st).
Proof. reflexivity. Qed.

(** C10.  [extract_keywords] leaves the alignment cache as it was.  Each of
    [get_embedding], [extract_keywords] and [align_keywords] leaves every
    entry of the embedding cache in place with its vector, whether it
    returns or raises, and so does any sequence of calls of these methods:
    an entry of the embedding cache is there, with the same vector, for the
    lifetime of the extractor.  [get_embedding] on a cached text returns
    the cached vector and changes nothing; on a text that is not cached it
    touches no other key. *)
Theorem caches_frame
    (ollama_embeddings : str -> option vec)
    (cosine_similarity : vec -> vec -> option Q)
    (nlp : str -> option Doc) (lower : str -> str)
    (tfidf_feature_names : str -> option (list str)) :
  (forall text num_keywords st,
     keyword_alignment_cache
       (snd (extract_keywords ollama_embeddings cosine_similarity nlp lower
               tfidf_feature_names text num_keywords st))
     = keyword_alignment_cache st) /\
  (forall text st,
     embedding_cache st
     ⊆ embedding_cache (snd (get_embedding ollama_embeddings text st))) /\
  (forall text num_keywords st,
     embedding_cache st
     ⊆ embedding_cache
         (snd (extract_keywords ollama_embeddings cosine_similarity nlp lower
                 tfidf_feature_names text num_keywords st))) /\
  (forall keywords threshold st,
     embedding_cache st
     ⊆ embedding_cache
         (snd (align_keywords ollama_embeddings cosine_similarity keywords
                 threshold st))) /\
  (forall st st' text e,
     rtc (method_call ollama_embeddings cosine_similarity nlp lower
            tfidf_feature_names) st st' ->
     embedding_cache st !! text = Some e ->
     embedding_cache st' !! text = Some e) /\
  (forall text e st,
     embedding_cache st !! text = Some e ->
     get_embedding ollama_embeddings text st = (Ok e, st)) /\
  (forall text st k,
     k <> text ->
     embedding_cache (snd (get_embedding ollama_embeddings text st)) !! k
     = embedding_cache st !! k).
Proof.
  repeat split.
  - apply extract_keywords_alignment.
  - intros text st. apply get_embedding_grows.
  - intros text num_keywords st. apply extract_keywords_grows.
  - intros keywords threshold st. apply align_keywords_grows.
  - intros st st' text e Hcalls Hcached.
    eapply lookup_weaken; [exact Hcached|].
    by eapply method_calls_grow.
  - intros text e st. apply get_embedding_cached.
  - intros text st k. apply get_embedding_other.
Qed.

Lemma caches_frame_witness :
  embedding_cache Demo.after_felines !! Demo.chat = Some [1; 0]%Q /\
  get_embedding Demo.embeddings Demo.chat Demo.after_felines
  = (Ok [1; 0]%Q, Demo.after_felines).
Proof.
  assert (embedding_cache Demo.after_felines !! Demo.chat = Some [1; 0]%Q)
    as H by (vm_compute; reflexivity).
  split; [exact H|].
  exact (proj1 (proj2 (proj2 (proj2 (proj2 (proj2
           (caches_frame Demo.embeddings Demo.dot Demo.nlp Demo.lower
              Demo.tfidf_words))))))
           Demo.chat [1; 0]%Q Demo.after_felines H).
Defined.

(** ** The candidate filter *)

(** C3.  The filter lets through the candidate [une matrice n × m], whose
    sign [×] (U+00D7, inside the range [À-ÿ] of the pattern) is not a
    letter, white space or the hyphen; so does the candidate generator on a
    document for which the annotator reports that noun chunk.  Apart from
    [×] and [÷], what the filter keeps is longer than 2 characters and made
    of letters, white space and hyphens, and a candidate with a digit, such
    as [module1], or with an ASCII punctuation mark other than the hyphen
    is discarded. *)
Theorem filter_keeps_multiplication_sign :
  Filter.keep Demo.matrice_n_m = true /\
  215%N ∈ Demo.matrice_n_m /\
  Filter.allowed_by_spec 215 = false /\
  Demo.nlp Demo.cours = Some Demo.cours_doc /\
  Demo.matrice_n_m
    ∈ candidate_generator Demo.lower Demo.tfidf_fails Demo.cours_doc
        Demo.cours /\
  (forall k,
     Filter.keep k = true <->
     2 < length k /\
     forall c, c ∈ k ->
       Filter.allowed_by_spec c = true \/ c = 215%N \/ c = 247%N) /\
  (forall k c,
     c ∈ k ->
     Filter.is_digit c = true \/
     (Filter.is_ascii_punctuation c = true /\ c <> Filter.hyphen) ->
     Filter.keep k = false) /\
  Filter.keep Demo.module1 = false.
Proof.
  split; [reflexivity|].
  split; [decide_by_computation|].
  split; [reflexivity|].
  split; [vm_compute; reflexivity|].
  split; [decide_by_computation|].
  split; [|split; [apply FilterFacts.keep_rejects|reflexivity]].
  intros k. rewrite FilterFacts.keep_spec. split; intros [Hlen Hall].
  - split; [done|]. intros c Hc. by apply FilterFacts.re_class_chars, Hall.
  - split; [done|]. intros c Hc.
    destruct (Hall c Hc) as [H|[->| ->]]; [|reflexivity..].
    unfold Filter.allowed_by_spec, Filter.is_letter,
      Filter.is_accented_latin_letter, Filter.is_ascii_letter in H.
    unfold Filter.re_class.
    rewrite !orb_true_iff, !andb_true_iff in *. tauto.
Qed.

(** ** [extract_keywords] *)

(** C7.  When the TF-IDF step raises, the candidates are those of the three
    other methods that pass the filter, and [extract_keywords] does what it
    does when the TF-IDF step finds no term at all: same result or same
    exception, same state after.  An exception of the call is then the
    failure of the embedding service, or the [ValueError] of the annotator
    or of the cosine similarity of two cached embeddings, which the code
    does not catch: never that of the TF-IDF step. *)
Theorem tfidf_failure_swallowed
    (ollama_embeddings : str -> option vec)
    (cosine_similarity : vec -> vec -> option Q)
    (nlp : str -> option Doc) (lower : str -> str)
    (tfidf_feature_names : str -> option (list str))
    (text : str) (num_keywords : Z) (st : extractor) :
  tfidf_feature_names text = None ->
  (forall doc k,
     k ∈ candidate_generator lower tfidf_feature_names doc text <->
     Filter.keep k = true /\
     (k ∈ List.map lower (ents doc) \/
      k ∈ List.map lower (noun_chunks doc) \/
      k ∈ List.map (fun t => lower (token_text t))
            (List.filter (fun t => bool_decide (pos_ t ∈ important_pos))
               (tokens doc)))) /\
  extract_keywords ollama_embeddings cosine_similarity nlp lower
    tfidf_feature_names text num_keywords st
  = extract_keywords ollama_embeddings cosine_similarity nlp lower
      (fun _ => Some []) text num_keywords st /\
  (forall e st',
     extract_keywords ollama_embeddings cosine_similarity nlp lower
       tfidf_feature_names text num_keywords st = (Raise e, st') ->
     e = ProviderError \/
     e = ValueError /\
     (nlp text = None \/
      exists k a b,
        embedding_cache st' !! k = Some a /\
        embedding_cache st' !! text = Some b /\
        cosine_similarity a b = None)).
Proof.
  intros Hfail.
  assert (forall doc,
            candidate_generator lower tfidf_feature_names doc text
            = candidate_generator lower (fun _ => Some []) doc text) as Heq.
  { intros doc. unfold candidate_generator. by rewrite Hfail. }
  split; [|split].
  - intros doc k. unfold candidate_generator. rewrite Hfail.
    rewrite elem_of_filter, !elem_of_add_all, elem_of_empty. tauto.
  - unfold extract_keywords. rewrite !bind_unfold.
    destruct (call_nlp nlp text st) as [[doc|e] s0]; [|done].
    by rewrite Heq.
  - intros e st' H.
    apply extract_keywords_Raise in H
      as [(-> & Hnone & _)|(doc & Hdoc & [->|(-> & k & a & b & _ & H)])].
    + right. split; [done|]. by left.
    + by left.
    + right. split; [done|]. right. by exists k, a, b.
Qed.

Lemma tfidf_failure_swallowed_witness :
  Demo.tfidf_fails Demo.document = None /\
  Demo.extract Demo.tfidf_fails Demo.document 3 init
  = Demo.extract (fun _ => Some []) Demo.document 3 init.
Proof.
  split; [reflexivity|].
  apply (tfidf_failure_swallowed Demo.embeddings Demo.dot Demo.nlp Demo.lower
           Demo.tfidf_fails Demo.document 3 init).
  reflexivity.
Defined.

(** C8, as it is stated, fails: on a document without any candidate the
    embedding of the document is still asked for, and with the embedding
    service down the call raises. *)
Lemma extract_keywords_no_candidates_raises :
  Demo.nlp Demo.numbers = Some Demo.empty_doc /\
  candidate_generator Demo.lower Demo.tfidf_fails Demo.empty_doc Demo.numbers
  = ∅ /\
  fst (extract_keywords Demo.unreachable Demo.dot Demo.nlp Demo.lower
         Demo.tfidf_fails Demo.numbers 3 init)
  = Raise ProviderError.
Proof. repeat split; vm_compute; reflexivity. Qed.

(** C8, amended.  On a document in which the four methods find no
    candidate that survives the filter, [extract_keywords] returns the
    empty list, provided the embedding of the document itself is cached or
    served: with no candidate no similarity is computed. *)
Theorem extract_keywords_no_candidates
    (ollama_embeddings : str -> option vec)
    (cosine_similarity : vec -> vec -> option Q)
    (nlp : str -> option Doc) (lower : str -> str)
    (tfidf_feature_names : str -> option (list str))
    (text : str) (doc : Doc) (num_keywords : Z) (st : extractor) :
  nlp text = Some doc ->
  candidate_generator lower tfidf_feature_names doc text = ∅ ->
  is_Some (embedding_cache st !! text) \/ is_Some (ollama_embeddings text) ->
  exists st',
    extract_keywords ollama_embeddings cosine_similarity nlp lower
      tfidf_feature_names text num_keywords st = (Ok [], st').
Proof.
  intros Hdoc Hnone Htext. unfold extract_keywords.
  rewrite bind_unfold, call_nlp_run, Hdoc.
  rewrite Hnone, elements_empty. simpl.
  destruct (get_embedding_returns ollama_embeddings text st Htext)
    as (e & st' & Hget).
  exists st'. erewrite bind_run; [|reflexivity].
  erewrite bind_run; [|exact Hget].
  erewrite bind_run; [|reflexivity].
  unfold ret, slice_to. simpl.
  destruct (0 <=? num_keywords)%Z; by rewrite take_nil.
Qed.

Lemma extract_keywords_no_candidates_witness :
  candidate_generator Demo.lower Demo.tfidf_fails Demo.empty_doc Demo.numbers
  = ∅ /\
  exists st', Demo.extract Demo.tfidf_fails Demo.numbers 3 init = (Ok [], st').
Proof.
  assert (candidate_generator Demo.lower Demo.tfidf_fails Demo.empty_doc
            Demo.numbers = ∅) as Hnone by (vm_compute; reflexivity).
  split; [exact Hnone|].
  apply (extract_keywords_no_candidates Demo.embeddings Demo.dot Demo.nlp
           Demo.lower Demo.tfidf_fails Demo.numbers Demo.empty_doc 3 init).
  - vm_compute. reflexivity.
  - exact Hnone.
  - right. vm_compute. eexists. reflexivity.
Defined.

(** C4.  A call of [extract_keywords] that returns, for a count
    [num_keywords >= 0], returns at most [num_keywords] items, each of them
    a candidate of the text, in order of non-increasing similarity to the
    document.  (The candidate set need not be non-empty for this.) *)
Theorem extract_keywords_top_k
    (ollama_embeddings : str -> option vec)
    (cosine_similarity : vec -> vec -> option Q)
    (nlp : str -> option Doc) (lower : str -> str)
    (tfidf_feature_names : str -> option (list str))
    (text : str) (num_keywords : Z) (st : extractor)
    (r : list str) (st' : extractor) :
  (0 <= num_keywords)%Z ->
  extract_keywords ollama_embeddings cosine_similarity nlp lower
    tfidf_feature_names text num_keywords st = (Ok r, st') ->
  (Z.of_nat (length r) <= num_keywords)%Z /\
  (exists doc,
     nlp text = Some doc /\
     forall k, k ∈ r ->
       k ∈ candidate_generator lower tfidf_feature_names doc text) /\
  StronglySorted
    (fun a b =>
       (document_score cosine_similarity st' text b
        <= document_score cosine_similarity st' text a)%Q)
    r.
Proof.
  intros HK H.
  apply extract_keywords_Ok in H as (doc & scores & Hdoc & Hfst & Hscore & ->).
  split; [|split].
  - rewrite length_map. by apply slice_to_length.
  - exists doc. split; [done|].
    intros k Hk. apply elem_of_elements. rewrite <- Hfst.
    apply list_elem_of_fmap in Hk as (x & -> & Hx).
    apply list_elem_of_fmap_2.
    destruct (slice_to_take num_keywords (sorted_reverse scores))
      as (n & Hn & _).
    rewrite Hn in Hx. apply elem_of_take in Hx as (i & Hx & _).
    apply list_elem_of_lookup_2 in Hx. by rewrite sorted_reverse_perm in Hx.
  - destruct (slice_to_take num_keywords (sorted_reverse scores))
      as (n & -> & _).
    apply StronglySorted_fmap_fst.
    + intros x Hx. apply Hscore.
      apply elem_of_take in Hx as (i & Hx & _).
      apply list_elem_of_lookup_2 in Hx. by rewrite sorted_reverse_perm in Hx.
    + apply StronglySorted_take, sorted_reverse_sorted.
Qed.

Lemma extract_keywords_top_k_witness :
  Demo.extract Demo.tfidf_words Demo.document 2 init
  = (Ok [Demo.chien; Demo.chats],
     snd (Demo.extract Demo.tfidf_words Demo.document 2 init)) /\
  (Z.of_nat (length [Demo.chien; Demo.chats]) <= 2)%Z.
Proof.
  assert (Demo.extract Demo.tfidf_words Demo.document 2 init
          = (Ok [Demo.chien; Demo.chats],
             snd (Demo.extract Demo.tfidf_words Demo.document 2 init)))
    as Hrun by (vm_compute; reflexivity).
  split; [exact Hrun|].
  apply (extract_keywords_top_k Demo.embeddings Demo.dot Demo.nlp Demo.lower
           Demo.tfidf_words Demo.document 2 init
           [Demo.chien; Demo.chats]
           (snd (Demo.extract Demo.tfidf_words Demo.document 2 init))).
  - lia.
  - exact Hrun.
Defined.

(** ** [align_keywords] *)

(** C2, as it is stated, fails: when every keyword already has a cached
    alignment the call takes the fast path and returns one representative
    per keyword of the input.  After a first call on [chat; chats; chien]
    the same input gives three representatives, [chat] twice, although
    these keywords form two clusters and the call forms none (it makes no
    assignment to the alignment cache). *)
Lemma align_keywords_warm_cache_per_keyword :
  all_aligned Demo.after_felines Demo.felines = true /\
  Demo.align Demo.felines (85 # 100) Demo.after_felines
  = (Ok [Demo.chat; Demo.chat; Demo.chien], Demo.after_felines) /\
  length (clusters_formed Demo.dot Demo.felines (85 # 100) Demo.after_felines)
  = 2.
Proof. repeat split; vm_compute; reflexivity. Qed.

(** C2, amended.  A call that returns after clustering (some keyword of the
    input had no cached alignment) returns exactly one representative per
    cluster formed, each a member of its cluster, in the order in which the
    clusters were created: the clusters are those that the loops form from
    the similarity matrix of the cached embeddings, they are those of the
    seeds, the seeds come in increasing order of index, and the keyword of
    a seed occurs at no earlier index of the input.  A call on the fast path (every keyword
    had a cached alignment) changes nothing and returns the cached
    representative of every keyword of the input, in the order of the
    input. *)
Theorem align_keywords_one_per_cluster
    (ollama_embeddings : str -> option vec)
    (cosine_similarity : vec -> vec -> option Q)
    (keywords : list str) (threshold : Q)
    (st : extractor) (r : list str) (st' : extractor) :
  align_keywords ollama_embeddings cosine_similarity keywords threshold st
  = (Ok r, st') ->
  (all_aligned st keywords = false ->
   let matrix :=
     similarity_values cosine_similarity keywords (embedding_cache st') in
   let clusters := clusters_formed cosine_similarity keywords threshold st' in
   let seeds := seeds keywords threshold matrix in
   similarity_matrix cosine_similarity keywords (embedding_cache st') st'
   = (Ok matrix, st') /\
   clusters = cluster_keywords keywords threshold matrix /\
   length r = length clusters /\
   Forall2 (fun c rep => representative keywords c = Some rep /\ rep ∈ c)
     clusters r /\
   clusters = List.map (cluster_of_seed keywords threshold matrix) seeds /\
   StronglySorted lt seeds /\
   forall i, i ∈ seeds ->
     i < length keywords /\
     forall i', i' < i -> keyword_at keywords i' <> keyword_at keywords i) /\
  (all_aligned st keywords = true ->
   st' = st /\
   Forall2 (fun k rep => keyword_alignment_cache st !! k = Some rep)
     keywords r).
Proof.
  intros Hrun. split.
  - intros Hslow matrix clusters seeds.
    destruct (align_keywords_slow_Ok _ _ _ _ _ _ _ Hslow Hrun)
      as (Hreps & _ & _ & Hdef).
    fold clusters in Hreps.
    split; [by rewrite similarity_matrix_run, Hdef|].
    split; [done|].
    split; [symmetry; by eapply Forall2_length|].
    split.
    { eapply Forall2_impl; [exact Hreps|]. intros c rep Hrep.
      split; [done|]. by apply representative_Some in Hrep as [_ ?]. }
    split; [apply cluster_keywords_seeds|].
    split; [apply seeds_increasing|].
    apply seeds_first_occurrence.
  - intros Hfast.
    destruct (align_keywords_fast ollama_embeddings cosine_similarity
                keywords threshold st Hfast) as (r' & Hr' & Hall).
    rewrite Hr' in Hrun. by injection Hrun as <- <-.
Qed.

Lemma align_keywords_one_per_cluster_witness :
  Demo.align Demo.felines (85 # 100) init
  = (Ok [Demo.chat; Demo.chien], Demo.after_felines) /\
  all_aligned init Demo.felines = false /\
  length [Demo.chat; Demo.chien]
  = length (clusters_formed Demo.dot Demo.felines (85 # 100)
              Demo.after_felines).
Proof.
  assert (Demo.align Demo.felines (85 # 100) init
          = (Ok [Demo.chat; Demo.chien], Demo.after_felines)) as Hrun
    by (vm_compute; reflexivity).
  assert (all_aligned init Demo.felines = false) as Hslow by reflexivity.
  split; [exact Hrun|]. split; [exact Hslow|].
  apply (proj1 (proj2 (proj2
           (proj1 (align_keywords_one_per_cluster Demo.embeddings Demo.dot
                     Demo.felines (85 # 100) init [Demo.chat; Demo.chien]
                     Demo.after_felines Hrun) Hslow)))).
Defined.




(** C9.  The inner loop of a seed adds every other keyword whose similarity
    to the seed reaches the threshold, whether or not that keyword is
    already in [used].  After a call that returns after clustering, the
    entry of a keyword is the representative of the last cluster that
    holds it.  And there is an input whose clusters are not disjoint: for
    [loup; loups; louve] the keyword [loups] is in the cluster of [loup]
    and in the cluster of [louve], and its entry ends as the representative
    [loups] of the second, not the representative [loup] of the first. *)
Theorem clusters_overlap :
  (forall (keywords : list str) (threshold : Q) (matrix : list (list Q))
          (clusters : list (gset str)) (used : gset str) (i j : nat),
     keyword_at keywords i ∉ used ->
     j < length keywords ->
     close_enough threshold matrix i j = true ->
     exists c,
       cluster_step keywords threshold matrix (length keywords)
         (clusters, used) i = (clusters ++ [c], c ∪ used) /\
       keyword_at keywords j ∈ c) /\
  (forall (ollama_embeddings : str -> option vec)
          (cosine_similarity : vec -> vec -> option Q)
          (keywords : list str) (threshold : Q)
          (st : extractor) (r : list str) (st' : extractor)
          (l1 : list (gset str)) (c : gset str) (l2 : list (gset str))
          (rep k : str),
     all_aligned st keywords = false ->
     align_keywords ollama_embeddings cosine_similarity keywords threshold st
     = (Ok r, st') ->
     clusters_formed cosine_similarity keywords threshold st'
     = l1 ++ c :: l2 ->
     k ∈ c ->
     (forall c', c' ∈ l2 -> k ∉ c') ->
     representative keywords c = Some rep ->
     keyword_alignment_cache st' !! k = Some rep) /\
  (exists c1 c2,
     fst (Demo.align Demo.wolves (3 # 4) init) = Ok [Demo.loup; Demo.loups] /\
     clusters_formed Demo.dot Demo.wolves (3 # 4) Demo.after_wolves
     = [c1; c2] /\
     Demo.loups ∈ c1 /\ Demo.loups ∈ c2 /\
     representative Demo.wolves c1 = Some Demo.loup /\
     representative Demo.wolves c2 = Some Demo.loups /\
     keyword_alignment_cache Demo.after_wolves !! Demo.loups
     = Some Demo.loups).
Proof.
  split; [|split].
  - intros keywords threshold matrix clusters used i j Hseed Hj Hclose.
    exists (cluster_of_seed keywords threshold matrix i).
    rewrite cluster_step_eq, bool_decide_eq_false_2 by done.
    split; [done|]. unfold cluster_of_seed. apply elem_of_union. right.
    apply elem_of_similar_to. by exists j.
  - intros ollama_embeddings cosine_similarity keywords threshold st r st'
      l1 c l2 rep k Hslow Hrun Hsplit Hk Hlast Hrep.
    destruct (align_keywords_slow_Ok _ _ _ _ _ _ _ Hslow Hrun)
      as (_ & Hkac & _).
    rewrite Hkac, Hsplit. by apply apply_writes_last.
  - set (matrix := similarity_values Demo.dot Demo.wolves
                     (embedding_cache Demo.after_wolves)).
    exists (cluster_of_seed Demo.wolves (3 # 4) matrix 0),
           (cluster_of_seed Demo.wolves (3 # 4) matrix 2).
    split; [vm_compute; reflexivity|].
    split; [vm_compute; reflexivity|].
    split; [decide_by_computation|].
    split; [decide_by_computation|].
    repeat split; vm_compute; reflexivity.
Qed.

Lemma clusters_overlap_witness :
  exists c,
    cluster_step Demo.wolves (3 # 4)
      (similarity_values Demo.dot Demo.wolves
         (embedding_cache Demo.after_wolves))
      (length Demo.wolves) ([{[ Demo.loup; Demo.loups ]}],
                            {[ Demo.loup; Demo.loups ]}) 2
    = ([{[ Demo.loup; Demo.loups ]}] ++ [c],
       c ∪ {[ Demo.loup; Demo.loups ]}) /\
    keyword_at Demo.wolves 1 ∈ c.
Proof.
  apply (proj1 clusters_overlap Demo.wolves (3 # 4)
           (similarity_values Demo.dot Demo.wolves
              (embedding_cache Demo.after_wolves))
           [{[ Demo.loup; Demo.loups ]}] {[ Demo.loup; Demo.loups ]} 2 1).
  - apply (bool_decide_eq_false_1
             (keyword_at Demo.wolves 2
                ∈ ({[ Demo.loup; Demo.loups ]} : gset str))).
    vm_compute. reflexivity.
  - simpl. lia.
  - vm_compute. reflexivity.
Defined.

(** C1, as it is stated, fails: on a cold cache the first call on
    [chat; chats; chien] clusters and returns one representative per
    cluster, the second call finds every keyword in the alignment cache
    and returns one representative per keyword. *)
Lemma align_keywords_twice_differs :
  embedding_cache init = ∅ /\
  keyword_alignment_cache init = ∅ /\
  Demo.align Demo.felines (85 # 100) init
  = (Ok [Demo.chat; Demo.chien], Demo.after_felines) /\
  fst (Demo.align Demo.felines (85 # 100) Demo.after_felines)
  = Ok [Demo.chat; Demo.chat; Demo.chien] /\
  [Demo.chat; Demo.chien] <> [Demo.chat; Demo.chat; Demo.chien].
Proof. repeat split; try (vm_compute; reflexivity). done. Qed.

(** C1, amended.  On a cold cache, the first call on a non-empty input
    returns when the embedding service answers for every keyword and
    [cosine_similarity] is defined on the answers for every two of them.
    When the first call returns, the second call returns too.  It changes
    nothing and returns, for each keyword of the input in order, the
    representative that the first call left in the alignment cache: it is
    as long as the input, and each of its items is an item of the first
    output.  The first output has one item for each cluster and is never
    longer than the second; the two outputs are identical exactly when the
    first call formed as many clusters as the input has keywords, and
    otherwise the first output is shorter than the second. *)
Theorem align_keywords_twice_cold_cache
    (ollama_embeddings : str -> option vec)
    (cosine_similarity : vec -> vec -> option Q)
    (keywords : list str) (threshold : Q) (st : extractor) :
  keywords <> [] ->
  embedding_cache st = ∅ ->
  keyword_alignment_cache st = ∅ ->
  ((forall k, k ∈ keywords -> is_Some (ollama_embeddings k)) ->
   (forall k1 k2 a b,
      k1 ∈ keywords -> k2 ∈ keywords ->
      ollama_embeddings k1 = Some a -> ollama_embeddings k2 = Some b ->
      is_Some (cosine_similarity a b)) ->
   exists r1 st1,
     align_keywords ollama_embeddings cosine_similarity keywords threshold st
     = (Ok r1, st1)) /\
  (forall r1 st1,
     align_keywords ollama_embeddings cosine_similarity keywords threshold st
     = (Ok r1, st1) ->
     exists r2,
       align_keywords ollama_embeddings cosine_similarity keywords threshold
         st1
       = (Ok r2, st1) /\
       length r1
       = length (clusters_formed cosine_similarity keywords threshold st1) /\
       Forall2 (fun k rep => keyword_alignment_cache st1 !! k = Some rep)
         keywords r2 /\
       length r2 = length keywords /\
       (forall rep, rep ∈ r2 -> rep ∈ r1) /\
       length r1 <= length r2 /\
       (r1 = r2 <-> length r1 = length keywords) /\
       (r1 <> r2 -> length r1 < length r2)).
Proof.
  intros Hne Hemb Hcold.
  pose proof (all_aligned_cold st keywords Hne Hcold) as Hslow.
  split.
  { intros Hserved Hcos.
    apply (align_keywords_slow_returns ollama_embeddings cosine_similarity
             keywords threshold st Hslow).
    - intros k Hk. right. by apply Hserved.
    - intros k1 k2 a b Hk1 Hk2 [Ha|Ha] [Hb|Hb];
        rewrite ?Hemb, ?lookup_empty in *; try done.
      by apply (Hcos k1 k2). }
  intros r1 st1 Hrun1.
  pose proof (align_keywords_aligns _ _ _ _ _ _ _ Hrun1) as Hwarm.
  destruct (align_keywords_fast ollama_embeddings cosine_similarity
              keywords threshold st1 Hwarm) as (r2 & Hrun2 & Hr2).
  destruct (align_keywords_slow_Ok _ _ _ _ _ _ _ Hslow Hrun1)
    as (Hreps & Hkac & _).
  rewrite Hcold in Hkac.
  set (matrix := similarity_values cosine_similarity keywords
                   (embedding_cache st1)) in *.
  assert (length r1 = length (seeds keywords threshold matrix)) as Hr1.
  { rewrite <- (Forall2_length _ _ _ Hreps).
    unfold clusters_formed. fold matrix.
    by rewrite cluster_keywords_seeds, length_map. }
  assert (length r2 = length keywords) as Hlen2.
  { symmetry. by eapply Forall2_length. }
  assert (length r1 <= length keywords) as Hle.
  { rewrite Hr1. rewrite <- (length_seq (length keywords) 0).
    apply sublist_length, seeds_from_sublist. }
  assert (r1 = r2 <-> length r1 = length keywords) as Hiff.
  { split.
    - intros ->. exact Hlen2.
    - intros Hlen.
      assert (seeds keywords threshold matrix = seq 0 (length keywords))
        as Hseeds.
      { apply sublist_full; [apply seeds_from_sublist|].
        rewrite length_seq, <- Hlen, Hr1. done. }
      pose proof (similarity_values_symmetric cosine_similarity keywords
                    (embedding_cache st1)) as Hsym.
      fold matrix in Hsym.
      pose proof (all_seeds_clusters keywords threshold matrix Hsym Hseeds)
        as Hclusters.
      pose proof (all_seeds_NoDup keywords threshold matrix Hseeds) as Hnodup.
      unfold clusters_formed in Hreps, Hkac. fold matrix in Hreps, Hkac.
      rewrite Hclusters in Hreps, Hkac.
      apply singleton_representatives in Hreps; [|done].
      assert (r2 = keywords) as ->; [|done].
      eapply Forall2_Some_eq; [|exact Hr2].
      intros k Hk. rewrite Hkac. by apply singleton_writes. }
  exists r2.
  split; [done|].
  split; [symmetry; by eapply Forall2_length|]. split; [done|].
  split; [done|]. split; [|split; [lia|split; [done|]]].
  - intros rep Hrep.
    apply list_elem_of_lookup in Hrep as [i Hi].
    destruct (Forall2_lookup_r _ _ _ _ _ Hr2 Hi) as (k & _ & Hk).
    rewrite Hkac in Hk.
    apply apply_writes_lookup_Some in Hk as [Hk|Hk];
      [|by rewrite lookup_empty in Hk].
    apply elem_of_writes_of in Hk as (c & Hc & _ & Hcrep).
    apply list_elem_of_lookup in Hc as [p Hp].
    destruct (Forall2_lookup_l _ _ _ _ _ Hreps Hp) as (rep' & Hrep' & Heq).
    rewrite Hcrep in Heq. injection Heq as <-.
    by eapply list_elem_of_lookup_2.
  - intros Hdiff.
    destruct (decide (length r1 = length keywords)) as [Heq|Hneq].
    + by apply Hiff in Heq.
    + lia.
Qed.

Lemma align_keywords_twice_cold_cache_witness :
  (exists r1 st1, Demo.align Demo.felines (85 # 100) init = (Ok r1, st1)) /\
  exists r2,
    Demo.align Demo.felines (85 # 100) Demo.after_felines
    = (Ok r2, Demo.after_felines) /\
    length r2 = length Demo.felines /\
    length [Demo.chat; Demo.chien] < length r2.
Proof.
  destruct (align_keywords_twice_cold_cache Demo.embeddings Demo.dot
              Demo.felines (85 # 100) init)
    as [Hfirst Htwice].
  - done.
  - reflexivity.
  - reflexivity.
  - split.
    + apply Hfirst.
      * intros k Hk. unfold Demo.felines in Hk.
        repeat (apply elem_of_cons in Hk as [->|Hk]);
          try (vm_compute; eexists; reflexivity).
        by apply elem_of_nil in Hk.
      * intros k1 k2 a b Hk1 Hk2 Ha Hb. unfold Demo.felines in Hk1, Hk2.
        repeat (apply elem_of_cons in Hk1 as [->|Hk1]);
          try (by apply elem_of_nil in Hk1);
          repeat (apply elem_of_cons in Hk2 as [->|Hk2]);
          try (by apply elem_of_nil in Hk2);
          vm_compute in Ha, Hb; injection Ha as <-; injection Hb as <-;
          vm_compute; eexists; reflexivity.
    + destruct (Htwice [Demo.chat; Demo.chien] Demo.after_felines)
        as (r2 & H2 & _ & _ & Hlen & _).
      * vm_compute. reflexivity.
      * exists r2. split; [exact H2|]. split; [exact Hlen|].
        rewrite Hlen. apply Nat.ltb_lt. vm_compute. reflexivity.
Defined.

(** * Beyond the claims: further properties of the engine *)

(** * Further properties of [extract_keywords] *)

Section ExtractMore.

Variable ollama_embeddings : str -> option vec.
Variable cosine_similarity : vec -> vec -> option Q.
Variable nlp : str -> option Doc.
Variable lower : str -> str.
Variable tfidf_feature_names : str -> option (list str).

#[local] Abbreviation embed_pair :=
  (fun k : str => let* e := get_embedding ollama_embeddings k in ret (k, e)).
#[local] Abbreviation candidates_of :=
  (candidate_generator lower tfidf_feature_names).

(** What a call that returns has read from the cache. *)
Lemma extract_keywords_run text num_keywords st r st' :
  extract_keywords ollama_embeddings cosine_similarity nlp lower
    tfidf_feature_names text num_keywords st = (Ok r, st') ->
  exists doc ces te,
    nlp text = Some doc /\
    List.map fst ces = elements (candidates_of doc text) /\
    (forall x, x ∈ ces -> embedding_cache st' !! fst x = Some (snd x)) /\
    embedding_cache st' !! text = Some te /\
    forallb (fun kv => bool_decide (is_Some (cosine_similarity (snd kv) te)))
      ces = true /\
    r = List.map fst
          (slice_to num_keywords
             (sorted_reverse
                (List.map (fun kv : str * vec =>
                             (fst kv, cosine_value cosine_similarity (snd kv) te))
                   ces))).
Proof.
  unfold extract_keywords. intros H.
  apply bind_Ok in H as (doc & s0 & Hdoc & H).
  rewrite call_nlp_run in Hdoc.
  destruct (nlp text) as [doc'|] eqn:Hnlp; [|done].
  injection Hdoc as -> <-.
  apply bind_Ok in H as (ces & s1 & Hces & H).
  apply bind_Ok in H as (te & s2 & Hte & H).
  apply bind_Ok in H as (scores & s3 & Hscores & [= <- <-]).
  rewrite scores_run in Hscores.
  destruct (forallb _ ces) eqn:Hdef; [|done]. injection Hscores as <- <-.
  apply candidate_embeddings_Ok in Hces as (Hfst & _ & Hall).
  pose proof (get_embedding_grows ollama_embeddings text s1) as Hg.
  rewrite Hte in Hg. simpl in Hg.
  apply get_embedding_Ok in Hte as [Hte _].
  exists doc, ces, te. repeat split; try done.
  intros x Hx. eapply lookup_weaken; [by apply Hall|exact Hg].
Qed.

Lemma slice_to_sublist {A} (k : Z) (l : list A) : sublist (slice_to k l) l.
Proof.
  destruct (slice_to_take k l) as (n & -> & _). apply sublist_take.
Qed.

Lemma slice_to_exact_length {A} (k : Z) (l : list A) :
  Z.of_nat (length (slice_to k l))
  = if (0 <=? k)%Z then Z.min k (Z.of_nat (length l))
    else Z.max 0 (Z.of_nat (length l) + k).
Proof.
  unfold slice_to. destruct (0 <=? k)%Z eqn:Hk; rewrite length_take.
  - apply Z.leb_le in Hk. lia.
  - apply Z.leb_gt in Hk. lia.
Qed.

(** X1.  A call of [extract_keywords] that returns gives distinct items, and
    exactly as many as the slice [[:num_keywords]] leaves of the
    candidates: the smaller of [num_keywords] and the number of candidates
    when [num_keywords >= 0], and the number of candidates less
    [-num_keywords] (or none) when it is negative. *)
Theorem extract_keywords_exact_count text num_keywords st r st' :
  extract_keywords ollama_embeddings cosine_similarity nlp lower
    tfidf_feature_names text num_keywords st = (Ok r, st') ->
  NoDup r /\
  exists doc,
    nlp text = Some doc /\
    Z.of_nat (length r)
    = if (0 <=? num_keywords)%Z
      then Z.min num_keywords (Z.of_nat (size (candidates_of doc text)))
      else Z.max 0 (Z.of_nat (size (candidates_of doc text)) + num_keywords).
Proof.
  intros H.
  apply extract_keywords_Ok in H as (doc & scores & Hdoc & Hfst & _ & ->).
  split.
  - apply (sublist_NoDup _ (fst <$> sorted_reverse scores)).
    + rewrite sorted_reverse_perm.
      change (NoDup (List.map fst scores)). rewrite Hfst.
      apply NoDup_elements.
    + apply (fmap_sublist fst), slice_to_sublist.
  - exists doc. split; [done|].
    rewrite length_map, slice_to_exact_length.
    rewrite (Permutation_length (sorted_reverse_perm scores)).
    rewrite <- (length_map fst scores), Hfst. done.
Qed.

(** X2.  No candidate that [extract_keywords] leaves out is closer to the
    document than a candidate it returns. *)
Theorem extract_keywords_keeps_best text doc num_keywords st r st' k k' :
  extract_keywords ollama_embeddings cosine_similarity nlp lower
    tfidf_feature_names text num_keywords st = (Ok r, st') ->
  nlp text = Some doc ->
  k ∈ candidates_of doc text -> k ∉ r -> k' ∈ r ->
  (document_score cosine_similarity st' text k
   <= document_score cosine_similarity st' text k')%Q.
Proof.
  intros H Hdoc Hk Hout Hin.
  apply extract_keywords_Ok in H as (doc' & scores & Hdoc' & Hfst & Hscore & ->).
  rewrite Hdoc in Hdoc'. injection Hdoc' as <-.
  destruct (slice_to_take num_keywords (sorted_reverse scores))
    as (n & Hn & _).
  rewrite Hn in Hout, Hin.
  pose proof (sorted_reverse_sorted scores) as Hsorted.
  rewrite <- (take_drop n (sorted_reverse scores)) in Hsorted.
  apply list_elem_of_fmap in Hin as (x' & -> & Hx').
  apply elem_of_elements in Hk. rewrite <- Hfst in Hk.
  apply list_elem_of_fmap in Hk as (x & -> & Hx).
  rewrite <- (sorted_reverse_perm scores) in Hx.
  rewrite <- (take_drop n (sorted_reverse scores)) in Hx.
  apply elem_of_app in Hx as [Hx|Hx].
  { exfalso. apply Hout. by apply list_elem_of_fmap_2. }
  pose proof (StronglySorted_app_1_elem_of _ _ _ _ _ Hsorted Hx' Hx) as Hle.
  unfold score_ge in Hle.
  rewrite <- (Hscore x), <- (Hscore x'); [done| |].
  - rewrite <- (sorted_reverse_perm scores).
    apply elem_of_take in Hx' as (i & Hx' & _).
    by eapply list_elem_of_lookup_2.
  - rewrite <- (sorted_reverse_perm scores).
    eapply elem_of_sublist; [exact Hx|apply sublist_drop].
Qed.

End ExtractMore.

Section ExtractReplay.

Variable cosine_similarity : vec -> vec -> option Q.
Variable nlp : str -> option Doc.
Variable lower : str -> str.
Variable tfidf_feature_names : str -> option (list str).

(** With every key cached, the dict of line 77 is read from the cache. *)
Lemma candidate_embeddings_cached ollama_embeddings (ces : list (str * vec)) st :
  (forall x, x ∈ ces -> embedding_cache st !! fst x = Some (snd x)) ->
  comprehension
    (fun k : str => let* e := get_embedding ollama_embeddings k in ret (k, e))
    (List.map fst ces) st
  = (Ok ces, st).
Proof.
  induction ces as [|[k e] ces IH]; intros Hall; [done|].
  simpl. erewrite bind_run.
  2:{ erewrite bind_run; [reflexivity|].
      apply get_embedding_cached. apply (Hall (k, e)). by left. }
  erewrite bind_run; [reflexivity|].
  apply IH. intros x Hx. apply Hall. by right.
Qed.

(** X3.  Once [extract_keywords] has returned for a text, the same call from
    any later state that kept the embedding cache returns the same list and
    changes nothing, whatever the embedding service then answers: all the
    embeddings it needs are cached. *)
Theorem extract_keywords_warm_rerun ollama_embeddings ollama_embeddings'
    text num_keywords st r st' st'' :
  extract_keywords ollama_embeddings cosine_similarity nlp lower
    tfidf_feature_names text num_keywords st = (Ok r, st') ->
  cache_grows st' st'' ->
  extract_keywords ollama_embeddings' cosine_similarity nlp lower
    tfidf_feature_names text num_keywords st'' = (Ok r, st'').
Proof.
  intros H Hgrows.
  apply extract_keywords_run
    in H as (doc & ces & te & Hdoc & Hfst & Hall & Hte & Hdef & ->).
  unfold extract_keywords.
  rewrite bind_unfold, call_nlp_run, Hdoc. rewrite <- Hfst.
  erewrite bind_run.
  2:{ apply candidate_embeddings_cached. intros x Hx.
      eapply lookup_weaken; [by apply Hall|exact Hgrows]. }
  erewrite bind_run.
  2:{ apply get_embedding_cached.
      eapply lookup_weaken; [exact Hte|exact Hgrows]. }
  rewrite bind_unfold, scores_run, Hdef. reflexivity.
Qed.

End ExtractReplay.

(** * The prompts sent to the embedding service *)

Section Frugal.

Variable S : str -> Prop.

Lemma frugal_ret {A} (a : A) : frugal S (ret a).
Proof.
  intros st. exists []. simpl. rewrite app_nil_r.
  split; [done|]. split; [constructor|].
  split; [intros k Hk; by apply elem_of_nil in Hk|].
  split; [reflexivity|]. split; [auto|].
  intros _ _ k Hk. by apply elem_of_nil in Hk.
Qed.

Lemma frugal_raise {A} e : frugal S (@raise A e).
Proof.
  intros st. exists []. simpl. rewrite app_nil_r.
  split; [done|]. split; [constructor|].
  split; [intros k Hk; by apply elem_of_nil in Hk|].
  split; [reflexivity|]. split; [auto|].
  intros _ _ k Hk. by apply elem_of_nil in Hk.
Qed.

Lemma frugal_bind {A B} (m : M A) (f : A -> M B) :
  frugal S m -> (forall a, frugal S (f a)) -> frugal S (bind m f).
Proof.
  intros Hm Hf st. unfold bind.
  destruct (Hm st) as (new1 & Hp1 & Hnd1 & HS1 & Hg1 & Hgain1 & Hok1).
  destruct (m st) as [[a|e] s1] eqn:Hrun; simpl in *.
  2:{ exists new1. repeat split; try done; by apply HS1. }
  destruct (Hf a s1) as (new2 & Hp2 & Hnd2 & HS2 & Hg2 & Hgain2 & Hok2).
  destruct (f a s1) as [res s2] eqn:Hrun2; simpl in *.
  exists (new1 ++ new2).
  split; [by rewrite Hp2, Hp1, app_assoc|].
  split.
  { apply NoDup_app. split; [done|]. split; [|done].
    intros k Hk1 Hk2. destruct (Hok1 a eq_refl k Hk1) as [v Hv].
    destruct (HS2 k Hk2) as [_ Hnone]. congruence. }
  split.
  { intros k Hk. apply elem_of_app in Hk as [Hk|Hk]; [by apply HS1|].
    destruct (HS2 k Hk) as [HS Hnone]. split; [done|].
    eapply lookup_weaken_None; [exact Hnone|exact Hg1]. }
  split; [by etrans|].
  split.
  { intros k Hk. destruct (Hgain2 k Hk) as [Hk1|Hk2].
    - destruct (Hgain1 k Hk1) as [?|?]; [by left|].
      right. apply elem_of_app. by left.
    - right. apply elem_of_app. by right. }
  intros b -> k Hk. apply elem_of_app in Hk as [Hk|Hk].
  - eapply lookup_weaken_is_Some; [by eapply Hok1|exact Hg2].
  - by eapply Hok2.
Qed.

Lemma frugal_for_each {A B} (xs : list A) (body : A -> B -> M B) acc :
  (forall x b, frugal S (body x b)) -> frugal S (for_each xs body acc).
Proof.
  intros Hbody. revert acc.
  induction xs as [|x xs IH]; intros acc; simpl.
  - apply frugal_ret.
  - apply frugal_bind; [apply Hbody|intros b; apply IH].
Qed.

Lemma frugal_comprehension {A B} (f : A -> M B) (xs : list A) :
  (forall x, frugal S (f x)) -> frugal S (comprehension f xs).
Proof.
  intros Hf. induction xs as [|x xs IH]; simpl.
  - apply frugal_ret.
  - apply frugal_bind; [apply Hf|intros y].
    apply frugal_bind; [apply IH|intros ys; apply frugal_ret].
Qed.

(** A computation that leaves the embedding cache and the history of the
    service as they were is frugal. *)
Lemma frugal_silent {A} (m : M A) :
  (forall st, embedding_cache (snd (m st)) = embedding_cache st /\
              provider_calls (snd (m st)) = provider_calls st) ->
  frugal S m.
Proof.
  intros Hm st. destruct (Hm st) as [Hc Hp]. exists [].
  rewrite app_nil_r. split; [done|]. split; [constructor|].
  split; [intros k Hk; by apply elem_of_nil in Hk|].
  split; [unfold cache_grows; by rewrite Hc|].
  split; [rewrite Hc; auto|].
  intros _ _ k Hk. by apply elem_of_nil in Hk.
Qed.

End Frugal.

Lemma frugal_weaken (S S' : str -> Prop) {A} (m : M A) :
  (forall k, S k -> S' k) -> frugal S m -> frugal S' m.
Proof.
  intros HSS Hm st.
  destruct (Hm st) as (new & Hp & Hnd & HS & Hg & Hgain & Hok).
  exists new. repeat split; try done; [|by apply HS].
  apply HSS. by apply HS.
Qed.

Lemma get_embedding_frugal ollama_embeddings text :
  frugal (fun k => k = text) (get_embedding ollama_embeddings text).
Proof.
  intros st. destruct (embedding_cache st !! text) as [e|] eqn:Hc.
  - rewrite (get_embedding_cached _ _ _ _ Hc). exists []. simpl.
    rewrite app_nil_r. split; [done|]. split; [constructor|].
    split; [intros k Hk; by apply elem_of_nil in Hk|].
    split; [reflexivity|]. split; [auto|].
    intros _ _ k Hk. by apply elem_of_nil in Hk.
  - rewrite (get_embedding_miss _ _ _ Hc). exists [text].
    destruct (ollama_embeddings text) as [e|]; simpl.
    + split; [done|]. split; [apply NoDup_singleton|].
      split; [by intros k ->%list_elem_of_singleton|].
      split; [by apply insert_subseteq|].
      split.
      * intros k Hk. destruct (decide (k = text)) as [->|Hne].
        -- right. by apply list_elem_of_singleton.
        -- left. by rewrite lookup_insert_ne in Hk.
      * intros _ _ k ->%list_elem_of_singleton.
        rewrite lookup_insert_eq. eauto.
    + split; [done|]. split; [apply NoDup_singleton|].
      split; [by intros k ->%list_elem_of_singleton|].
      split; [by unfold cache_grows|]. split; [auto|]. done.
Qed.

(** X4.  Whether it returns or raises, [extract_keywords] sends to the
    embedding service only candidates and the document, only texts that
    were not cached, and none twice; the embedding cache gains no other
    key, and when the call returns every text sent is cached. *)
Theorem extract_keywords_requests ollama_embeddings cosine_similarity nlp lower
    tfidf_feature_names text num_keywords :
  frugal
    (fun k =>
       (exists doc,
          nlp text = Some doc /\
          k ∈ candidate_generator lower tfidf_feature_names doc text)
       \/ k = text)
    (extract_keywords ollama_embeddings cosine_similarity nlp lower
       tfidf_feature_names text num_keywords).
Proof.
  set (S := fun k =>
              (exists doc,
                 nlp text = Some doc /\
                 k ∈ candidate_generator lower tfidf_feature_names doc text)
              \/ k = text).
  unfold extract_keywords.
  match goal with
  | |- frugal _ (bind _ ?f) =>
      assert (forall doc, nlp text = Some doc -> frugal S (f doc)) as Hrest
  end.
  { intros doc Hdoc. apply frugal_bind.
    - assert (forall ks,
                (forall k, k ∈ ks ->
                   k ∈ candidate_generator lower tfidf_feature_names doc text) ->
                frugal S
                  (comprehension
                     (fun k : str =>
                        let* e := get_embedding ollama_embeddings k in
                        ret (k, e))
                     ks)) as G.
      { induction ks as [|k ks IH]; intros Hks; simpl.
        - apply frugal_ret.
        - apply frugal_bind.
          + apply frugal_bind; [|intros e; apply frugal_ret].
            eapply frugal_weaken; [|apply get_embedding_frugal].
            intros k' ->. left. exists doc. split; [done|].
            apply Hks. by left.
          + intros y. apply frugal_bind; [|intros ys; apply frugal_ret].
            apply IH. intros k' Hk'. apply Hks. by right. }
      apply G. intros k Hk. by apply elem_of_elements.
    - intros ces. apply frugal_bind.
      { eapply frugal_weaken; [|apply get_embedding_frugal].
        intros k ->. by right. }
      intros te. apply frugal_bind; [|intros scores; apply frugal_ret].
      apply frugal_silent. intros st. by rewrite scores_run. }
  intros st. rewrite bind_unfold, call_nlp_run.
  destruct (nlp text) as [doc|] eqn:Hdoc.
  - by apply Hrest.
  - apply (frugal_raise S ValueError st).
Qed.

Lemma align_cluster_silent keywords cluster aligned st :
  embedding_cache (snd (align_cluster keywords cluster aligned st))
  = embedding_cache st /\
  provider_calls (snd (align_cluster keywords cluster aligned st))
  = provider_calls st.
Proof.
  rewrite align_cluster_eq.
  by destruct (representative keywords cluster).
Qed.

(** X5.  Whether it returns or raises, [align_keywords] sends to the
    embedding service only keywords of the input, only those that were not
    cached, and none twice, although the input may repeat a keyword; the
    embedding cache gains no other key. *)
Theorem align_keywords_requests ollama_embeddings cosine_similarity keywords
    threshold :
  frugal (fun k => k ∈ keywords)
    (align_keywords ollama_embeddings cosine_similarity keywords threshold).
Proof.
  unfold align_keywords. destruct keywords as [|k0 ks] eqn:Hks.
  - apply frugal_ret.
  - rewrite <- Hks.
    assert (frugal (fun k => k ∈ keywords)
              (comprehension get_alignment keywords)) as Hfast.
    { apply frugal_silent. intros st.
      by rewrite comprehension_get_alignment_same. }
    assert (frugal (fun k => k ∈ keywords)
              (let* embeddings :=
                 for_each keywords
                   (fun k (d : gmap str vec) =>
                      let* e := get_embedding ollama_embeddings k in
                      ret (<[k := e]> d)) ∅ in
               let* similarity_matrix :=
                 similarity_matrix cosine_similarity keywords embeddings in
               for_each
                 (cluster_keywords keywords threshold similarity_matrix)
                 (align_cluster keywords) [])) as Hslow.
    { apply frugal_bind.
      - assert (forall ks' d,
                  (forall k, k ∈ ks' -> k ∈ keywords) ->
                  frugal (fun k => k ∈ keywords)
                    (for_each ks'
                       (fun k (d : gmap str vec) =>
                          let* e := get_embedding ollama_embeddings k in
                          ret (<[k := e]> d)) d)) as G.
        { induction ks' as [|k ks' IH]; intros d Hin; simpl.
          - apply frugal_ret.
          - apply frugal_bind.
            + apply frugal_bind; [|intros e; apply frugal_ret].
              eapply frugal_weaken; [|apply get_embedding_frugal].
              intros k' ->. apply Hin. by left.
            + intros d'. apply IH. intros k' Hk'. apply Hin. by right. }
        by apply G.
      - intros d. apply frugal_bind.
        { apply frugal_silent. intros st.
          by rewrite similarity_matrix_run. }
        intros matrix. apply frugal_for_each. intros c aligned.
        apply frugal_silent. intros st. apply align_cluster_silent. }
    intros st. destruct (forallb _ keywords); [apply Hfast|apply Hslow].
Qed.

(** * Further properties of [align_keywords] *)

Lemma raises_only_for_each (P : exn -> Prop) {A B} (xs : list A)
    (body : A -> B -> M B) acc :
  (forall x b, raises_only P (body x b)) ->
  raises_only P (for_each xs body acc).
Proof.
  intros Hbody. revert acc. induction xs as [|x xs IH]; intros acc; simpl.
  - apply raises_only_ret.
  - apply raises_only_bind; [apply Hbody|intros b; apply IH].
Qed.

#[local] Instance alignment_grows_preorder : PreOrder alignment_grows.
Proof.
  split.
  - by intros st k.
  - intros s1 s2 s3 H12 H23 k Hk. by apply H23, H12.
Qed.

Lemma alignment_untouched_grows st st' :
  alignment_untouched st st' -> alignment_grows st st'.
Proof. intros [Hkac _] k. by rewrite Hkac. Qed.

Lemma set_alignment_alignment_grows k r :
  preserves alignment_grows (set_alignment k r).
Proof.
  intros st k' Hk'. simpl. destruct (decide (k = k')) as [->|Hne].
  - rewrite lookup_insert_eq. eauto.
  - by rewrite lookup_insert_ne.
Qed.

Section AlignMore.

Variable ollama_embeddings : str -> option vec.
Variable cosine_similarity : vec -> vec -> option Q.
Variable keywords : list str.
Variable threshold : Q.

#[local] Abbreviation align_keywords_ :=
  (align_keywords ollama_embeddings cosine_similarity keywords threshold).

Lemma align_keywords_preserves (R : extractor -> extractor -> Prop)
    `{!PreOrder R} :
  (forall k, preserves R (get_embedding ollama_embeddings k)) ->
  (forall k r, preserves R (set_alignment k r)) ->
  preserves R align_keywords_.
Proof.
  intros Hget Hset. unfold align_keywords. destruct keywords as [|k0 ks].
  - by apply preserves_ret.
  - intros st. destruct (forallb _ _).
    + rewrite comprehension_get_alignment_same. reflexivity.
    + revert st. apply preserves_bind; [tc_solve| |].
      * by apply embed_into_preserves.
      * intros d. apply preserves_bind; [tc_solve| |].
        { by apply preserves_similarity_matrix. }
        intros matrix. apply preserves_for_each; [tc_solve|].
        intros c aligned. by apply align_cluster_preserves.
Qed.

(** A pair of positions on which [cosine_similarity] raises. *)
Lemma similarities_undefined (d : gmap str vec) :
  similarities_defined cosine_similarity keywords d = false ->
  exists i j,
    i < j < length keywords /\
    cosine_similarity (embedding_at keywords d i) (embedding_at keywords d j)
    = None.
Proof.
  unfold similarities_defined. intros H.
  apply forallb_false_elem in H as (i & Hi & H).
  apply forallb_false_elem in H as (j & Hj & H).
  apply elem_of_seq in Hi. apply elem_of_seq in Hj.
  apply bool_decide_eq_false in H.
  exists i, j. split; [lia|].
  destruct (cosine_similarity _ _); [|done]. exfalso. apply H. by eexists.
Qed.

(** X6.  A call of [align_keywords] that raises has made no assignment to
    the alignment cache: the embeddings are fetched and the similarities
    are computed before the first assignment, and after that neither [max]
    nor a lookup can fail.  The exception is the failure of the embedding
    service, on a keyword of the input that was neither cached nor served,
    or the [ValueError] of the cosine similarity, on the embeddings of two
    keywords of the input, every keyword having its embedding cached by
    then. *)
Theorem align_keywords_failure_is_atomic st e st' :
  align_keywords_ st = (Raise e, st') ->
  alignment_untouched st st' /\
  all_aligned st keywords = false /\
  (e = ProviderError /\
   (exists k,
      k ∈ keywords /\ embedding_cache st !! k = None /\
      ollama_embeddings k = None)
   \/
   e = ValueError /\
   (forall k, k ∈ keywords -> is_Some (embedding_cache st' !! k)) /\
   exists i j,
     i < j < length keywords /\
     cosine_similarity
       (embedding_at keywords (embedding_cache st') i)
       (embedding_at keywords (embedding_cache st') j)
     = None).
Proof.
  intros H. destruct (all_aligned st keywords) eqn:Hall.
  { destruct (align_keywords_fast ollama_embeddings cosine_similarity
                keywords threshold st Hall) as (r & Hr & _). congruence. }
  rewrite align_keywords_slow in H by done.
  pose proof (embed_into_preserves ollama_embeddings alignment_untouched
                (get_embedding_alignment ollama_embeddings) keywords ∅ st)
    as Hun.
  apply bind_Raise in H as [H|(d & s1 & Hd & H)].
  - rewrite H in Hun. split; [done|]. split; [done|]. left. split.
    { eapply (raises_only_for_each (fun e => e = ProviderError)); [|exact H].
      intros k d. apply raises_only_bind; [apply get_embedding_raises|].
      intros e'. apply raises_only_ret. }
    destruct (decide (Forall
                        (fun k => is_Some (embedding_cache st !! k)
                                  \/ is_Some (ollama_embeddings k)) keywords))
      as [Hserved|Hnot].
    { destruct (embeddings_returns ollama_embeddings keywords ∅ st)
        as (d & s & Hr); [|congruence].
      by apply Forall_forall. }
    apply not_Forall_Exists in Hnot; [|tc_solve].
    apply Exists_exists in Hnot as (k & Hk & Hnone). exists k.
    split; [done|].
    destruct (embedding_cache st !! k) eqn:Hc; [exfalso; eauto|].
    destruct (ollama_embeddings k) eqn:Ho; [exfalso; eauto|]. done.
  - rewrite Hd in Hun. simpl in Hun.
    pose proof (embeddings_Ok ollama_embeddings _ _ _ _ Hd) as Hemb.
    apply bind_Raise in H as [H|(matrix & s2 & _ & H)].
    + rewrite similarity_matrix_run in H.
      destruct (similarities_defined cosine_similarity keywords d) eqn:Hdef;
        [done|].
      injection H as <- <-.
      split; [done|]. split; [done|]. right. split; [done|]. split.
      { intros k Hk. destruct (Hemb k Hk) as (v & _ & Hc). by eexists. }
      assert (forall k, k ∈ keywords -> d !! k = embedding_cache s1 !! k)
        as Hd'.
      { intros k Hk. destruct (Hemb k Hk) as (v & -> & Hc). by rewrite Hc. }
      rewrite (similarities_defined_ext cosine_similarity keywords d _ Hd')
        in Hdef.
      by apply similarities_undefined.
    + exfalso.
      destruct (align_clusters_returns keywords
                  (cluster_keywords keywords threshold matrix) [] s2)
        as (r & s3 & Hr); [apply clusters_have_representatives|congruence].
Qed.

(** X7.  On a non-empty input, [align_keywords] returns at least one item
    and at most as many as the input has keywords; after clustering, every
    item returned is a keyword of the input. *)
Theorem align_keywords_output_bounds st r st' :
  align_keywords_ st = (Ok r, st') ->
  keywords <> [] ->
  1 <= length r <= length keywords /\
  (all_aligned st keywords = false -> forall rep, rep ∈ r -> rep ∈ keywords).
Proof.
  intros H Hne. destruct (all_aligned st keywords) eqn:Hall.
  - destruct (align_keywords_fast ollama_embeddings cosine_similarity
                keywords threshold st Hall) as (r' & Hr & Hall2).
    rewrite Hr in H. injection H as <- <-.
    apply Forall2_length in Hall2. split; [|done].
    destruct keywords; [done|]. simpl in *. lia.
  - destruct (align_keywords_slow_Ok _ _ _ _ _ _ _ Hall H) as (Hreps & _).
    split.
    + rewrite <- (Forall2_length _ _ _ Hreps).
      unfold clusters_formed. rewrite cluster_keywords_seeds, length_map.
      split.
      * unfold seeds. destruct keywords as [|k0 ks]; [done|]. simpl.
        rewrite bool_decide_eq_false_2 by apply not_elem_of_empty.
        simpl. lia.
      * rewrite <- (length_seq (length keywords) 0).
        apply sublist_length, seeds_from_sublist.
    + intros _ rep Hrep. apply list_elem_of_lookup in Hrep as [i Hi].
      destruct (Forall2_lookup_r _ _ _ _ _ Hreps Hi) as (c & _ & Hc).
      by apply representative_Some in Hc as [? _].
Qed.

(** X8.  The clusters cover the input exactly: a string is in some cluster
    if and only if it is a keyword of the input, whatever the similarities
    and the threshold. *)
Theorem clusters_cover_the_input (matrix : list (list Q)) k :
  (exists c, c ∈ cluster_keywords keywords threshold matrix /\ k ∈ c) <->
  k ∈ keywords.
Proof.
  split; [|apply clusters_cover].
  intros (c & Hc & Hk). rewrite cluster_keywords_seeds in Hc.
  apply list_elem_of_fmap in Hc as (i & -> & Hi).
  apply seeds_first_occurrence in Hi as [Hi _].
  unfold cluster_of_seed in Hk. apply elem_of_union in Hk as [Hk|Hk].
  - apply elem_of_singleton in Hk as ->. by apply keyword_at_elem.
  - apply elem_of_similar_to in Hk as (j & Hj & _ & ->).
    by apply keyword_at_elem.
Qed.

End AlignMore.

Section Lifetime.

Variable ollama_embeddings : str -> option vec.
Variable cosine_similarity : vec -> vec -> option Q.
Variable nlp : str -> option Doc.
Variable lower : str -> str.
Variable tfidf_feature_names : str -> option (list str).

(** X12.  Over any sequence of calls of the methods, whether they return or
    raise, a keyword that has an entry in the alignment cache keeps one
    (the representative it maps to may change). *)
Theorem alignment_cache_keeps_its_keys st st' :
  rtc (method_call ollama_embeddings cosine_similarity nlp lower
         tfidf_feature_names) st st' ->
  alignment_grows st st'.
Proof.
  induction 1 as [st|st st1 st' Hcall _ IH]; [reflexivity|].
  etrans; [|exact IH]. destruct Hcall.
  - apply alignment_untouched_grows, get_embedding_alignment.
  - apply alignment_untouched_grows, extract_keywords_alignment.
  - apply align_keywords_preserves; [tc_solve| |].
    + intros k st0. apply alignment_untouched_grows, get_embedding_alignment.
    + apply set_alignment_alignment_grows.
Qed.

End Lifetime.

(** * The entries of the similarity matrix *)

Section MatrixEntries.

Variable cosine_similarity : vec -> vec -> option Q.
Variable keywords : list str.
Variable embeddings : gmap str vec.

#[local] Abbreviation n := (length keywords).
#[local] Abbreviation emb := (embedding_at keywords embeddings).
#[local] Abbreviation write_pair :=
  (fun (i : nat) (m : list (list Q)) (j : nat) =>
     let sim := cosine_value cosine_similarity (emb i) (emb j) in
     let m := matrix_set m i j sim in
     matrix_set m j i sim).

(** Lines 108-114 for one [i], over any list of indices after [i]. *)
Lemma fill_row_entries i js m a b :
  square n m -> i < n -> (forall j, j ∈ js -> i < j < n) ->
  square n (foldl (write_pair i) m js) /\
  matrix_get (foldl (write_pair i) m js) a b
  = if decide (a = i /\ b ∈ js) then cosine_value cosine_similarity (emb i) (emb b)
    else if decide (b = i /\ a ∈ js) then cosine_value cosine_similarity (emb i) (emb a)
    else matrix_get m a b.
Proof.
  intros Hsq Hi. revert m Hsq.
  induction js as [|j js IH]; intros m Hsq Hjs.
  - simpl. split; [done|].
    rewrite decide_False by (intros [_ H]; by apply elem_of_nil in H).
    by rewrite decide_False by (intros [_ H]; by apply elem_of_nil in H).
  - assert (i < j < n) as Hj by (apply Hjs; by left).
    assert (square n (write_pair i m j)) as Hsq'
      by (by do 2 apply matrix_set_square).
    destruct (IH (write_pair i m j) Hsq') as [Hsq'' Hget].
    { intros j' Hj'. apply Hjs. by right. }
    split; [exact Hsq''|].
    etrans; [exact Hget|]. cbv beta zeta.
    rewrite !(matrix_get_set n) by (try apply matrix_set_square; done || lia).
    destruct (decide (a = i /\ b ∈ js)) as [[-> Hb]|Hn1].
    { rewrite decide_True; [done|]. split; [done|by right]. }
    destruct (decide (b = i /\ a ∈ js)) as [[-> Ha]|Hn2].
    { rewrite decide_False.
      - rewrite decide_True; [done|]. split; [done|by right].
      - intros [-> Hin]. apply Hn1. split; [done|].
        apply elem_of_cons in Hin as [->|Hin]; [lia|done]. }
    destruct (decide (a = j /\ b = i)) as [[-> ->]|Hn3].
    { rewrite decide_False by lia.
      rewrite decide_True; [done|]. split; [done|by left]. }
    destruct (decide (a = i /\ b = j)) as [[-> ->]|Hn4].
    { rewrite decide_True; [done|]. split; [done|by left]. }
    rewrite decide_False.
    + rewrite decide_False; [done|]. intros [-> Hin].
      apply elem_of_cons in Hin as [->|Hin]; tauto.
    + intros [-> Hin]. apply elem_of_cons in Hin as [->|Hin]; tauto.
Qed.

Lemma similarity_values_rows indices m a b :
  square n m -> (forall i, i ∈ indices -> i < n) ->
  square n (foldl (fun m i => fill_row_values cosine_similarity keywords embeddings
                                n i m) m indices) /\
  matrix_get (foldl (fun m i => fill_row_values cosine_similarity keywords embeddings
                                  n i m) m indices) a b
  = if decide (a ∈ indices /\ a < b < n)
    then cosine_value cosine_similarity (emb a) (emb b)
    else if decide (b ∈ indices /\ b < a < n)
    then cosine_value cosine_similarity (emb b) (emb a)
    else matrix_get m a b.
Proof.
  revert m. induction indices as [|i indices IH]; intros m Hsq Hin.
  - split; [done|]. cbn [foldl].
    rewrite decide_False; [rewrite decide_False; [done|]|];
      intros [H _]; by apply elem_of_nil in H.
  - assert (i < n) as Hi by (apply Hin; by left).
    assert (square n (fill_row_values cosine_similarity keywords embeddings n i m) /\
            matrix_get (fill_row_values cosine_similarity keywords embeddings n i m)
              a b
            = if decide (a = i /\ b ∈ seq (i + 1) (n - (i + 1)))
              then cosine_value cosine_similarity (emb i) (emb b)
              else if decide (b = i /\ a ∈ seq (i + 1) (n - (i + 1)))
              then cosine_value cosine_similarity (emb i) (emb a)
              else matrix_get m a b) as [Hsq' Hrow].
    { apply (fill_row_entries i (seq (i + 1) (n - (i + 1))) m a b Hsq Hi).
      intros j Hj. apply elem_of_seq in Hj. lia. }
    destruct (IH (fill_row_values cosine_similarity keywords embeddings n i m) Hsq')
      as [Hsq'' Hget].
    { intros i' Hi'. apply Hin. by right. }
    split; [exact Hsq''|].
    etrans; [exact Hget|]. rewrite Hrow.
    assert (forall x, x ∈ seq (i + 1) (n - (i + 1)) <-> i < x < n) as Hseq.
    { intros x. rewrite elem_of_seq. lia. }
    destruct (decide (a ∈ indices /\ a < b < n)) as [[Ha Hab]|Hn1].
    { rewrite decide_True; [done|]. split; [by right|done]. }
    destruct (decide (b ∈ indices /\ b < a < n)) as [[Hb Hba]|Hn2].
    { rewrite decide_False.
      - rewrite decide_True; [done|]. split; [by right|done].
      - intros [_ ?]. lia. }
    destruct (decide (a = i /\ b ∈ seq (i + 1) (n - (i + 1))))
      as [[-> Hb]|Hn3].
    { apply Hseq in Hb. rewrite decide_True; [done|]. split; [by left|done]. }
    destruct (decide (b = i /\ a ∈ seq (i + 1) (n - (i + 1))))
      as [[-> Ha]|Hn4].
    { apply Hseq in Ha. rewrite decide_False.
      - rewrite decide_True; [done|]. split; [by left|done].
      - intros [_ ?]. lia. }
    rewrite decide_False.
    + rewrite decide_False; [done|]. intros [Hb Hba].
      apply elem_of_cons in Hb as [->|Hb]; [|tauto].
      apply Hn4. split; [done|]. by apply Hseq.
    + intros [Ha Hab].
      apply elem_of_cons in Ha as [->|Ha]; [|tauto].
      apply Hn3. split; [done|]. by apply Hseq.
Qed.

(** The entry at [i][j] is the cosine similarity of the embeddings of the
    two keywords, and zero on the diagonal. *)
Lemma similarity_values_get a b :
  matrix_get (similarity_values cosine_similarity keywords embeddings) a b
  = pair_similarity cosine_similarity keywords embeddings a b.
Proof.
  unfold similarity_values, pair_similarity.
  destruct (similarity_values_rows (seq 0 n) (zeros n) a b) as [_ ->].
  - apply zeros_square.
  - intros i Hi. apply elem_of_seq in Hi. lia.
  - rewrite matrix_get_zeros.
    destruct (decide (a < b < n)) as [Hab|Hab].
    + rewrite decide_True; [done|]. split; [apply elem_of_seq; lia|done].
    + rewrite decide_False by tauto.
      destruct (decide (b < a < n)) as [Hba|Hba].
      * rewrite decide_True; [done|]. split; [apply elem_of_seq; lia|done].
      * by rewrite decide_False by tauto.
Qed.

End MatrixEntries.

(** X9.  When the computation of the similarity matrix returns, it has
    changed nothing, and the entry at [i][j], for two positions [i < j] of
    the input, is what [cosine_similarity] returned for the embeddings of
    the two keywords, taken in that order; this goes by position, so that
    for a keyword that the input repeats it is the similarity of its
    embedding to itself.  The matrix is symmetric and its diagonal is
    zero.  The computation returns when [cosine_similarity] does for every
    pair of positions [i < j], and raises [ValueError] otherwise. *)
Theorem similarity_matrix_entries
    (cosine_similarity : vec -> vec -> option Q) (keywords : list str)
    (embeddings : gmap str vec) (st : extractor) (i j : nat) :
  match similarity_matrix cosine_similarity keywords embeddings st with
  | (Ok matrix, st') =>
      st' = st /\
      matrix_get matrix i j
      = pair_similarity cosine_similarity keywords embeddings i j /\
      matrix_get matrix i j = matrix_get matrix j i /\
      matrix_get matrix i i = 0%Q /\
      (i < j < length keywords ->
       cosine_similarity (embedding_at keywords embeddings i)
         (embedding_at keywords embeddings j)
       = Some (matrix_get matrix i j)) /\
      forall a b, a < b < length keywords ->
        is_Some (cosine_similarity (embedding_at keywords embeddings a)
                   (embedding_at keywords embeddings b))
  | (Raise e, st') =>
      st' = st /\ e = ValueError /\
      exists a b,
        a < b < length keywords /\
        cosine_similarity (embedding_at keywords embeddings a)
          (embedding_at keywords embeddings b)
        = None
  end.
Proof.
  rewrite similarity_matrix_run.
  destruct (similarities_defined cosine_similarity keywords embeddings)
    eqn:Hdef.
  - pose proof (proj1 (similarities_defined_spec _ _ _) Hdef) as Hall.
    clear Hdef. rename Hall into Hdef.
    split; [done|]. rewrite !similarity_values_get.
    split; [done|]. split; [|split; [|split; [|done]]].
    + unfold pair_similarity. repeat case_decide; try done; lia.
    + unfold pair_similarity. repeat case_decide; try done; lia.
    + intros Hij. unfold pair_similarity. rewrite decide_True by done.
      unfold cosine_value. by destruct (Hdef i j Hij) as [sim ->].
  - split; [done|]. split; [done|]. by apply similarities_undefined.
Qed.

(** * The members of a cluster *)

Section ClusterMembers.

Variable cosine_similarity : vec -> vec -> option Q.
Variable keywords : list str.
Variable threshold : Q.
Variable embeddings : gmap str vec.

#[local] Abbreviation matrix :=
  (similarity_values cosine_similarity keywords embeddings).
#[local] Abbreviation similarity :=
  (pair_similarity cosine_similarity keywords embeddings).

Lemma close_enough_similarity i j :
  close_enough threshold matrix i j = true <->
  i <> j /\ (threshold <= similarity i j)%Q.
Proof.
  unfold close_enough.
  rewrite andb_true_iff, negb_true_iff, Nat.eqb_neq, Qle_bool_iff.
  by rewrite similarity_values_get.
Qed.

(** X10.  Every cluster that [align_keywords] forms is anchored on its seed:
    it holds the seed, which is the first occurrence of its keyword in the
    input, and the keywords at other positions whose cosine similarity to
    the seed reaches the threshold; similarity to another member does not
    count. *)
Theorem cluster_is_seed_and_similar st similarity_matrix_ st' c :
  similarity_matrix cosine_similarity keywords embeddings st
  = (Ok similarity_matrix_, st') ->
  c ∈ cluster_keywords keywords threshold similarity_matrix_ ->
  exists i,
    i < length keywords /\
    (forall i', i' < i -> keyword_at keywords i' <> keyword_at keywords i) /\
    forall k,
      k ∈ c <->
      k = keyword_at keywords i \/
      exists j,
        j < length keywords /\ j <> i /\
        (threshold <= similarity i j)%Q /\ k = keyword_at keywords j.
Proof.
  rewrite similarity_matrix_run.
  destruct (similarities_defined cosine_similarity keywords embeddings);
    [|done].
  intros [= <- <-].
  rewrite cluster_keywords_seeds. intros Hc.
  apply list_elem_of_fmap in Hc as (i & -> & Hi).
  apply seeds_first_occurrence in Hi as [Hi Hfirst].
  exists i. split; [done|]. split; [done|].
  intros k. unfold cluster_of_seed.
  rewrite elem_of_union, elem_of_singleton, elem_of_similar_to.
  split.
  - intros [->|(j & Hj & Hclose & ->)]; [by left|right]. exists j.
    apply (proj1 (close_enough_similarity i j)) in Hclose as [Hne Hle].
    auto.
  - intros [->|(j & Hj & Hne & Hle & ->)]; [by left|right]. exists j.
    split; [done|]. split; [|done]. apply close_enough_similarity. auto.
Qed.

End ClusterMembers.

(** * Keywords that are not merged *)

Section Unmerged.

Variable keywords : list str.
Variable threshold : Q.
Variable matrix : list (list Q).

Hypothesis keywords_distinct : NoDup keywords.
Hypothesis none_close :
  forall i j, i < length keywords -> j < length keywords -> i <> j ->
              close_enough threshold matrix i j = false.

Lemma keyword_at_inj i j :
  i < length keywords -> j < length keywords ->
  keyword_at keywords i = keyword_at keywords j -> i = j.
Proof.
  intros Hi Hj. unfold keyword_at.
  destruct (lookup_lt_is_Some_2 keywords i Hi) as [x Hx].
  destruct (lookup_lt_is_Some_2 keywords j Hj) as [y Hy].
  rewrite Hx, Hy. simpl. intros ->.
  by eapply NoDup_lookup.
Qed.

Lemma none_close_singleton i :
  i < length keywords ->
  cluster_of_seed keywords threshold matrix i = {[ keyword_at keywords i ]}.
Proof.
  intros Hi. apply set_eq. intros k. unfold cluster_of_seed.
  rewrite elem_of_union, elem_of_singleton, elem_of_similar_to.
  split; [|by left]. intros [Hk|(j & Hj & Hclose & ->)]; [done|].
  destruct (decide (i = j)) as [->|Hne]; [done|].
  by rewrite none_close in Hclose.
Qed.

Lemma none_close_seeds used indices :
  (forall i, i ∈ indices -> i < length keywords) ->
  NoDup indices ->
  (forall i, i ∈ indices -> keyword_at keywords i ∉ used) ->
  seeds_from keywords threshold matrix used indices = indices.
Proof.
  revert used. induction indices as [|i indices IH]; intros used Hlt Hnd Hun.
  - done.
  - simpl. rewrite bool_decide_eq_false_2 by (apply Hun; by left).
    f_equal. apply NoDup_cons in Hnd as [Hi Hnd].
    apply IH; [intros i' Hi'; apply Hlt; by right|done|].
    intros i' Hi'. rewrite none_close_singleton by (apply Hlt; by left).
    rewrite elem_of_union, elem_of_singleton. intros [Heq|Hin].
    + apply keyword_at_inj in Heq; [by subst|apply Hlt; by right|].
      apply Hlt. by left.
    + apply (Hun i'); [by right|done].
Qed.

Lemma none_close_all_seeds :
  seeds keywords threshold matrix = seq 0 (length keywords).
Proof.
  apply none_close_seeds.
  - intros i Hi. apply elem_of_seq in Hi. lia.
  - apply NoDup_seq.
  - intros i _. apply not_elem_of_empty.
Qed.

Lemma none_close_clusters :
  cluster_keywords keywords threshold matrix
  = List.map (fun k => {[ k ]}) keywords.
Proof.
  rewrite cluster_keywords_seeds, none_close_all_seeds.
  transitivity (List.map (fun k : str => ({[ k ]} : gset str))
                  (List.map (keyword_at keywords) (seq 0 (length keywords))));
    [|by rewrite map_keyword_at_seq].
  rewrite List.map_map. apply map_ext_in.
  intros i Hi. apply in_seq in Hi. apply none_close_singleton. lia.
Qed.

End Unmerged.

Section UnmergedRun.

Variable ollama_embeddings : str -> option vec.
Variable cosine_similarity : vec -> vec -> option Q.
Variable keywords : list str.
Variable threshold : Q.

(** X13.  When the keywords of the input are distinct and no two of them
    have a cosine similarity that reaches the threshold, a call that
    clusters returns the input as it is and caches every keyword as its
    own representative. *)
Theorem align_keywords_keeps_dissimilar st r st' :
  all_aligned st keywords = false ->
  align_keywords ollama_embeddings cosine_similarity keywords threshold st
  = (Ok r, st') ->
  NoDup keywords ->
  (forall i j, i < length keywords -> j < length keywords -> i <> j ->
     (pair_similarity cosine_similarity keywords (embedding_cache st') i j
      < threshold)%Q) ->
  r = keywords /\
  forall k, k ∈ keywords -> keyword_alignment_cache st' !! k = Some k.
Proof.
  intros Hslow Hrun Hnodup Hfar.
  destruct (align_keywords_slow_Ok _ _ _ _ _ _ _ Hslow Hrun)
    as (Hreps & Hkac & _).
  unfold clusters_formed in Hreps, Hkac.
  rewrite none_close_clusters in Hreps, Hkac; try done.
  - split; [by apply singleton_representatives in Hreps|].
    intros k Hk. rewrite Hkac. by apply singleton_writes.
  - intros i j Hi Hj Hne.
    destruct (close_enough _ _ i j) eqn:Hclose; [|done].
    apply (proj1 (close_enough_similarity _ _ _ _ _ _)) in Hclose as [_ Hle].
    specialize (Hfar i j Hi Hj Hne).
    exfalso. by apply (Qlt_not_le _ _ Hfar).
  - intros i j Hi Hj Hne.
    destruct (close_enough _ _ i j) eqn:Hclose; [|done].
    apply (proj1 (close_enough_similarity _ _ _ _ _ _)) in Hclose as [_ Hle].
    specialize (Hfar i j Hi Hj Hne).
    exfalso. by apply (Qlt_not_le _ _ Hfar).
Qed.

End UnmergedRun.

(** * The choice of the representative *)

Lemma occurrences_cons k x l :
  occurrences k (x :: l)
  = (if bool_decide (x = k) then 1 else 0) + occurrences k l.
Proof. unfold occurrences. simpl. by destruct (bool_decide (x = k)). Qed.

Lemma occurrences_filter (P : str -> bool) k l :
  P k = true -> occurrences k (List.filter P l) = occurrences k l.
Proof.
  intros HP. induction l as [|x l IH]; [done|]. simpl.
  destruct (P x) eqn:HPx.
  - by rewrite !occurrences_cons, IH.
  - rewrite occurrences_cons, IH.
    rewrite bool_decide_eq_false_2; [done|]. intros ->. congruence.
Qed.

Lemma occurrences_absent k l : k ∉ l -> occurrences k l = 0.
Proof.
  induction l as [|x l IH]; intros Hk; [done|].
  rewrite occurrences_cons, IH by (intros H; apply Hk; by right).
  rewrite bool_decide_eq_false_2; [done|]. intros ->. apply Hk. by left.
Qed.

(** A [Counter] begins with the first item, with its number of
    occurrences, and goes on as the [Counter] of the other items. *)
Lemma Counter_fold_cons x c acc l :
  foldl (fun counts k => counter_add k counts) ((x, c) :: acc) l
  = (x, c + occurrences x l)
    :: foldl (fun counts k => counter_add k counts) acc
         (List.filter (fun y => negb (bool_decide (y = x))) l).
Proof.
  revert c acc. induction l as [|y l IH]; intros c acc.
  - simpl. by rewrite Nat.add_0_r.
  - rewrite occurrences_cons. cbn [foldl counter_add List.filter].
    destruct (decide (x = y)) as [->|Hne].
    + rewrite !bool_decide_eq_true_2 by done. simpl.
      rewrite IH. f_equal. f_equal. lia.
    + rewrite (bool_decide_eq_false_2 (y = x)) by congruence. simpl.
      by rewrite IH.
Qed.

Lemma Counter_cons x l :
  Counter (x :: l)
  = (x, S (occurrences x l))
    :: Counter (List.filter (fun y => negb (bool_decide (y = x))) l).
Proof. unfold Counter. simpl. by rewrite Counter_fold_cons. Qed.

Lemma Counter_count_bounded n l k c :
  length l <= n -> (k, c) ∈ Counter l -> c = occurrences k l.
Proof.
  revert l k c. induction n as [|n IH]; intros l k c Hlen Hin.
  - destruct l; [by apply elem_of_nil in Hin|simpl in Hlen; lia].
  - destruct l as [|x l]; [by apply elem_of_nil in Hin|].
    rewrite Counter_cons in Hin. rewrite occurrences_cons.
    apply elem_of_cons in Hin as [[= -> ->]|Hin].
    + by rewrite bool_decide_eq_true_2.
    + pose proof Hin as Hkey. apply (list_elem_of_fmap_2 fst) in Hkey.
      apply (proj1 (Counter_keys _ _)) in Hkey.
      apply list_elem_of_In, filter_In in Hkey as [_ Hne].
      apply negb_true_iff in Hne. apply bool_decide_eq_false in Hne.
      apply IH in Hin.
      * rewrite Hin, occurrences_filter.
        -- rewrite bool_decide_eq_false_2; [done|]. by intros ->.
        -- apply negb_true_iff. by apply bool_decide_eq_false.
      * simpl in Hlen.
        pose proof (filter_length_le
                      (fun y => negb (bool_decide (y = x))) l). lia.
Qed.

(** The counts of a [Counter] are the numbers of occurrences. *)
Lemma Counter_count l k c : (k, c) ∈ Counter l -> c = occurrences k l.
Proof. by apply (Counter_count_bounded (length l)). Qed.

Lemma filter_split_at (P : str -> bool) l f1 y f2 :
  List.filter P l = f1 ++ y :: f2 ->
  exists l1 l2,
    l = l1 ++ y :: l2 /\ (forall k, k ∈ l1 -> P k = true -> k ∈ f1).
Proof.
  revert f1. induction l as [|x l IH]; intros f1 H; simpl in H.
  - by destruct f1.
  - destruct (P x) eqn:HPx.
    + destruct f1 as [|z f1]; simpl in H.
      * injection H as -> _. exists [], l. split; [done|].
        intros k Hk. by apply elem_of_nil in Hk.
      * injection H as -> H. destruct (IH _ H) as (l1 & l2 & -> & Hl1).
        exists (z :: l1), l2. split; [done|]. intros k Hk HP.
        apply elem_of_cons in Hk as [->|Hk]; [by left|].
        right. by apply Hl1.
    + destruct (IH _ H) as (l1 & l2 & -> & Hl1).
      exists (x :: l1), l2. split; [done|]. intros k Hk HP.
      apply elem_of_cons in Hk as [->|Hk]; [congruence|]. by apply Hl1.
Qed.

(** The keys of a [Counter] come in the order of their first occurrence. *)
Lemma Counter_before c1 l x c2 :
  Counter l = c1 ++ x :: c2 ->
  exists l1 l2,
    l = l1 ++ fst x :: l2 /\ forall k, k ∈ l1 -> k ∈ List.map fst c1.
Proof.
  revert l. induction c1 as [|y c1 IH]; intros l H.
  - destruct l as [|a l]; [done|]. rewrite Counter_cons in H.
    injection H as <- _. exists [], l. split; [done|].
    intros k Hk. by apply elem_of_nil in Hk.
  - destruct l as [|a l]; [done|]. rewrite Counter_cons in H.
    injection H as <- H.
    destruct (IH _ H) as (f1 & f2 & Hsplit & Hf1).
    apply filter_split_at in Hsplit as (l1 & l2 & -> & Hl1).
    exists (a :: l1), l2. split; [done|]. intros k Hk. simpl.
    apply elem_of_cons in Hk as [->|Hk]; [by left|].
    destruct (decide (k = a)) as [->|Hne]; [by left|].
    right. apply Hf1, Hl1; [done|].
    apply negb_true_iff. by apply bool_decide_eq_false.
Qed.

Lemma max_from_ge best items x :
  x ∈ best :: items -> snd x <= snd (max_from best items).
Proof.
  revert best x. induction items as [|y items IH]; intros best x Hx; simpl.
  - apply list_elem_of_singleton in Hx as ->. done.
  - destruct (snd best <? snd y) eqn:Hlt.
    + apply Nat.ltb_lt in Hlt.
      apply elem_of_cons in Hx as [->|Hx]; [|by apply IH].
      etrans; [|apply (IH y y); by left]. lia.
    + apply Nat.ltb_ge in Hlt.
      apply elem_of_cons in Hx as [->|Hx]; [apply IH; by left|].
      apply elem_of_cons in Hx as [->|Hx]; [|apply IH; by right].
      etrans; [exact Hlt|]. apply IH. by left.
Qed.

(** [max] returns the first of the items of greatest count. *)
Lemma max_from_first best items :
  exists l1 l2,
    best :: items = l1 ++ max_from best items :: l2 /\
    forall y, y ∈ l1 -> snd y < snd (max_from best items).
Proof.
  revert best. induction items as [|y items IH]; intros best; simpl.
  - exists [], []. split; [done|]. intros z Hz. by apply elem_of_nil in Hz.
  - destruct (snd best <? snd y) eqn:Hlt.
    + apply Nat.ltb_lt in Hlt.
      destruct (IH y) as (l1 & l2 & Hsplit & Hl1).
      pose proof (max_from_ge y items y) as Hge.
      remember (max_from y items) as x eqn:Hx. clear Hx.
      exists (best :: l1), l2. split; [by rewrite Hsplit|].
      intros z Hz. apply elem_of_cons in Hz as [->|Hz]; [|by apply Hl1].
      eapply Nat.lt_le_trans; [exact Hlt|]. apply Hge. by left.
    + apply Nat.ltb_ge in Hlt.
      destruct (IH best) as (l1 & l2 & Hsplit & Hl1).
      remember (max_from best items) as x eqn:Hx. clear Hx.
      destruct l1 as [|b l1]; simpl in Hsplit.
      * injection Hsplit as <- ->. exists [], (y :: l2).
        split; [done|].
        intros z Hz. by apply elem_of_nil in Hz.
      * injection Hsplit as <- ->. exists (best :: y :: l1), l2.
        split; [done|]. intros z Hz.
        apply elem_of_cons in Hz as [->|Hz]; [apply Hl1; by left|].
        apply elem_of_cons in Hz as [->|Hz]; [|apply Hl1; by right].
        eapply Nat.le_lt_trans; [exact Hlt|]. apply Hl1. by left.
Qed.

Section RepresentativeChoice.

Variable keywords : list str.

(** X11.  The representative of a cluster occurs in the input at least as
    often as any member of the cluster, and strictly more often than any
    member that occurs before its own first occurrence: among the most
    frequent members it is the one met first in the input. *)
Theorem representative_most_frequent_then_first cluster rep :
  representative keywords cluster = Some rep ->
  (forall k, k ∈ cluster ->
     occurrences k keywords <= occurrences rep keywords) /\
  exists l1 l2,
    keywords = l1 ++ rep :: l2 /\
    forall k, k ∈ l1 -> k ∈ cluster ->
      occurrences k keywords < occurrences rep keywords.
Proof.
  unfold representative.
  set (member := fun k : str => bool_decide (k ∈ cluster)).
  set (L := List.filter member keywords).
  intros H. apply fmap_Some in H as ([rep' n] & Hmax & ->). simpl.
  assert (forall k, member k = true ->
            occurrences k L = occurrences k keywords) as Hocc.
  { intros k Hk. by apply occurrences_filter. }
  destruct (Counter L) as [|best items] eqn:Hcounts; [done|].
  injection Hmax as Hmax.
  assert ((rep', n) ∈ Counter L) as Hin.
  { rewrite Hcounts, <- Hmax. apply max_from_elem. }
  pose proof (Counter_count _ _ _ Hin) as Hn.
  assert (member rep' = true) as Hrep.
  { apply (list_elem_of_fmap_2 fst) in Hin.
    apply (proj1 (Counter_keys _ _)) in Hin.
    by apply list_elem_of_In, filter_In in Hin as [_ ?]. }
  rewrite (Hocc rep' Hrep) in Hn.
  assert (forall k c, (k, c) ∈ Counter L ->
            member k = true /\ c = occurrences k keywords) as Hitem.
  { intros k c Hk. pose proof (Counter_count _ _ _ Hk) as Hc.
    apply (list_elem_of_fmap_2 fst) in Hk.
    apply (proj1 (Counter_keys _ _)) in Hk.
    apply list_elem_of_In, filter_In in Hk as [_ Hk].
    split; [done|]. by rewrite <- (Hocc k Hk). }
  split.
  - intros k Hk. destruct (decide (k ∈ keywords)) as [Hkw|Hkw];
      [|rewrite (occurrences_absent k keywords Hkw); lia].
    assert (k ∈ List.map fst (Counter L)) as Hkey.
    { apply Counter_keys, list_elem_of_In, filter_In.
      split; [by apply list_elem_of_In|by apply bool_decide_eq_true]. }
    apply list_elem_of_fmap in Hkey as ([k' c] & -> & Hkc). simpl in *.
    destruct (Hitem _ _ Hkc) as [_ ->]. rewrite <- Hn.
    rewrite Hcounts in Hkc.
    pose proof (max_from_ge best items _ Hkc) as Hle.
    by rewrite Hmax in Hle.
  - destruct (max_from_first best items) as (c1 & c2 & Hsplit & Hc1).
    rewrite Hmax in Hsplit, Hc1. rewrite <- Hcounts in Hsplit.
    destruct (Counter_before _ _ _ _ Hsplit) as (f1 & f2 & HL & Hf1).
    apply filter_split_at in HL as (l1 & l2 & -> & Hl1).
    exists l1, l2. split; [done|]. intros k Hk Hmem.
    assert (member k = true) as Hmk by (by apply bool_decide_eq_true).
    specialize (Hf1 k (Hl1 k Hk Hmk)).
    apply list_elem_of_fmap in Hf1 as ([k' c] & -> & Hkc). simpl in *.
    specialize (Hc1 _ Hkc). simpl in Hc1.
    assert ((k', c) ∈ Counter L) as Hkc'.
    { rewrite Hsplit. apply elem_of_app. by left. }
    destruct (Hitem _ _ Hkc') as [_ ->]. by rewrite <- Hn.
Qed.

End RepresentativeChoice.

(** * Runs of the further properties *)

Lemma extract_keywords_exact_count_witness :
  NoDup [Demo.chien; Demo.chats] /\
  exists doc,
    Demo.nlp Demo.document = Some doc /\
    Z.of_nat (length [Demo.chien; Demo.chats])
    = if (0 <=? 2)%Z
      then Z.min 2
             (Z.of_nat (size (candidate_generator Demo.lower Demo.tfidf_words
                                doc Demo.document)))
      else Z.max 0
             (Z.of_nat (size (candidate_generator Demo.lower Demo.tfidf_words
                                doc Demo.document)) + 2).
Proof.
  apply (extract_keywords_exact_count Demo.embeddings Demo.dot Demo.nlp
           Demo.lower Demo.tfidf_words Demo.document 2 init
           [Demo.chien; Demo.chats]
           (snd (Demo.extract Demo.tfidf_words Demo.document 2 init))).
  vm_compute. reflexivity.
Defined.

Lemma extract_keywords_keeps_best_witness :
  (document_score Demo.dot
     (snd (Demo.extract Demo.tfidf_words Demo.document 2 init))
     Demo.document Demo.chat
   <= document_score Demo.dot
        (snd (Demo.extract Demo.tfidf_words Demo.document 2 init))
        Demo.document Demo.chats)%Q.
Proof.
  apply (extract_keywords_keeps_best Demo.embeddings Demo.dot Demo.nlp
           Demo.lower Demo.tfidf_words Demo.document Demo.document_doc 2 init
           [Demo.chien; Demo.chats]
           (snd (Demo.extract Demo.tfidf_words Demo.document 2 init))).
  - vm_compute. reflexivity.
  - vm_compute. reflexivity.
  - decide_by_computation.
  - decide_by_computation.
  - decide_by_computation.
Defined.

Lemma extract_keywords_warm_rerun_witness :
  extract_keywords Demo.unreachable Demo.dot Demo.nlp Demo.lower
    Demo.tfidf_words Demo.document 2
    (snd (Demo.extract Demo.tfidf_words Demo.document 2 init))
  = (Ok [Demo.chien; Demo.chats],
     snd (Demo.extract Demo.tfidf_words Demo.document 2 init)).
Proof.
  apply (extract_keywords_warm_rerun Demo.dot Demo.nlp Demo.lower
           Demo.tfidf_words Demo.embeddings Demo.unreachable Demo.document 2
           init [Demo.chien; Demo.chats]
           (snd (Demo.extract Demo.tfidf_words Demo.document 2 init))).
  - vm_compute. reflexivity.
  - unfold cache_grows. reflexivity.
Defined.

Lemma align_keywords_failure_is_atomic_witness :
  align_keywords Demo.uneven Demo.dot [Demo.chat; Demo.chien] (85 # 100) init
  = (Raise ValueError,
     snd (align_keywords Demo.uneven Demo.dot [Demo.chat; Demo.chien]
            (85 # 100) init)) /\
  alignment_untouched init
    (snd (align_keywords Demo.uneven Demo.dot [Demo.chat; Demo.chien]
            (85 # 100) init)).
Proof.
  assert (align_keywords Demo.uneven Demo.dot [Demo.chat; Demo.chien]
            (85 # 100) init
          = (Raise ValueError,
             snd (align_keywords Demo.uneven Demo.dot [Demo.chat; Demo.chien]
                    (85 # 100) init))) as Hrun
    by (vm_compute; reflexivity).
  split; [exact Hrun|].
  exact (proj1 (align_keywords_failure_is_atomic Demo.uneven Demo.dot
                  [Demo.chat; Demo.chien] (85 # 100) init ValueError
                  (snd (align_keywords Demo.uneven Demo.dot
                          [Demo.chat; Demo.chien] (85 # 100) init))
                  Hrun)).
Defined.

Lemma align_keywords_output_bounds_witness :
  1 <= length [Demo.chat; Demo.chien] <= length Demo.felines.
Proof.
  apply (align_keywords_output_bounds Demo.embeddings Demo.dot Demo.felines
           (85 # 100) init [Demo.chat; Demo.chien] Demo.after_felines).
  - vm_compute. reflexivity.
  - discriminate.
Defined.

Lemma cluster_is_seed_and_similar_witness :
  exists i,
    i < length Demo.wolves /\
    (forall i', i' < i ->
       keyword_at Demo.wolves i' <> keyword_at Demo.wolves i) /\
    forall k,
      k ∈ cluster_of_seed Demo.wolves (3 # 4)
            (similarity_values Demo.dot Demo.wolves
               (embedding_cache Demo.after_wolves)) 0 <->
      k = keyword_at Demo.wolves i \/
      exists j,
        j < length Demo.wolves /\ j <> i /\
        (3 # 4 <= pair_similarity Demo.dot Demo.wolves
                    (embedding_cache Demo.after_wolves) i j)%Q /\
        k = keyword_at Demo.wolves j.
Proof.
  apply (cluster_is_seed_and_similar Demo.dot Demo.wolves (3 # 4)
           (embedding_cache Demo.after_wolves) init
           (similarity_values Demo.dot Demo.wolves
              (embedding_cache Demo.after_wolves))
           init).
  - vm_compute. reflexivity.
  - decide_by_computation.
Defined.

Lemma representative_most_frequent_then_first_witness :
  (forall k, k ∈ ({[Demo.loup; Demo.loups]} : gset str) ->
     occurrences k Demo.wolves <= occurrences Demo.loup Demo.wolves) /\
  exists l1 l2,
    Demo.wolves = l1 ++ Demo.loup :: l2 /\
    forall k, k ∈ l1 -> k ∈ ({[Demo.loup; Demo.loups]} : gset str) ->
      occurrences k Demo.wolves < occurrences Demo.loup Demo.wolves.
Proof.
  apply (representative_most_frequent_then_first Demo.wolves
           {[Demo.loup; Demo.loups]} Demo.loup).
  vm_compute. reflexivity.
Defined.

Lemma alignment_cache_keeps_its_keys_witness :
  alignment_grows Demo.after_felines
    (snd (Demo.align Demo.wolves (3 # 4) Demo.after_felines)).
Proof.
  apply (alignment_cache_keeps_its_keys Demo.embeddings Demo.dot Demo.nlp
           Demo.lower Demo.tfidf_words).
  apply rtc_once. apply call_align_keywords.
Defined.

Lemma align_keywords_keeps_dissimilar_witness :
  [Demo.chat; Demo.chien] = [Demo.chat; Demo.chien] /\
  forall k, k ∈ [Demo.chat; Demo.chien] ->
    keyword_alignment_cache
      (snd (Demo.align [Demo.chat; Demo.chien] (85 # 100) init)) !! k
    = Some k.
Proof.
  apply (align_keywords_keeps_dissimilar Demo.embeddings Demo.dot
           [Demo.chat; Demo.chien] (85 # 100) init [Demo.chat; Demo.chien]
           (snd (Demo.align [Demo.chat; Demo.chien] (85 # 100) init))).
  - vm_compute. reflexivity.
  - vm_compute. reflexivity.
  - decide_by_computation.
  - intros [|[|i]] [|[|j]] Hi Hj Hij; simpl in Hi, Hj; try lia;
      vm_compute; reflexivity.
Defined.

(** * The question generator: reasoning *)

Lemma generator_bind_unfold {A B} (m : Generator.G A)
    (f : A -> Generator.G B) g :
  Generator.and_then m f g
  = match m g with
    | (Generator.Returned a, g') => f a g'
    | (Generator.Raised e, g') => (Generator.Raised e, g')
    end.
Proof. reflexivity. Qed.

Section AnalyzeFacts.
Import Generator.

Variable ollama_embeddings : str -> option vec.
Variable cosine_similarity : vec -> vec -> option Q.
Variable nlp : str -> option Doc.
Variable lower : str -> str.
Variable tfidf_feature_names : str -> option (list str).
Variable read_text : option str -> str -> option str.
Variable str_format : str -> str -> str -> option str.
Variable ollama_chat : list (str * str) -> str -> str -> option str.
Variable parse_response : str -> str -> outcome (list Qtype.Question).

#[local] Abbreviation analyze_md_ :=
  (analyze_md ollama_embeddings cosine_similarity nlp lower
     tfidf_feature_names read_text str_format ollama_chat parse_response).
#[local] Abbreviation extract_keywords_ :=
  (extract_keywords ollama_embeddings cosine_similarity nlp lower
     tfidf_feature_names).

(** The generator with another extractor, and after one more request to the
    model. *)
#[local] Abbreviation with_extractor g st :=
  {| keyword_extractor := st; chat_calls := chat_calls g;
     inserted := inserted g |}.
#[local] Abbreviation with_chat g st system prompt :=
  {| keyword_extractor := st;
     chat_calls := chat_calls g ++ [(system, prompt)];
     inserted := inserted g |}.

(** The guard of line 91. *)
Lemma guard_spec (content : str) :
  bool_decide (content = []) || (length content <? 200) = true
  <-> length content < 200.
Proof.
  rewrite orb_true_iff, bool_decide_eq_true, Nat.ltb_lt. split.
  - intros [->|H]; simpl; lia.
  - auto.
Qed.

(** The paths through [analyze_md]. *)
Lemma analyze_md_paths file_path g :
  match read_markdown read_text file_path with
  | None => analyze_md_ file_path g = (Returned None, g)
  | Some content =>
      if decide (length content < 200)
      then analyze_md_ file_path g = (Returned None, g)
      else
        match extract_keywords_ content 5 (keyword_extractor g) with
        | (Raise e, st) =>
            analyze_md_ file_path g
            = (Raised (ExtractorError e), with_extractor g st)
        | (Ok extracted_keywords, st) =>
            match read_text None (py "./prompt/user_prompt") with
            | None =>
                analyze_md_ file_path g
                = (Raised FileError, with_extractor g st)
            | Some template =>
                match str_format template content
                        (PyStr.join (py ", ") extracted_keywords) with
                | None =>
                    analyze_md_ file_path g
                    = (Raised FormatError, with_extractor g st)
                | Some prompt =>
                    match read_text None (py "./prompt/system_prompt") with
                    | None =>
                        analyze_md_ file_path g
                        = (Returned None, with_extractor g st)
                    | Some system =>
                        analyze_md_ file_path g
                        = (match ollama_chat (chat_calls g) system prompt with
                           | None => Returned None
                           | Some response =>
                               match parse_response response file_path with
                               | Returned questions =>
                                   Returned (Some questions)
                               | Raised _ => Returned None
                               end
                           end,
                           with_chat g st system prompt)
                    end
                end
            end
        end
  end.
Proof.
  unfold analyze_md. destruct (read_markdown read_text file_path) as [content|];
    [|done].
  case_decide as Hlen.
  { by rewrite (proj2 (guard_spec content) Hlen). }
  destruct (bool_decide (content = []) || (length content <? 200)) eqn:Hg.
  { apply guard_spec in Hg. lia. }
  unfold and_then, on_extractor, format_user_prompt, format_system_prompt,
    or_raise, try_except, send_chat, pure, throw.
  cbv beta.
  destruct (extract_keywords_ content 5 (keyword_extractor g))
    as [[ks|e] st]; [|done].
  destruct (read_text None (py "./prompt/user_prompt")) as [template|];
    [|done].
  destruct (str_format template content (PyStr.join (py ", ") ks))
    as [prompt|]; [|done].
  destruct (read_text None (py "./prompt/system_prompt")) as [system|];
    [|done].
  cbn [keyword_extractor chat_calls inserted].
  destruct (ollama_chat (chat_calls g) system prompt) as [response|]; [|done].
  by destruct (parse_response response file_path).
Qed.

(** The keywords that [extract_keywords] returns for [num_keywords = 5]. *)
Lemma extract_keywords_five content st extracted_keywords st' :
  extract_keywords_ content 5 st = (Ok extracted_keywords, st') ->
  length extracted_keywords <= 5 /\ NoDup extracted_keywords /\
  exists doc,
    nlp content = Some doc /\
    forall k, k ∈ extracted_keywords ->
      k ∈ candidate_generator lower tfidf_feature_names doc content.
Proof.
  intros H.
  apply extract_keywords_Ok in H as (doc & scores & Hdoc & Hfst & _ & ->).
  assert (sublist (List.map fst (slice_to 5 (sorted_reverse scores)))
            (List.map fst (sorted_reverse scores))) as Hsub.
  { apply (fmap_sublist fst), slice_to_sublist. }
  assert (List.map fst (sorted_reverse scores)
          ≡ₚ elements (candidate_generator lower tfidf_feature_names doc
                         content)) as Hperm.
  { rewrite <- Hfst. apply (fmap_Permutation fst), sorted_reverse_perm. }
  split; [|split].
  - rewrite length_map.
    pose proof (slice_to_length 5 (sorted_reverse scores)). lia.
  - eapply sublist_NoDup; [|exact Hsub].
    rewrite Hperm. apply NoDup_elements.
  - exists doc. split; [done|].
    intros k Hk. apply elem_of_elements. rewrite <- Hperm.
    by eapply elem_of_sublist.
Qed.

(** X14.  [analyze_md] gives up on a file that cannot be read or whose
    content has fewer than 200 characters: it returns [None] and changes
    nothing, so that neither the embedding service nor the model is
    contacted. *)
Theorem analyze_md_skips_short_documents file_path g :
  (forall content,
     read_markdown read_text file_path = Some content -> length content < 200) ->
  analyze_md_ file_path g = (Returned None, g).
Proof.
  intros Hshort. pose proof (analyze_md_paths file_path g) as H.
  destruct (read_markdown read_text file_path) as [content|]; [|done].
  rewrite decide_True in H by by apply Hshort. done.
Qed.

(** X15.  On a file whose content has at least 200 characters, [analyze_md]
    runs [extract_keywords] on the whole content with [num_keywords = 5]
    and does nothing else to the extractor; an exception of the extraction
    is raised by [analyze_md] as it is, before the model is contacted. *)
Theorem analyze_md_extracts_from_long_documents file_path g content :
  read_markdown read_text file_path = Some content ->
  200 <= length content ->
  keyword_extractor (snd (analyze_md_ file_path g))
  = snd (extract_keywords_ content 5 (keyword_extractor g)) /\
  forall e,
    fst (extract_keywords_ content 5 (keyword_extractor g)) = Raise e ->
    fst (analyze_md_ file_path g) = Raised (ExtractorError e) /\
    chat_calls (snd (analyze_md_ file_path g)) = chat_calls g.
Proof.
  intros Hread Hlong. pose proof (analyze_md_paths file_path g) as H.
  rewrite Hread in H. rewrite decide_False in H by lia.
  destruct (extract_keywords_ content 5 (keyword_extractor g))
    as [[ks|e] st].
  - split; [|done].
    destruct (read_text None (py "./prompt/user_prompt")) as [template|];
      [|by rewrite H].
    destruct (str_format template content (PyStr.join (py ", ") ks))
      as [prompt|]; [|by rewrite H].
    destruct (read_text None (py "./prompt/system_prompt")) as [system|];
      by rewrite H.
  - rewrite H. split; [done|]. by intros e' [= <-].
Qed.

(** X16.  An exception that leaves [analyze_md] is one that
    [extract_keywords] raised (the failure of the embedding service, or
    the [ValueError] of the annotator or of the cosine similarity), or the
    failure to read or to fill the template of the user prompt; the model
    has not been contacted then: whatever fails once the model is
    contacted (the request, its answer, the parsing) gives [None]. *)
Theorem analyze_md_raises_before_the_model file_path g e g' :
  analyze_md ollama_embeddings cosine_similarity nlp lower
    tfidf_feature_names read_text str_format ollama_chat parse_response
    file_path g
  = (Raised e, g') ->
  (e = ExtractorError ProviderError \/ e = ExtractorError ValueError \/
   e = FileError \/ e = FormatError) /\
  chat_calls g' = chat_calls g.
Proof.
  intros Hrun. pose proof (analyze_md_paths file_path g) as H.
  destruct (read_markdown read_text file_path) as [content|]; [|congruence].
  case_decide; [congruence|].
  destruct (extract_keywords_ content 5 (keyword_extractor g))
    as [[ks|e0] st] eqn:Hextract.
  - destruct (read_text None (py "./prompt/user_prompt")) as [template|].
    2:{ rewrite H in Hrun. injection Hrun as <- <-. auto. }
    destruct (str_format template content (PyStr.join (py ", ") ks))
      as [prompt|].
    2:{ rewrite H in Hrun. injection Hrun as <- <-. auto. }
    destruct (read_text None (py "./prompt/system_prompt")) as [system|];
      [|congruence].
    rewrite H in Hrun.
    destruct (ollama_chat (chat_calls g) system prompt) as [response|];
      [|congruence].
    destruct (parse_response response file_path); congruence.
  - rewrite H in Hrun. injection Hrun as <- <-.
    apply extract_keywords_raises in Hextract as [-> | ->]; auto.
Qed.

(** X17.  [analyze_md] sends at most one request to the model, and only
    after the extraction has returned: the user prompt of the request is the
    template filled with the content of the file and with the extracted
    keywords joined by a comma and a space, at most five keywords, distinct,
    all of them candidates of the content. *)
Theorem analyze_md_request file_path g :
  chat_calls (snd (analyze_md_ file_path g)) = chat_calls g \/
  exists content extracted_keywords st template system prompt,
    read_markdown read_text file_path = Some content /\
    200 <= length content /\
    extract_keywords_ content 5 (keyword_extractor g)
    = (Ok extracted_keywords, st) /\
    length extracted_keywords <= 5 /\
    NoDup extracted_keywords /\
    (exists doc,
       nlp content = Some doc /\
       forall k, k ∈ extracted_keywords ->
         k ∈ candidate_generator lower tfidf_feature_names doc content) /\
    read_text None (py "./prompt/user_prompt") = Some template /\
    read_text None (py "./prompt/system_prompt") = Some system /\
    str_format template content (PyStr.join (py ", ") extracted_keywords)
    = Some prompt /\
    chat_calls (snd (analyze_md_ file_path g))
    = chat_calls g ++ [(system, prompt)].
Proof.
  pose proof (analyze_md_paths file_path g) as H.
  destruct (read_markdown read_text file_path) as [content|]; [|left; by rewrite H].
  case_decide; [left; by rewrite H|].
  destruct (extract_keywords_ content 5 (keyword_extractor g))
    as [[ks|e0] st] eqn:Hextract; [|left; by rewrite H].
  destruct (read_text None (py "./prompt/user_prompt")) as [template|] eqn:Hu;
    [|left; by rewrite H].
  destruct (str_format template content (PyStr.join (py ", ") ks))
    as [prompt|] eqn:Hf; [|left; by rewrite H].
  destruct (read_text None (py "./prompt/system_prompt")) as [system|] eqn:Hs;
    [|left; by rewrite H].
  right. exists content, ks, st, template, system, prompt.
  destruct (extract_keywords_five _ _ _ _ Hextract) as (Hlen & Hnodup & Hin).
  repeat split; try done; [lia|by rewrite H].
Qed.

End AnalyzeFacts.

Section FolderFacts.
Import Generator.

Variable ollama_embeddings : str -> option vec.
Variable cosine_similarity : vec -> vec -> option Q.
Variable nlp : str -> option Doc.
Variable lower : str -> str.
Variable tfidf_feature_names : str -> option (list str).
Variable read_text : option str -> str -> option str.
Variable str_format : str -> str -> str -> option str.
Variable ollama_chat : list (str * str) -> str -> str -> option str.
Variable os_walk : str -> list (str * list str).
Variable os_path_join : str -> str -> str.
Variable path_name : str -> str.
Variable parse_response : str -> str -> outcome (list Qtype.Question).

#[local] Abbreviation analyze_md_ :=
  (analyze_md ollama_embeddings cosine_similarity nlp lower
     tfidf_feature_names read_text str_format ollama_chat parse_response).
#[local] Abbreviation process_file_ :=
  (process_file ollama_embeddings cosine_similarity nlp lower
     tfidf_feature_names read_text str_format ollama_chat path_name
     parse_response).
#[local] Abbreviation process_folder_ :=
  (process_folder ollama_embeddings cosine_similarity nlp lower
     tfidf_feature_names read_text str_format ollama_chat os_walk
     os_path_join path_name parse_response).
#[local] Abbreviation extract_keywords_ :=
  (extract_keywords ollama_embeddings cosine_similarity nlp lower
     tfidf_feature_names).

(** What one call of [analyze_md] does to the generator. *)
Lemma analyze_md_step file_path g :
  alignment_untouched (keyword_extractor g)
    (keyword_extractor (snd (analyze_md_ file_path g))) /\
  cache_grows (keyword_extractor g)
    (keyword_extractor (snd (analyze_md_ file_path g))) /\
  inserted (snd (analyze_md_ file_path g)) = inserted g /\
  (chat_calls (snd (analyze_md_ file_path g)) = chat_calls g \/
   exists request,
     chat_calls (snd (analyze_md_ file_path g)) = chat_calls g ++ [request]).
Proof.
  pose proof (analyze_md_paths ollama_embeddings cosine_similarity nlp lower
                tfidf_feature_names read_text str_format ollama_chat
                parse_response file_path g) as H.
  assert (alignment_untouched (keyword_extractor g) (keyword_extractor g) /\
          cache_grows (keyword_extractor g) (keyword_extractor g) /\
          inserted g = inserted g /\
          (chat_calls g = chat_calls g \/
           exists request, chat_calls g = chat_calls g ++ [request]))
    as Hsame.
  { split; [reflexivity|]. split; [reflexivity|]. auto. }
  destruct (read_markdown read_text file_path) as [content|];
    [|by rewrite H].
  case_decide; [by rewrite H|].
  pose proof (extract_keywords_alignment ollama_embeddings cosine_similarity
                nlp lower tfidf_feature_names content 5 (keyword_extractor g))
    as Ha.
  pose proof (extract_keywords_grows ollama_embeddings cosine_similarity
                nlp lower tfidf_feature_names content 5 (keyword_extractor g))
    as Hg.
  destruct (extract_keywords_ content 5 (keyword_extractor g))
    as [[ks|e0] st]; simpl in Ha, Hg.
  2:{ rewrite H. simpl. auto. }
  destruct (read_text None (py "./prompt/user_prompt")) as [template|].
  2:{ rewrite H. simpl. auto. }
  destruct (str_format template content (PyStr.join (py ", ") ks))
    as [prompt|].
  2:{ rewrite H. simpl. auto. }
  destruct (read_text None (py "./prompt/system_prompt")) as [system|].
  2:{ rewrite H. simpl. auto. }
  rewrite H. simpl. split; [done|]. split; [done|]. split; [done|].
  right. by eexists.
Qed.

(** [insert_question] on each question of a list. *)
Lemma insert_questions_run (questions : list Qtype.Question) g :
  for_loop questions (fun question _ => insert_question question) tt g
  = (Returned tt,
     {| keyword_extractor := keyword_extractor g;
        chat_calls := chat_calls g;
        inserted := inserted g ++ questions |}).
Proof.
  revert g. induction questions as [|q questions IH]; intros g; simpl.
  - rewrite app_nil_r. by destruct g.
  - rewrite generator_bind_unfold. unfold insert_question at 1.
    rewrite IH. simpl. by rewrite <- app_assoc.
Qed.

(** What the body of the loop over the files does to the generator. *)
Lemma process_file_step file_path s g :
  alignment_untouched (keyword_extractor g)
    (keyword_extractor (snd (process_file_ file_path s g))) /\
  cache_grows (keyword_extractor g)
    (keyword_extractor (snd (process_file_ file_path s g))) /\
  inserted g `prefix_of` inserted (snd (process_file_ file_path s g)) /\
  chat_calls g `prefix_of` chat_calls (snd (process_file_ file_path s g)) /\
  length (chat_calls (snd (process_file_ file_path s g)))
  <= length (chat_calls g) + 1.
Proof.
  destruct (analyze_md_step file_path g) as (Ha & Hg & Hi & Hc).
  assert (chat_calls g
            `prefix_of` chat_calls (snd (analyze_md_ file_path g)) /\
          length (chat_calls (snd (analyze_md_ file_path g)))
          <= length (chat_calls g) + 1) as [Hp Hl].
  { destruct Hc as [->|[request ->]].
    - split; [done|lia].
    - split; [by apply prefix_app_r|]. rewrite length_app. simpl. lia. }
  unfold process_file. rewrite generator_bind_unfold.
  destruct (analyze_md_ file_path g) as [[[[|q qs]|]|e] g1];
    simpl in Ha, Hg, Hi, Hp, Hl; try (rewrite <- Hi; done).
  rewrite generator_bind_unfold, insert_questions_run.
  cbn [pure snd keyword_extractor chat_calls inserted].
  split; [done|]. split; [done|]. split; [|done].
  rewrite Hi. by apply prefix_app_r.
Qed.

Lemma process_files_steps files s g :
  alignment_untouched (keyword_extractor g)
    (keyword_extractor (snd (for_loop files process_file_ s g))) /\
  cache_grows (keyword_extractor g)
    (keyword_extractor (snd (for_loop files process_file_ s g))) /\
  inserted g `prefix_of` inserted (snd (for_loop files process_file_ s g)) /\
  chat_calls g
    `prefix_of` chat_calls (snd (for_loop files process_file_ s g)) /\
  length (chat_calls (snd (for_loop files process_file_ s g)))
  <= length (chat_calls g) + length files.
Proof.
  revert s g. induction files as [|file files IH]; intros s g; simpl.
  - repeat split; try reflexivity. lia.
  - destruct (process_file_step file s g) as (Ha & Hg & Hi & Hc & Hl).
    rewrite generator_bind_unfold.
    destruct (process_file_ file s g) as [[s1|e] g1];
      simpl in Ha, Hg, Hi, Hc, Hl.
    + destruct (IH s1 g1) as (Ha' & Hg' & Hi' & Hc' & Hl').
      split; [by etrans|]. split; [by etrans|]. split; [by etrans|].
      split; [by etrans|]. lia.
    + split; [done|]. split; [done|]. split; [done|]. split; [done|].
      simpl. lia.
Qed.

(** X18.  Processing a folder never aligns keywords: whatever the files
    hold and whether the run ends or raises, the alignment cache of the
    extractor is as before.  The embedding cache keeps its entries, the
    requests to the model and the questions inserted are added after
    those of before, and the model receives at most one request for each
    markdown file of the folder. *)
Theorem process_folder_never_aligns folder_path g :
  alignment_untouched (keyword_extractor g)
    (keyword_extractor (snd (process_folder_ folder_path g))) /\
  cache_grows (keyword_extractor g)
    (keyword_extractor (snd (process_folder_ folder_path g))) /\
  inserted g `prefix_of` inserted (snd (process_folder_ folder_path g)) /\
  chat_calls g `prefix_of` chat_calls (snd (process_folder_ folder_path g)) /\
  length (chat_calls (snd (process_folder_ folder_path g)))
  <= length (chat_calls g)
     + length (scan_folder os_walk os_path_join folder_path).
Proof. apply process_files_steps. Qed.

(** The loop over the files ends at the first exception. *)
Lemma for_loop_raises {A B} (body : A -> B -> G B)
    xs1 x xs2 acc g acc1 g1 e g2 :
  for_loop xs1 body acc g = (Returned acc1, g1) ->
  body x acc1 g1 = (Raised e, g2) ->
  for_loop (xs1 ++ x :: xs2) body acc g = (Raised e, g2).
Proof.
  revert acc g. induction xs1 as [|y xs1 IH]; intros acc g; simpl.
  - intros [= <- <-] Hx. by rewrite generator_bind_unfold, Hx.
  - rewrite !generator_bind_unfold.
    destruct (body y acc g) as [[acc'|e'] g']; [|done].
    apply IH.
Qed.

(** X19.  An exception that leaves [analyze_md] for one file ends the
    processing of the folder: [process_folder] raises it, in the state in
    which it was raised, and the files after that one are not analysed. *)
Theorem process_folder_stops_at_first_exception
    folder_path files1 file_path files2 g s1 g1 e g2 :
  scan_folder os_walk os_path_join folder_path
  = files1 ++ file_path :: files2 ->
  for_loop files1 process_file_
    {| total_questions := 0; processed_files := 0; failed_files := [] |} g
  = (Returned s1, g1) ->
  analyze_md_ file_path g1 = (Raised e, g2) ->
  process_folder_ folder_path g = (Raised e, g2).
Proof.
  intros Hfiles Hbefore Hraise. unfold process_folder. rewrite Hfiles.
  eapply for_loop_raises; [exact Hbefore|].
  unfold process_file. by rewrite generator_bind_unfold, Hraise.
Qed.

End FolderFacts.

(** ** Splitting and joining *)

Lemma split_not_nil (sep : N) (s : str) : PyStr.split sep s <> [].
Proof.
  destruct s as [|c s]; simpl; [done|].
  destruct (c =? sep)%N; [done|]. by destruct (PyStr.split sep s).
Qed.

(** No piece holds the separator. *)
Lemma split_pieces (sep : N) (s : str) :
  Forall (fun piece => sep ∉ piece) (PyStr.split sep s).
Proof.
  induction s as [|c s IH]; simpl.
  - constructor; [apply not_elem_of_nil|constructor].
  - destruct (c =? sep)%N eqn:Hc.
    + constructor; [apply not_elem_of_nil|exact IH].
    + apply N.eqb_neq in Hc.
      destruct (PyStr.split sep s) as [|piece pieces].
      * constructor; [|constructor].
        intros H. apply list_elem_of_singleton in H. congruence.
      * apply Forall_cons in IH as [Hpiece Hpieces].
        constructor; [|exact Hpieces].
        intros H. apply elem_of_cons in H as [H|H]; [congruence|done].
Qed.

Lemma split_without_separator (sep : N) (s : str) :
  sep ∉ s -> PyStr.split sep s = [s].
Proof.
  induction s as [|c s IH]; simpl; [done|]. intros H.
  apply not_elem_of_cons in H as [Hc Hs].
  rewrite (proj2 (N.eqb_neq c sep)) by congruence. by rewrite IH.
Qed.

Lemma split_app (sep : N) (s rest : str) :
  sep ∉ s ->
  PyStr.split sep (s ++ sep :: rest) = s :: PyStr.split sep rest.
Proof.
  induction s as [|c s IH]; simpl; intros H.
  - by rewrite N.eqb_refl.
  - apply not_elem_of_cons in H as [Hc Hs].
    rewrite (proj2 (N.eqb_neq c sep)) by congruence. by rewrite IH.
Qed.

(** Splitting what was joined gives the pieces back. *)
Lemma split_join (sep : N) (pieces : list str) :
  pieces <> [] ->
  Forall (fun piece => sep ∉ piece) pieces ->
  PyStr.split sep (PyStr.join [sep] pieces) = pieces.
Proof.
  induction pieces as [|piece pieces IH]; [done|]. intros _ H.
  apply Forall_cons in H as [Hpiece Hpieces].
  destruct pieces as [|piece' pieces].
  - by apply split_without_separator.
  - change (PyStr.join [sep] (piece :: piece' :: pieces))
      with (piece ++ sep :: PyStr.join [sep] (piece' :: pieces)).
    rewrite split_app by done. by rewrite IH.
Qed.

(** ** [parse_response] *)

(** X20.  The cleaning of line 132 keeps, in their order, the lines of the
    response that hold a character other than white space and that do not
    start, white space apart, with [|-]: if a line is kept, the lines of
    the cleaned response are the kept lines, and otherwise the cleaned
    response is empty.  Cleaning twice is cleaning once. *)
Theorem clean_response_lines (response : str) :
  (if decide (List.filter Generator.kept_line (PyStr.split 10 response) = [])
   then Generator.clean_response response = []
   else PyStr.split 10 (Generator.clean_response response)
        = List.filter Generator.kept_line (PyStr.split 10 response)) /\
  Generator.clean_response (Generator.clean_response response)
  = Generator.clean_response response.
Proof.
  assert (forall pieces : list str,
            pieces <> [] ->
            Forall (fun piece => (10%N) ∉ piece) pieces ->
            Generator.clean_response (PyStr.join [10%N] pieces)
            = PyStr.join [10%N] (List.filter Generator.kept_line pieces))
    as Hclean.
  { intros pieces Hne Hpieces. unfold Generator.clean_response.
    by rewrite split_join. }
  assert (Forall (fun piece => (10%N) ∉ piece)
            (List.filter Generator.kept_line (PyStr.split 10 response)))
    as Hkept.
  { apply Forall_forall. intros piece Hpiece.
    apply list_elem_of_In, filter_In in Hpiece as [Hpiece _].
    apply list_elem_of_In in Hpiece. revert piece Hpiece.
    apply Forall_forall, split_pieces. }
  split.
  - case_decide as Hnone.
    + unfold Generator.clean_response. by rewrite Hnone.
    + unfold Generator.clean_response. by rewrite split_join.
  - destruct (decide (List.filter Generator.kept_line
                        (PyStr.split 10 response) = [])) as [Hnone|Hsome].
    + unfold Generator.clean_response at 2. rewrite Hnone.
      unfold Generator.clean_response at 2. rewrite Hnone. reflexivity.
    + unfold Generator.clean_response at 2. rewrite Hclean by done.
      unfold Generator.clean_response. f_equal.
      clear. induction (PyStr.split 10 response) as [|line lines IH];
        simpl; [done|].
      destruct (Generator.kept_line line) eqn:Hline; simpl;
        rewrite ?Hline, IH; done.
Qed.

Section ParseFacts.
Import Generator.

Variable finditer : str -> list Match.
Variable parse_rest : Match -> str -> str -> outcome (option Qtype.Question).

(** X21.  [parse_response] returns the empty list for every response: for
    each match it calls [self.parse_keywords], which [QCMGenerator] does
    not have, before it builds a question, and the handler of the loop
    goes on to the next match. *)
Theorem parse_response_is_empty (response source_file : str) :
  parse_response finditer parse_rest response source_file = [].
Proof.
  unfold parse_response.
  induction (finditer (clean_response response)) as [|match_ matches IH];
    [reflexivity|].
  exact IH.
Qed.


End ParseFacts.

Section QCMGeneratorFacts.
Import Generator.

Variable ollama_embeddings : str -> option vec.
Variable cosine_similarity : vec -> vec -> option Q.
Variable nlp : str -> option Doc.
Variable lower : str -> str.
Variable tfidf_feature_names : str -> option (list str).
Variable read_text : option str -> str -> option str.
Variable str_format : str -> str -> str -> option str.
Variable ollama_chat : list (str * str) -> str -> str -> option str.
Variable os_walk : str -> list (str * list str).
Variable os_path_join : str -> str -> str.
Variable path_name : str -> str.
Variable finditer : str -> list Match.
Variable parse_rest : Match -> str -> str -> outcome (option Qtype.Question).

#[local] Abbreviation parse_response_ :=
  (fun response source_file : str =>
     Returned (parse_response finditer parse_rest response source_file)).
#[local] Abbreviation analyze_md_ :=
  (analyze_md ollama_embeddings cosine_similarity nlp lower
     tfidf_feature_names read_text str_format ollama_chat parse_response_).
#[local] Abbreviation process_file_ :=
  (process_file ollama_embeddings cosine_similarity nlp lower
     tfidf_feature_names read_text str_format ollama_chat path_name
     parse_response_).

(** [analyze_md] never returns a question. *)
Lemma analyze_md_no_question file_path g :
  match fst (analyze_md_ file_path g) with
  | Returned (Some questions) => questions = []
  | Returned None | Raised _ => True
  end.
Proof.
  pose proof (analyze_md_paths ollama_embeddings cosine_similarity nlp lower
                tfidf_feature_names read_text str_format ollama_chat
                parse_response_ file_path g) as H.
  destruct (read_markdown read_text file_path) as [content|];
    [|by rewrite H].
  case_decide; [by rewrite H|].
  destruct (extract_keywords ollama_embeddings cosine_similarity nlp lower
              tfidf_feature_names content 5 (keyword_extractor g))
    as [[ks|e0] st]; [|by rewrite H].
  destruct (read_text None (py "./prompt/user_prompt")) as [template|];
    [|by rewrite H].
  destruct (str_format template content (PyStr.join (py ", ") ks))
    as [prompt|]; [|by rewrite H].
  destruct (read_text None (py "./prompt/system_prompt")) as [system|];
    [|by rewrite H].
  rewrite H. simpl.
  destruct (ollama_chat (chat_calls g) system prompt) as [response|]; [|done].
  apply parse_response_is_empty.
Qed.

Lemma process_file_fails file_path s g :
  inserted (snd (process_file_ file_path s g)) = inserted g /\
  match fst (process_file_ file_path s g) with
  | Returned s' =>
      total_questions s' = total_questions s /\
      processed_files s' = processed_files s /\
      failed_files s' = failed_files s ++ [path_name file_path]
  | Raised _ => True
  end.
Proof.
  pose proof (analyze_md_no_question file_path g) as Hnone.
  destruct (analyze_md_step ollama_embeddings cosine_similarity nlp lower
              tfidf_feature_names read_text str_format ollama_chat
              parse_response_ file_path g) as (_ & _ & Hi & _).
  unfold process_file. rewrite generator_bind_unfold.
  destruct (analyze_md_ file_path g) as [[[[|q qs]|]|e] g1];
    simpl in Hnone, Hi; try discriminate; simpl; by rewrite Hi.
Qed.

Lemma process_files_fail files s g :
  inserted (snd (for_loop files process_file_ s g)) = inserted g /\
  match fst (for_loop files process_file_ s g) with
  | Returned s' =>
      total_questions s' = total_questions s /\
      processed_files s' = processed_files s /\
      failed_files s' = failed_files s ++ (path_name <$> files)
  | Raised _ => True
  end.
Proof.
  revert s g. induction files as [|file files IH]; intros s g.
  - simpl. by rewrite app_nil_r.
  - destruct (process_file_fails file s g) as [Hi Hs].
    cbn [for_loop]. rewrite generator_bind_unfold.
    destruct (process_file_ file s g) as [[s1|e] g1]; simpl in Hi, Hs;
      [|done].
    destruct Hs as (Ht & Hp & Hf). destruct (IH s1 g1) as [Hi' Hs'].
    split; [congruence|].
    destruct (fst (for_loop files process_file_ s1 g1)) as [s2|]; [|done].
    destruct Hs' as (Ht' & Hp' & Hf').
    split; [congruence|]. split; [congruence|].
    rewrite Hf', Hf, fmap_cons, <- app_assoc. done.
Qed.

(** X22.  [process_folder] never inserts a question in the database:
    [parse_response] returns no question, so that every file of the folder
    is reported as failed, and a run that ends has processed no file and
    generated no question. *)
Theorem process_folder_inserts_nothing folder_path g :
  inserted
    (snd (QCMGenerator_process_folder ollama_embeddings cosine_similarity
            nlp lower tfidf_feature_names read_text str_format ollama_chat
            os_walk os_path_join path_name finditer parse_rest folder_path g))
  = inserted g /\
  match fst (QCMGenerator_process_folder ollama_embeddings cosine_similarity
               nlp lower tfidf_feature_names read_text str_format
               ollama_chat os_walk os_path_join path_name finditer
               parse_rest folder_path g) with
  | Returned s =>
      total_questions s = 0 /\
      processed_files s = 0 /\
      failed_files s
      = path_name <$> scan_folder os_walk os_path_join folder_path
  | Raised _ => True
  end.
Proof.
  unfold QCMGenerator_process_folder, process_folder.
  apply (process_files_fail (scan_folder os_walk os_path_join folder_path)
           {| total_questions := 0; processed_files := 0;
              failed_files := [] |} g).
Qed.

End QCMGeneratorFacts.

(** ** [scan_folder] *)

Lemma startswith_spec (prefix s : str) :
  PyStr.startswith prefix s = true <-> exists rest, s = prefix ++ rest.
Proof.
  revert s. induction prefix as [|p prefix IH]; intros s; simpl.
  - split; [by exists s|done].
  - destruct s as [|c s].
    + split; [done|]. by intros (rest & ?).
    + rewrite andb_true_iff, N.eqb_eq, IH. split.
      * intros [-> (rest & ->)]. by exists rest.
      * intros (rest & [= -> ->]). split; [done|]. by exists rest.
Qed.

Lemma endswith_spec (suffix s : str) :
  PyStr.endswith suffix s = true <-> exists stem, s = stem ++ suffix.
Proof.
  unfold PyStr.endswith. rewrite startswith_spec. split.
  - intros (rest & H). exists (reverse rest).
    apply (f_equal reverse) in H.
    by rewrite reverse_involutive, reverse_app, reverse_involutive in H.
  - intros (stem & ->). exists (reverse stem). by rewrite reverse_app.
Qed.

(** X23.  [scan_folder] lists the markdown files and nothing else: a path is
    in the list if and only if it joins a directory that [os.walk] visits
    with the name of one of its files that ends in [.md]. *)
Theorem scan_folder_lists_markdown_files
    (os_walk : str -> list (str * list str))
    (os_path_join : str -> str -> str) (path file_path : str) :
  file_path ∈ Generator.scan_folder os_walk os_path_join path <->
  exists root files stem,
    (root, files) ∈ os_walk path /\
    stem ++ py ".md" ∈ files /\
    file_path = os_path_join root (stem ++ py ".md").
Proof.
  unfold Generator.scan_folder.
  assert (forall dirs md_files,
            file_path
            ∈ foldl
                (fun md_files '(root, files) =>
                   md_files
                   ++ (os_path_join root
                         <$> List.filter (PyStr.endswith (py ".md")) files))
                md_files dirs <->
            file_path ∈ md_files \/
            exists root files stem,
              (root, files) ∈ dirs /\
              stem ++ py ".md" ∈ files /\
              file_path = os_path_join root (stem ++ py ".md")) as H.
  { induction dirs as [|[root files] dirs IH]; intros md_files.
    - simpl. split; [auto|]. intros [H|(root & files & stem & H & _)];
        [done|]. by apply elem_of_nil in H.
    - cbn [foldl]. rewrite IH, elem_of_app, list_elem_of_fmap. split.
      + intros [[H|(file & -> & H)]|(root' & files' & stem & H & Hrest)].
        * by left.
        * right. apply list_elem_of_In, filter_In in H as [Hfile Hmd].
          apply endswith_spec in Hmd as (stem & ->).
          exists root, files, stem. split; [apply list_elem_of_here|].
          split; [by apply list_elem_of_In|done].
        * right. exists root', files', stem.
          split; [by apply list_elem_of_further|done].
      + intros [H|(root' & files' & stem & H & Hfile & ->)]; [auto|].
        apply elem_of_cons in H as [[= -> ->]|H].
        * left. right. exists (stem ++ py ".md"). split; [done|].
          apply list_elem_of_In, filter_In. split; [by apply list_elem_of_In|].
          apply endswith_spec. by exists stem.
        * right. by exists root', files', stem. }
  rewrite H. split.
  - intros [Hnil|Hsome]; [by apply elem_of_nil in Hnil|done].
  - auto.
Qed.

Lemma analyze_md_skips_short_documents_witness :
  DemoFolder.analyze DemoFolder.short_md Generator.fresh
  = (Generator.Returned None, Generator.fresh).
Proof.
  apply (analyze_md_skips_short_documents Demo.embeddings Demo.dot Demo.nlp
           Demo.lower Demo.tfidf_words DemoFolder.read_text
           DemoFolder.str_format DemoFolder.ollama_chat
           DemoFolder.no_question DemoFolder.short_md Generator.fresh).
  intros content H. vm_compute in H. injection H as <-.
  apply Nat.ltb_lt. vm_compute. reflexivity.
Defined.

Lemma analyze_md_extracts_from_long_documents_witness :
  Generator.keyword_extractor DemoFolder.after_long
  = snd (Demo.extract Demo.tfidf_words DemoFolder.long_document 5 init) /\
  forall e,
    fst (Demo.extract Demo.tfidf_words DemoFolder.long_document 5 init)
    = Raise e ->
    fst (DemoFolder.analyze DemoFolder.long_md Generator.fresh)
    = Generator.Raised (Generator.ExtractorError e) /\
    Generator.chat_calls DemoFolder.after_long = [].
Proof.
  apply (analyze_md_extracts_from_long_documents Demo.embeddings Demo.dot
           Demo.nlp Demo.lower Demo.tfidf_words DemoFolder.read_text
           DemoFolder.str_format DemoFolder.ollama_chat
           DemoFolder.no_question DemoFolder.long_md Generator.fresh
           DemoFolder.long_document).
  - vm_compute. reflexivity.
  - apply Nat.leb_le. vm_compute. reflexivity.
Defined.

Lemma analyze_md_raises_before_the_model_witness :
  Generator.analyze_md Demo.embeddings Demo.dot Demo.nlp_fails Demo.lower
    Demo.tfidf_words DemoFolder.read_text DemoFolder.str_format
    DemoFolder.ollama_chat DemoFolder.no_question DemoFolder.long_md
    Generator.fresh
  = (Generator.Raised (Generator.ExtractorError ValueError),
     Generator.fresh) /\
  Generator.chat_calls Generator.fresh = [].
Proof.
  assert (Generator.analyze_md Demo.embeddings Demo.dot Demo.nlp_fails
            Demo.lower Demo.tfidf_words DemoFolder.read_text
            DemoFolder.str_format DemoFolder.ollama_chat
            DemoFolder.no_question DemoFolder.long_md Generator.fresh
          = (Generator.Raised (Generator.ExtractorError ValueError),
             Generator.fresh)) as Hrun by (vm_compute; reflexivity).
  split; [exact Hrun|].
  exact (proj2 (analyze_md_raises_before_the_model Demo.embeddings Demo.dot
                  Demo.nlp_fails Demo.lower Demo.tfidf_words
                  DemoFolder.read_text DemoFolder.str_format
                  DemoFolder.ollama_chat DemoFolder.no_question
                  DemoFolder.long_md Generator.fresh
                  (Generator.ExtractorError ValueError) Generator.fresh
                  Hrun)).
Defined.

Lemma process_folder_stops_at_first_exception_witness :
  DemoFolder.process [] Generator.fresh
  = (Generator.Raised (Generator.ExtractorError ProviderError),
     DemoFolder.after_long).
Proof.
  apply (process_folder_stops_at_first_exception Demo.embeddings Demo.dot
           Demo.nlp Demo.lower Demo.tfidf_words DemoFolder.read_text
           DemoFolder.str_format DemoFolder.ollama_chat DemoFolder.os_walk
           DemoFolder.os_path_join DemoFolder.path_name
           DemoFolder.no_question [] [DemoFolder.short_md]
           DemoFolder.long_md [] Generator.fresh
           {| Generator.total_questions := 0;
              Generator.processed_files := 0;
              Generator.failed_files := [DemoFolder.short_md] |}
           Generator.fresh).
  - vm_compute. reflexivity.
  - vm_compute. reflexivity.
  - vm_compute. reflexivity.
Defined.
